(** * Iterated Prisoner's Dilemma fishbowl: match engine and scheduler

    A shallow embedding of the simulation engine of the fishbowl
    components.  Two generations of the engine live in the repository:

    - [Hover]: the hover/tooltip component ([payoffFor],
      [runIteratedMatch], [decideMove], [adaptiveDecision],
      [adaptAgentAfterMatch], the interval scheduler);
    - [Fishbowl]: the later component ([playGame], the [Q_LEARNER],
      [FREQ_ANALYSIS], [PATTERN_DETECTOR] and [META_STRATEGY] agents, the
      tick-bounded scheduler).

    JavaScript numbers are modelled as rationals ([Q]) where the code
    divides or multiplies by decimal constants and as integers ([Z]) where
    it only adds payoffs.  The rationals are exact where the code's
    doubles round, so bounds on the learned probabilities are stated with
    closed ends or a margin and hold of both.  [Math.random] is a stream
    of draws with a read cursor that every call advances. *)

From Stdlib Require Import ZArith QArith Qround Qminmax Lia Lqa Sorted.
From stdpp Require Import gmap strings list fin_maps.

Local Open Scope Z_scope.

(** ** Moves and the payoff matrix *)

Inductive Move : Type := C | D.

Definition move_eqb (a b : Move) : bool :=
  match a, b with
  | C, C | D, D => true
  | _, _ => false
  end.

(** The string a move is in the source (["C"] or ["D"]). *)
Definition moveStr (m : Move) : string :=
  match m with C => "C" | D => "D" end.

(** [const PD = { R: 3, T: 5, P: 1, S: 0 }] *)
Module PD.
Definition R : Z := 3.
Definition T : Z := 5.
Definition P : Z := 1.
Definition S : Z := 0.
End PD.

Definition ITERATED_LENGTH : nat := 20.

(** ** The random source *)

Record Rng : Type := mkRng { draws : nat -> Q; cursor : nat }.

(** [Math.random()] *)
Definition Math_random (g : Rng) : Q * Rng :=
  (draws g (cursor g), mkRng (draws g) (Datatypes.S (cursor g))).

(** A well-formed source only yields numbers of [0, 1). *)
Definition unitDraws (g : Rng) : Prop :=
  forall k, (0 <= draws g k)%Q /\ (draws g k < 1)%Q.

(** [a < b] and [a > b] on numbers, as booleans. *)
Definition Qltb (a b : Q) : bool := negb (Qle_bool b a).
Definition Qgtb (a b : Q) : bool := Qltb b a.

(** [Math.floor(Math.random() * n)] *)
Definition randomIndex (n : nat) (g : Rng) : nat * Rng :=
  let (u, g') := Math_random g in
  (Z.to_nat (Qfloor (u * inject_Z (Z.of_nat n))), g').

(** The index [Math.floor(Math.random() * n)] yields at the draw in
    position [k] of the source. *)
Definition indexAt (n : nat) (g : Rng) (k : nat) : nat :=
  Z.to_nat (Qfloor (draws g k * inject_Z (Z.of_nat n))).

(** ** A state monad for code that threads mutable state *)

Definition State (St A : Type) : Type := St -> A * St.

Definition ret {St A} (a : A) : State St A := fun s => (a, s).

Definition bind {St A B} (m : State St A) (k : A -> State St B) : State St B :=
  fun s => let (a, s') := m s in k a s'.

Declare Scope state_scope.
Delimit Scope state_scope with state.
Notation "x <- m ;; k" := (bind m (fun x => k))
  (at level 100, m at next level, right associativity) : state_scope.

(** [Math.random() < p ? "C" : "D"] *)
Definition sample (p : Q) : State Rng Move :=
  fun g => let (u, g') := Math_random g in
           ((if Qltb u p then C else D), g').

(** * The hover component *)

Module Hover.

(** [{ me, opp }]: one side's view of a round. *)
Record Round : Type := mkRound { me : Move; opp : Move }.

Definition payoffFor (meMove oppMove : Move) : Z :=
  if move_eqb meMove C && move_eqb oppMove C then PD.R
  else if move_eqb meMove C && move_eqb oppMove D then PD.S
  else if move_eqb meMove D && move_eqb oppMove C then PD.T
  else PD.P.

Inductive ClassicId : Type :=
  C_ALWAYS | D_ALWAYS | TFT | RANDOM | GRIM | PAVLOV.

(** The [fn] of each entry of [ClassicStrategies]. *)
Definition classicFn (id : ClassicId) (history : list Round) : State Rng Move :=
  match id with
  | C_ALWAYS => ret C
  | D_ALWAYS => ret D
  | TFT =>
      match last history with
      | None => ret C
      | Some l => ret (opp l)
      end
  | RANDOM => sample (1 # 2)
  | GRIM =>
      ret (if existsb (fun h => move_eqb (opp h) D) history then D else C)
  | PAVLOV =>
      match last history with
      | None => ret C
      | Some l =>
          let payoff := payoffFor (me l) (opp l) in
          if (payoff =? PD.R) || (payoff =? PD.T) then ret (me l)
          else ret (if move_eqb (me l) C then D else C)
      end
  end.

Record Policy : Type := mkPolicy { p_afterC : Q; p_afterD : Q }.

Inductive Brain : Type :=
| Classic (id : ClassicId)
| Adaptive (policy : Policy).

Record Agent : Type := mkAgent { brain : Brain; score : Z }.

Definition isClassic (a : Agent) : bool :=
  match brain a with Classic _ => true | Adaptive _ => false end.

Definition adaptiveDecision (policy : Policy) (history : list Round) : State Rng Move :=
  match last history with
  | None => sample (p_afterC policy)
  | Some l =>
      let lastOpp := opp l in
      let p := if move_eqb lastOpp C then p_afterC policy else p_afterD policy in
      sample p
  end.

Definition decideMove (agent : Agent) (history oppHistory : list Round) : State Rng Move :=
  match brain agent with
  | Classic id => classicFn id history
  | Adaptive policy => adaptiveDecision policy oppHistory
  end.

Record Outcome : Type := mkOutcome {
  history : list Round;
  historyB : list Round;
  scoreA : Z;
  scoreB : Z
}.

(** One iteration of the [for] loop of [runIteratedMatch]. *)
Definition matchRound (A B : Agent) (o : Outcome) : State Rng Outcome :=
  (aMove <- decideMove A (history o) (historyB o) ;;
   bMove <- decideMove B (historyB o) (history o) ;;
   ret {| history := history o ++ [mkRound aMove bMove];
          historyB := historyB o ++ [mkRound bMove aMove];
          scoreA := scoreA o + payoffFor aMove bMove;
          scoreB := scoreB o + payoffFor bMove aMove |})%state.

Fixpoint matchLoop (rounds : nat) (A B : Agent) (o : Outcome) : State Rng Outcome :=
  match rounds with
  | O => ret o
  | Datatypes.S k => (o' <- matchRound A B o ;; matchLoop k A B o')%state
  end.

Definition runIteratedMatch (A B : Agent) : State Rng Outcome :=
  matchLoop ITERATED_LENGTH A B (mkOutcome [] [] 0 0).

(** *** Learning after a match *)

Record Tally : Type := mkTally {
  coopReward : Z; coopCount : Z; defReward : Z; defCount : Z
}.

(** The [for (const r of matches)] loop of [adaptAgentAfterMatch]. *)
Definition tallyRound (t : Tally) (r : Round) : Tally :=
  let rew := payoffFor (me r) (opp r) in
  if move_eqb (me r) C
  then mkTally (coopReward t + rew) (coopCount t + 1) (defReward t) (defCount t)
  else mkTally (coopReward t) (coopCount t) (defReward t + rew) (defCount t + 1).

Definition tally (matches : list Round) : Tally :=
  fold_left tallyRound matches (mkTally 0 0 0 0).

(** [count ? reward / count : 0] *)
Definition average (reward count : Z) : Q :=
  if count =? 0 then 0%Q else (inject_Z reward / inject_Z count)%Q.

Definition lr : Q := 6 # 100.

(** The [if (avgC > avgD) ... else if (avgD > avgC) ...] step. *)
Definition nudge (policy : Policy) (avgC avgD : Q) : Policy :=
  if Qgtb avgC avgD then
    {| p_afterC := Qmin (98 # 100) (p_afterC policy + lr * (avgC - avgD));
       p_afterD := Qmin (98 # 100) (p_afterD policy + lr * (avgC - avgD) * (6 # 10)) |}
  else if Qgtb avgD avgC then
    {| p_afterC := Qmax (2 # 100) (p_afterC policy - lr * (avgD - avgC));
       p_afterD := Qmax (2 # 100) (p_afterD policy - lr * (avgD - avgC) * (6 # 10)) |}
  else policy.

(** [Math.min(0.99, Math.max(0.01, p + (Math.random() - 0.5) * 0.02))] *)
Definition jitter (p u : Q) : Q :=
  Qmin (99 # 100) (Qmax (1 # 100) (p + (u - (1 # 2)) * (2 # 100))).

Definition adaptAgentAfterMatch (policy : Policy) (matches : list Round)
  : State Rng Policy :=
  let t := tally matches in
  let avgC := average (coopReward t) (coopCount t) in
  let avgD := average (defReward t) (defCount t) in
  let nudged := nudge policy avgC avgD in
  (u1 <- Math_random ;;
   u2 <- Math_random ;;
   ret {| p_afterC := jitter (p_afterC nudged) u1;
          p_afterD := jitter (p_afterD nudged) u2 |})%state.

(** [if (!agent.isClassic) adaptAgentAfterMatch(agent, matches)] *)
Definition adaptIfLearner (agent : Agent) (matches : list Round) : State Rng Agent :=
  match brain agent with
  | Classic _ => ret agent
  | Adaptive policy =>
      (policy' <- adaptAgentAfterMatch policy matches ;;
       ret (mkAgent (Adaptive policy') (score agent)))%state
  end.

(** *** Roster *)

Definition ClassicStrategies : list ClassicId :=
  [C_ALWAYS; D_ALWAYS; TFT; RANDOM; GRIM; PAVLOV].

Definition AGENT_COUNT : nat := 10.

(** [createAdaptiveAgent]: both probabilities are [0.45 + Math.random() * 0.1]. *)
Definition createAdaptiveAgent : State Rng Agent :=
  (u1 <- Math_random ;;
   u2 <- Math_random ;;
   ret (mkAgent (Adaptive {| p_afterC := (45 # 100) + u1 * (1 # 10);
                             p_afterD := (45 # 100) + u2 * (1 # 10) |}) 0))%state.

Fixpoint fillAdaptive (missing : nat) (agents : list Agent) : State Rng (list Agent) :=
  match missing with
  | O => ret agents
  | Datatypes.S k =>
      (a <- createAdaptiveAgent ;; fillAdaptive k (agents ++ [a]))%state
  end.

Definition initializeAgents : State Rng (list Agent) :=
  let classics := map (fun id => mkAgent (Classic id) 0) ClassicStrategies in
  fillAdaptive (AGENT_COUNT - length classics) classics.

(** *** Scheduler *)

(** [agents.map((a) => ({ ...a, score: 0 }))], the reset of [startSimulation]. *)
Definition resetScores (agents : list Agent) : list Agent :=
  map (fun a => mkAgent (brain a) 0) agents.

(** [while (j === i) j = Math.floor(Math.random() * n)]; [None] when the
    loop is still running after [fuel] redraws. *)
Fixpoint redraw (fuel n i j : nat) (g : Rng) : option (nat * Rng) :=
  if (j =? i)%nat then
    match fuel with
    | O => None
    | Datatypes.S f => let (j', g') := randomIndex n g in redraw f n i j' g'
    end
  else Some (j, g).

(** The two indices drawn at the head of the interval callback. *)
Definition pickPair (fuel n : nat) (g : Rng) : option (nat * nat * Rng) :=
  let (i, g1) := randomIndex n g in
  let (j0, g2) := randomIndex n g1 in
  match redraw fuel n i j0 g2 with
  | Some (j, g3) => Some (i, j, g3)
  | None => None
  end.

Record Sim : Type := mkSim {
  localAgents : list Agent;
  tick : nat;
  rng : Rng
}.

(** The body of the [setInterval] callback.  [None] covers the two ways
    the callback does not complete: the redraw loop has not ended within
    [fuel] draws, and an index outside the roster (a [TypeError]). *)
Definition intervalCallback (fuel : nat) (s : Sim) : option Sim :=
  match pickPair fuel (length (localAgents s)) (rng s) with
  | None => None
  | Some (i, j, g) =>
      match localAgents s !! i, localAgents s !! j with
      | Some A, Some B =>
          let (outcome, g1) := runIteratedMatch A B g in
          let A1 := mkAgent (brain A) (score A + scoreA outcome) in
          let B1 := mkAgent (brain B) (score B + scoreB outcome) in
          let (A2, g2) := adaptIfLearner A1 (history outcome) g1 in
          let (B2, g3) := adaptIfLearner B1 (historyB outcome) g2 in
          Some {| localAgents := <[j := B2]> (<[i := A2]> (localAgents s));
                  tick := Datatypes.S (tick s);
                  rng := g3 |}
      | _, _ => None
      end
  end.

(** [startSimulation] past its [if (running) return] guard, up to the
    first firing of the interval; this component never clears the
    interval by itself. *)
Definition startSimulation (agents : list Agent) (g : Rng) : Sim :=
  {| localAgents := resetScores agents; tick := 0; rng := g |}.

(** *** Predicates used in the properties *)

(** A history on which Pavlov cooperates next: no round yet, or a last
    round of mutual cooperation. *)
Definition settled (h : list Round) : Prop :=
  last h = None \/ last h = Some (mkRound C C).

(** The other side's record of the same round. *)
Definition mirror (r : Round) : Round := mkRound (opp r) (me r).

(** The interval the learned probabilities are kept in. *)
Definition inBand (p : Q) : Prop := (1 # 100 <= p)%Q /\ (p <= 99 # 100)%Q.

Definition policyInBand (pol : Policy) : Prop :=
  inBand (p_afterC pol) /\ inBand (p_afterD pol).

(** The payoffs of a history, added up for the side it belongs to. *)
Fixpoint scoreOf (h : list Round) : Z :=
  match h with
  | [] => 0
  | r :: h' => payoffFor (me r) (opp r) + scoreOf h'
  end.

(** Every round answers the opponent's move of the round before, [prev]
    standing for the round before the first. *)
Fixpoint repliesTo (prev : Move) (h : list Round) : Prop :=
  match h with
  | [] => True
  | r :: h' => me r = prev /\ repliesTo (opp r) h'
  end.

(** Cooperation up to and including the round of the opponent's first
    defection, defection in every round after it. *)
Fixpoint grimPlay (triggered : bool) (h : list Round) : Prop :=
  match h with
  | [] => True
  | r :: h' =>
      me r = (if triggered then D else C) /\
      grimPlay (triggered || move_eqb (opp r) D) h'
  end.

(** What the match runner keeps true of its four variables. *)
Definition consistent (n : nat) (o : Outcome) : Prop :=
  length (history o) = n /\
  historyB o = map mirror (history o) /\
  scoreA o = scoreOf (history o) /\
  scoreB o = scoreOf (historyB o).

(** The classic strategies that never defect first. *)
Definition nice (id : ClassicId) : bool :=
  match id with
  | C_ALWAYS | TFT | GRIM | PAVLOV => true
  | D_ALWAYS | RANDOM => false
  end.

(** The interval a freshly created learner's probabilities lie in.  Both
    ends are included: the code's floating-point sum [0.45 + u * 0.1]
    reaches 0.55 for the largest draws below 1. *)
Definition inStartingBand (p : Q) : Prop := (45 # 100 <= p)%Q /\ (p <= 55 # 100)%Q.

(** [a] and [b] differ by less than [d]. *)
Definition closerThan (d a b : Q) : Prop := (- d < a - b)%Q /\ (a - b < d)%Q.

(** [a] and [b] differ by at most [d]. *)
Definition within (d a b : Q) : Prop := (- d <= a - b)%Q /\ (a - b <= d)%Q.

(** The rounds of a match record in which the agent played [m]. *)
Definition roundsWith (m : Move) (matches : list Round) : list Round :=
  List.filter (fun r => move_eqb (me r) m) matches.

(** What playing [m] earned the agent in a match: the average payoff of
    the rounds in which it played [m], 0 when there is none. *)
Definition earnedWith (m : Move) (matches : list Round) : Q :=
  match roundsWith m matches with
  | [] => 0%Q
  | rounds => (inject_Z (scoreOf rounds) / inject_Z (Z.of_nat (length rounds)))%Q
  end.

(** What the post-match update makes of a probability [p] when neither
    move earned more than the other: the jitter drawn with [u], clamped. *)
Definition jitterOnly (p u : Q) : Q :=
  Qmin (99 # 100) (Qmax (1 # 100) (p + (u - (1 # 2)) * (2 # 100))).

(** The counters of the tally loop. *)
Definition tallied (n : Z) (t : Tally) : Prop :=
  0 <= coopCount t /\ 0 <= defCount t /\
  coopCount t + defCount t = n /\
  0 <= coopReward t <= 5 * coopCount t /\
  0 <= defReward t <= 5 * defCount t.

(** The kind of an agent and, for a classic agent, its strategy. *)
Definition sameKind (a a' : Agent) : Prop :=
  match brain a, brain a' with
  | Classic id, Classic id' => id = id'
  | Adaptive _, Adaptive _ => True
  | _, _ => False
  end.

End Hover.

(** * The fishbowl component *)

Module Fishbowl.

(** [{ self, opponent, payoff }]: one side's view of a round. *)
Record Round : Type := mkRound { self : Move; opponent : Move; payoff : Z }.

Inductive ClassicId : Type :=
  C_ALWAYS | D_ALWAYS | TIT_FOR_TAT | GRIM | GENEROUS_TIT_FOR_TAT | RANDOM.

Inductive AdaptiveId : Type :=
  Q_LEARNER | FREQ_ANALYSIS | PATTERN_DETECTOR | META_STRATEGY.

(** The entries of [META_STRATEGY.strategies]: ["C"], ["D"], ["TFT"], ["FREQ"]. *)
Inductive SubStrategy : Type := SubC | SubD | SubTFT | SubFREQ.

Definition sub_eqb (a b : SubStrategy) : bool :=
  match a, b with
  | SubC, SubC | SubD, SubD | SubTFT, SubTFT | SubFREQ, SubFREQ => true
  | _, _ => false
  end.

Definition strategies : list SubStrategy := [SubC; SubD; SubTFT; SubFREQ].

(** The mutable fields of the [META_STRATEGY] object. *)
Record Meta : Type := mkMeta {
  performance : SubStrategy -> Z;
  counts : SubStrategy -> Z;
  currentStrategy : SubStrategy
}.

(** The mutable state of the module-level [AdaptiveAgents] objects, which
    every roster entry reaches through its [agent] reference, and the
    random source. *)
Record World : Type := mkWorld {
  rng : Rng;
  qTable : gmap string Q;
  patterns : gmap string (Z * Z);
  meta : Meta
}.

Definition initialMeta : Meta :=
  mkMeta (fun _ => 0) (fun _ => 0) SubTFT.

Definition initialWorld (g : Rng) : World := mkWorld g ∅ ∅ initialMeta.

Definition random : State World Q :=
  fun w => let (u, g) := Math_random (rng w) in
           (u, mkWorld g (qTable w) (patterns w) (meta w)).

Definition getWorld : State World World := fun w => (w, w).
Definition setQTable (t : gmap string Q) : State World unit :=
  fun w => (tt, mkWorld (rng w) t (patterns w) (meta w)).
Definition setPatterns (p : gmap string (Z * Z)) : State World unit :=
  fun w => (tt, mkWorld (rng w) (qTable w) p (meta w)).
Definition setMeta (m : Meta) : State World unit :=
  fun w => (tt, mkWorld (rng w) (qTable w) (patterns w) m).

(** [history.slice(-k)] *)
Definition lastN {A} (k : nat) (l : list A) : list A :=
  drop (length l - k) l.

(** [xs.map(h => h.opponent).join("")] *)
Definition opponentKey (xs : list Round) : string :=
  String.concat "" (map (fun h => moveStr (opponent h)) xs).

(** [history.filter(h => h.opponent === "C").length / history.length] *)
Definition cooperationRate (history : list Round) : Q :=
  (inject_Z (Z.of_nat (length (List.filter (fun h => move_eqb (opponent h) C) history)))
   / inject_Z (Z.of_nat (length history)))%Q.

(** *** Classic strategies *)

Definition classicFn (id : ClassicId) (history : list Round) : State World Move :=
  match id with
  | C_ALWAYS => ret C
  | D_ALWAYS => ret D
  | TIT_FOR_TAT =>
      match last history with
      | None => ret C
      | Some l => ret (opponent l)
      end
  | GRIM =>
      ret (if existsb (fun h => move_eqb (opponent h) D) history then D else C)
  | GENEROUS_TIT_FOR_TAT =>
      match last history with
      | None => ret C
      | Some l =>
          if move_eqb (opponent l) C then ret C
          else (u <- random ;; ret (if Qltb u (1 # 10) then C else D))%state
      end
  | RANDOM => (u <- random ;; ret (if Qltb u (1 # 2) then C else D))%state
  end.

(** *** Q-learner *)

Definition epsilon : Q := 1 # 10.
Definition alpha : Q := 1 # 10.
Definition gamma : Q := 9 # 10.

Definition getState (history : list Round) : string :=
  if (length history =? 0)%nat then "start"
  else opponentKey (lastN 3 history).

(** [this.qTable[key] || 0] *)
Definition qValue (t : gmap string Q) (key : string) : Q :=
  default 0%Q (t !! key).

(** The [else] branch of [Q_LEARNER.fn]: the best known action. *)
Definition exploit (t : gmap string Q) (state : string) : Move :=
  let qC := qValue t (state +:+ "_C") in
  let qD := qValue t (state +:+ "_D") in
  if Qgtb qC qD then C else D.

Definition qLearnerFn (history : list Round) : State World Move :=
  let state := getState history in
  (u <- random ;;
   if Qltb u epsilon then
     v <- random ;; ret (if Qltb v (1 # 2) then C else D)
   else
     w <- getWorld ;; ret (exploit (qTable w) state))%state.

(** [updateQ] *)
Definition updateQ (state : string) (action : Move) (reward : Z)
           (nextState : string) : State World unit :=
  (w <- getWorld ;;
   let t := qTable w in
   let key := state +:+ "_" +:+ moveStr action in
   let current := qValue t key in
   let nextMax := Qmax (qValue t (nextState +:+ "_C")) (qValue t (nextState +:+ "_D")) in
   setQTable (<[key := (current + alpha * (inject_Z reward + gamma * nextMax - current))%Q]> t))%state.

(** *** Frequency analyzer *)

Definition cooperationThreshold : Q := 6 # 10.

Definition freqFn (threshold : Q) (history : list Round) : Move :=
  if (length history <? 5)%nat then C
  else if Qgtb (cooperationRate history) threshold then C else D.

(** *** Pattern detector *)

(** The [for (patternLength = from; patternLength <= upto; ...)] loop of
    [PATTERN_DETECTOR.fn], [todo] iterations left. *)
Fixpoint patternScan (todo patternLength : nat) (pats : gmap string (Z * Z))
         (history : list Round) : Move :=
  match todo with
  | O => C
  | Datatypes.S k =>
      let pattern := opponentKey (lastN patternLength history) in
      match pats !! pattern with
      | Some (predC, predD) => if predC >? predD then C else D
      | None => patternScan k (Datatypes.S patternLength) pats history
      end
  end.

Definition patternFn (history : list Round) : State World Move :=
  if (length history <? 4)%nat then ret C
  else
    (w <- getWorld ;;
     ret (patternScan (Nat.min 4 (length history) - 1) 2 (patterns w) history))%state.

(** [history.slice(-patternLength - 1, -1)] *)
Definition windowBeforeLast (patternLength : nat) (history : list Round) : list Round :=
  drop (length history - patternLength - 1) (take (length history - 1) history).

Definition bump (nextMove : Move) (c : Z * Z) : Z * Z :=
  match nextMove with
  | C => (fst c + 1, snd c)
  | D => (fst c, snd c + 1)
  end.

Fixpoint recordPatterns (todo patternLength : nat) (nextMove : Move)
         (history : list Round) (pats : gmap string (Z * Z)) : gmap string (Z * Z) :=
  match todo with
  | O => pats
  | Datatypes.S k =>
      let pattern := opponentKey (windowBeforeLast patternLength history) in
      let seen := default (0, 0) (pats !! pattern) in
      recordPatterns k (Datatypes.S patternLength) nextMove history
                     (<[pattern := bump nextMove seen]> pats)
  end.

Definition updatePatterns (history : list Round) : State World unit :=
  if (length history <? 3)%nat then ret tt
  else
    match last history with
    | None => ret tt
    | Some l =>
        (w <- getWorld ;;
         setPatterns (recordPatterns (Nat.min 4 (length history - 1) - 1) 2
                                     (opponent l) history (patterns w)))%state
    end.

(** *** Meta-strategist *)

(** [counts[s] > 0 ? performance[s] / counts[s] : 0] and the guarded
    average inside the loop. *)
Definition averageOf (m : Meta) (s : SubStrategy) : Q :=
  (inject_Z (performance m s) / inject_Z (counts m s))%Q.

(** One iteration of [for (let strategy of this.strategies)]. *)
Definition considerStrategy (m : Meta) (best : Q * SubStrategy) (strategy : SubStrategy)
  : Q * SubStrategy :=
  if counts m strategy >? 0 then
    let perf := averageOf m strategy in
    if Qgtb perf (fst best) then (perf, strategy) else best
  else best.

(** The initial [bestPerf]:
    [counts[current] > 0 ? performance[current] / counts[current] : 0]. *)
Definition currentAverage (m : Meta) : Q :=
  if counts m (currentStrategy m) >? 0
  then averageOf m (currentStrategy m) else 0%Q.

(** The evaluation block: the strategy [currentStrategy] is set to. *)
Definition evaluate (m : Meta) : SubStrategy :=
  let bestStrategy := currentStrategy m in
  let bestPerf := currentAverage m in
  snd (fold_left (considerStrategy m) strategies (bestPerf, bestStrategy)).

(** The guard [history.length > 10 && history.length % 10 === 0]. *)
Definition evaluationDue (history : list Round) : bool :=
  (10 <? length history)%nat && (length history mod 10 =? 0)%nat.

(** The [switch (this.currentStrategy)]. *)
Definition execute (s : SubStrategy) (history : list Round) : Move :=
  match s with
  | SubC => C
  | SubD => D
  | SubTFT => match last history with None => C | Some l => opponent l end
  | SubFREQ => freqFn (6 # 10) history
  end.

Definition metaFn (history : list Round) : State World Move :=
  (w <- getWorld ;;
   let m := meta w in
   let m' := if evaluationDue history
             then mkMeta (performance m) (counts m) (evaluate m)
             else m in
   _ <- setMeta m' ;;
   ret (execute (currentStrategy m') history))%state.

Definition bumpAt (f : SubStrategy -> Z) (s : SubStrategy) (d : Z) : SubStrategy -> Z :=
  fun s' => if sub_eqb s' s then f s' + d else f s'.

(** [updatePerformance(strategy, reward)] *)
Definition updatePerformance (strategy : SubStrategy) (reward : Z) : State World unit :=
  (w <- getWorld ;;
   let m := meta w in
   setMeta (mkMeta (bumpAt (performance m) strategy reward)
                   (bumpAt (counts m) strategy 1)
                   (currentStrategy m)))%state.

(** *** Roster *)

Inductive StrategyId : Type :=
| Classic (id : ClassicId)
| Adaptive (id : AdaptiveId).

Record Agent : Type := mkAgent {
  strategy : StrategyId;
  score : Z;
  history : list Round;
  myHistory : list Round
}.

Definition isClassic (a : Agent) : bool :=
  match strategy a with Classic _ => true | Adaptive _ => false end.

Definition AGENT_COUNT : nat := 10.

(** The roster built by the initialisation effect. *)
Definition initialAgents : list Agent :=
  take AGENT_COUNT
    (map (fun id => mkAgent (Classic id) 0 [] [])
         [C_ALWAYS; D_ALWAYS; TIT_FOR_TAT; GRIM; GENEROUS_TIT_FOR_TAT; RANDOM]
     ++ map (fun id => mkAgent (Adaptive id) 0 [] [])
            [Q_LEARNER; FREQ_ANALYSIS; PATTERN_DETECTOR; META_STRATEGY]).

(** [agent.strategy(history, agent.myHistory)] *)
Definition strategyFn (s : StrategyId) (history myHistory : list Round)
  : State World Move :=
  match s with
  | Classic id => classicFn id history
  | Adaptive Q_LEARNER => qLearnerFn history
  | Adaptive FREQ_ANALYSIS => ret (freqFn cooperationThreshold history)
  | Adaptive PATTERN_DETECTOR => patternFn history
  | Adaptive META_STRATEGY => metaFn history
  end.

(** *** Match runner *)

(** The payoff [if]/[else if] chain of [playGame]: [(payoffA, payoffB)]. *)
Definition roundPayoffs (moveA moveB : Move) : Z * Z :=
  if move_eqb moveA C && move_eqb moveB C then (PD.R, PD.R)
  else if move_eqb moveA C && move_eqb moveB D then (PD.S, PD.T)
  else if move_eqb moveA D && move_eqb moveB C then (PD.T, PD.S)
  else (PD.P, PD.P).

(** [if (!agent.isClassic && agent.agent.updateQ) ...] *)
Definition learnQ (a : Agent) (hist : list Round) (move : Move) (pay : Z)
  : State World unit :=
  match strategy a with
  | Adaptive Q_LEARNER =>
      let state := getState (take (length hist - 1) hist) in
      let nextState := getState hist in
      updateQ state move pay nextState
  | _ => ret tt
  end.

(** [if (!agent.isClassic && agent.agent.updatePatterns) ...] *)
Definition learnPatterns (a : Agent) (hist : list Round) : State World unit :=
  match strategy a with
  | Adaptive PATTERN_DETECTOR => updatePatterns hist
  | _ => ret tt
  end.

(** [if (!agent.isClassic && agent.agent.updatePerformance) ...] *)
Definition learnPerformance (a : Agent) (pay : Z) : State World unit :=
  match strategy a with
  | Adaptive META_STRATEGY =>
      (w <- getWorld ;; updatePerformance (currentStrategy (meta w)) pay)%state
  | _ => ret tt
  end.

Record MatchResult : Type := mkResult {
  scoreA : Z;
  scoreB : Z;
  historyA : list Round;
  historyB : list Round
}.

Definition pushMyHistory (a : Agent) (r : Round) : Agent :=
  mkAgent (strategy a) (score a) (history a) (myHistory a ++ [r]).

(** One iteration of the [for] loop of [playGame]. *)
Definition playRound (st : Agent * Agent * MatchResult)
  : State World (Agent * Agent * MatchResult) :=
  let '(agentA, agentB, res) := st in
  (moveA <- strategyFn (strategy agentA) (historyA res) (myHistory agentA) ;;
   moveB <- strategyFn (strategy agentB) (historyB res) (myHistory agentB) ;;
   let (payoffA, payoffB) := roundPayoffs moveA moveB in
   let recA := mkRound moveA moveB payoffA in
   let recB := mkRound moveB moveA payoffB in
   let res' := {| scoreA := scoreA res + payoffA;
                  scoreB := scoreB res + payoffB;
                  historyA := historyA res ++ [recA];
                  historyB := historyB res ++ [recB] |} in
   let agentA' := pushMyHistory agentA recA in
   let agentB' := pushMyHistory agentB recB in
   _ <- learnQ agentA' (historyA res') moveA payoffA ;;
   _ <- learnQ agentB' (historyB res') moveB payoffB ;;
   _ <- learnPatterns agentA' (historyA res') ;;
   _ <- learnPatterns agentB' (historyB res') ;;
   _ <- learnPerformance agentA' payoffA ;;
   _ <- learnPerformance agentB' payoffB ;;
   ret (agentA', agentB', res'))%state.

Fixpoint playLoop (rounds : nat) (st : Agent * Agent * MatchResult)
  : State World (Agent * Agent * MatchResult) :=
  match rounds with
  | O => ret st
  | Datatypes.S k => (st' <- playRound st ;; playLoop k st')%state
  end.

Definition playGame (agentA agentB : Agent)
  : State World (Agent * Agent * MatchResult) :=
  playLoop ITERATED_LENGTH (agentA, agentB, mkResult 0 0 [] []).

(** *** Scheduler *)

(** The reset of [startSimulation]:
    [prev.map(agent => ({ ...agent, score: 0, history: [], myHistory: [] }))]. *)
Definition resetAgents (prev : list Agent) : list Agent :=
  map (fun agent => mkAgent (strategy agent) 0 [] []) prev.

(** [while (indices.length < 2) { idx = ...; if (!indices.includes(idx))
    indices.push(idx) }]; [None] when the loop is still running after
    [fuel] draws. *)
Fixpoint pickIndices (fuel n : nat) (indices : list nat) (g : Rng)
  : option (list nat * Rng) :=
  if (length indices <? 2)%nat then
    match fuel with
    | O => None
    | Datatypes.S f =>
        let (idx, g') := randomIndex n g in
        if existsb (Nat.eqb idx) indices
        then pickIndices f n indices g'
        else pickIndices f n (indices ++ [idx]) g'
    end
  else Some (indices, g).

Definition withRng (w : World) (g : Rng) : World :=
  mkWorld g (qTable w) (patterns w) (meta w).

(** The updater passed to [setAgents] by the scheduler: the new roster,
    the new world and the number of matches played (0 or 1).  [None]
    covers the two ways it does not complete: the drawing loop has not
    ended within [fuel] draws, and an index outside the roster. *)
Definition matchUpdater (fuel : nat) (currentAgents : list Agent) (w : World)
  : option (list Agent * World * nat) :=
  if (length currentAgents <? 2)%nat then Some (currentAgents, w, 0%nat)
  else
    match pickIndices fuel (length currentAgents) [] (rng w) with
    | Some (idxA :: idxB :: _, g) =>
        match currentAgents !! idxA, currentAgents !! idxB with
        | Some a, Some b =>
            let '(agentA, agentB, result, w') := playGame a b (withRng w g) in
            let agentA' := mkAgent (strategy agentA) (score agentA + scoreA result)
                                   (historyA result) (myHistory agentA) in
            let agentB' := mkAgent (strategy agentB) (score agentB + scoreB result)
                                   (historyB result) (myHistory agentB) in
            Some (<[idxB := agentB']> (<[idxA := agentA']> currentAgents), w', 1%nat)
        | _, _ => None
        end
    | _ => None
    end.

(** The state of a run.  [played] is a ghost counter of the matches
    played since the run started. *)
Record Sim : Type := mkSim {
  agents : list Agent;
  world : World;
  currentTick : nat;
  running : bool;
  played : nat
}.

Definition startSimulation (s : Sim) : Sim :=
  if running s then s
  else {| agents := resetAgents (agents s);
          world := world s;
          currentTick := 0;
          running := true;
          played := 0 |}.

(** [runOneMatch] (the interval callback of the first fishbowl file). *)
Definition runOneMatch (fuel : nat) (s : Sim) : option Sim :=
  match matchUpdater fuel (agents s) (world s) with
  | None => None
  | Some (agents', w', k) =>
      let currentTick' := Datatypes.S (currentTick s) in
      Some {| agents := agents';
              world := w';
              currentTick := currentTick';
              running := if (500 <? currentTick')%nat then false else running s;
              played := (played s + k)%nat |}
  end.

(** The driver: the timer (or the animation-frame loop) calls
    [runOneMatch] only while the run has not been stopped. *)
Definition schedulerStep (fuel : nat) (s : Sim) : option Sim :=
  if running s then runOneMatch fuel s else Some s.

(** States a run goes through. *)
Inductive reachable (s0 : Sim) : Sim -> Prop :=
| reach_start : reachable s0 (startSimulation s0)
| reach_step fuel s s' :
    reachable s0 s -> schedulerStep fuel s = Some s' -> reachable s0 s'.

(** [n] firings of the timer, one after the other. *)
Fixpoint runTicks (fuel n : nat) (s : Sim) : option Sim :=
  match n with
  | O => Some s
  | Datatypes.S k =>
      match schedulerStep fuel s with
      | Some s' => runTicks fuel k s'
      | None => None
      end
  end.

(** *** Predicates used in the properties *)

(** What holds of every state of a run. *)
Definition runInvariant (s : Sim) : Prop :=
  (played s <= currentTick s)%nat /\
  (currentTick s <= 501)%nat /\
  running s = (currentTick s <=? 500)%nat.

(** [keeps m post]: running [m] leaves the meta-strategist's current
    sub-strategy as it is and returns a value satisfying [post]. *)
Definition keeps {A} (m : State World A) (post : A -> Prop) : Prop :=
  forall w,
    currentStrategy (meta (snd (m w))) = currentStrategy (meta w) /\
    post (fst (m w)).

Definition anything {A} : A -> Prop := fun _ => True.

(** Both histories of a match in progress have [n] rounds. *)
Definition roundsPlayed (n : nat) (st : Agent * Agent * MatchResult) : Prop :=
  length (historyA (snd st)) = n /\ length (historyB (snd st)) = n.

(** The [payoff] fields of a history, added up. *)
Fixpoint scoreOf (h : list Round) : Z :=
  match h with
  | [] => 0
  | r :: h' => payoff r + scoreOf h'
  end.

(** The other side's record of the same round. *)
Definition mirror (r : Round) : Round :=
  mkRound (opponent r) (self r) (snd (roundPayoffs (self r) (opponent r))).

(** The [payoff] field is the payoff of the two moves of the record. *)
Definition wellScored (r : Round) : Prop :=
  payoff r = fst (roundPayoffs (self r) (opponent r)).

(** What [playGame] keeps true of its variables and of the two agent
    copies after [n] rounds of a match started with [a0] and [b0]. *)
Definition matchShape (a0 b0 : Agent) (n : nat)
           (st : Agent * Agent * MatchResult) : Prop :=
  let '(a, b, res) := st in
  length (historyA res) = n /\
  historyB res = map mirror (historyA res) /\
  Forall wellScored (historyA res) /\
  scoreA res = scoreOf (historyA res) /\
  scoreB res = scoreOf (historyB res) /\
  a = mkAgent (strategy a0) (score a0) (history a0)
              (myHistory a0 ++ historyA res) /\
  b = mkAgent (strategy b0) (score b0) (history b0)
              (myHistory b0 ++ historyB res).

(** Every stored Q-value lies between 0 and 50, the value of receiving
    the greatest payoff 5 for ever under the discount 0.9. *)
Definition qBounded (t : gmap string Q) : Prop :=
  forall key v, t !! key = Some v -> (0 <= v)%Q /\ (v <= 50)%Q.

(** [respects R m]: the world [m] ends in is related by [R] to the one
    it started from. *)
Definition respects {A} (R : World -> World -> Prop) (m : State World A) : Prop :=
  forall w, R w (snd (m w)).

(** A bounded Q-table stays bounded. *)
Definition keepsBounded (w w' : World) : Prop :=
  qBounded (qTable w) -> qBounded (qTable w').

(** No key of the Q-table or of the pattern table is lost. *)
Definition tablesGrow (w w' : World) : Prop :=
  dom (qTable w) ⊆ dom (qTable w') /\ dom (patterns w) ⊆ dom (patterns w').

(** The meta-strategist's statistics after [n] more rounds on its
    current sub-strategy, worth [gained] in total, starting from [m0]. *)
Definition accounted (m0 : Meta) (n gained : Z) (m : Meta) : Prop :=
  currentStrategy m = currentStrategy m0 /\
  forall s,
    counts m s
    = counts m0 s + (if sub_eqb s (currentStrategy m0) then n else 0) /\
    performance m s
    = performance m0 s + (if sub_eqb s (currentStrategy m0) then gained else 0).

(** [history.filter(h => h.opponent === "C").length] *)
Definition cooperations (history : list Round) : nat :=
  length (List.filter (fun h => move_eqb (opponent h) C) history).

(** The key of the Q-table entry of a state and an action. *)
Definition qKey (state : string) (action : Move) : string :=
  state +:+ "_" +:+ moveStr action.

(** The target of a Q-update: the reward plus the discounted best value
    of the next state. *)
Definition qTarget (t : gmap string Q) (reward : Z) (nextState : string) : Q :=
  (inject_Z reward
   + gamma * Qmax (qValue t (nextState +:+ "_C")) (qValue t (nextState +:+ "_D")))%Q.

(** The table key of the opponent's moves in the [k] rounds before the
    last round of a history. *)
Definition patternKey (k : nat) (history : list Round) : string :=
  opponentKey (windowBeforeLast k history).

(** The strategies of the fishbowl roster that never defect first and
    keep no learned state. *)
Definition nice (s : StrategyId) : bool :=
  match s with
  | Classic C_ALWAYS | Classic TIT_FOR_TAT | Classic GRIM
  | Classic GENEROUS_TIT_FOR_TAT | Adaptive FREQ_ANALYSIS => true
  | _ => false
  end.






(** The learned states the code goes through: the state the page loads
    with, and from any such state the state after the scheduler has drawn
    its indices, after a strategy has been asked for a move, and after a
    round of a match. *)
Inductive occurs : World -> Prop :=
| occurs_initial g : occurs (initialWorld g)
| occurs_draw w g : occurs w -> occurs (withRng w g)
| occurs_move w s h mh : occurs w -> occurs (snd (strategyFn s h mh w))
| occurs_round w st : occurs w -> occurs (snd (playRound st w)).

(** What a tick makes of an agent that played a match: the match history
    replaces [history] and extends [myHistory], and the score grows by
    the payoffs of that history. *)
Definition played_match (a a' : Agent) : Prop :=
  strategy a' = strategy a /\
  length (history a') = 20%nat /\
  Forall wellScored (history a') /\
  score a' = score a + scoreOf (history a') /\
  myHistory a' = myHistory a ++ history a'.

End Fishbowl.

(** * Presentation helpers

    The parts of the components that compute where things go on the
    screen and what the side panels list.  Viewport sizes are numbers
    ([Q]); pointer coordinates are numbers where the code guards them and
    numbers that may be [NaN] where it does not. *)

Module Display.

Local Open Scope Q_scope.

(** ** Tooltip of the hover component *)

(** The pointer coordinates [x] and [y] of this tooltip come from the
    event that opened it.  A mouse event carries [clientX] and [clientY];
    the [onFocus] handlers pass a focus event, which has neither, so the
    coordinates are [undefined] and the arithmetic on them gives [NaN].
    [Num] is a number that may be [NaN] ([None]). *)
Definition Num : Type := option Q.

Definition num (q : Q) : Num := Some q.

(** [a + b] and [a - b]: [NaN] when an operand is. *)
Definition nadd (a b : Num) : Num :=
  match a, b with Some u, Some v => Some (u + v) | _, _ => None end.

Definition nsub (a b : Num) : Num :=
  match a, b with Some u, Some v => Some (u - v) | _, _ => None end.

(** [a > b]: false when an operand is [NaN]. *)
Definition ngt (a b : Num) : bool :=
  match a, b with Some u, Some v => Qgtb u v | _, _ => false end.

(** [Math.max(a, b)] and [Math.min(a, b)]: [NaN] when an argument is. *)
Definition nmax (a b : Num) : Num :=
  match a, b with Some u, Some v => Some (Qmax u v) | _, _ => None end.

Definition nmin (a b : Num) : Num :=
  match a, b with Some u, Some v => Some (Qmin u v) | _, _ => None end.

(** The position computed at the head of [Tooltip], past its
    [if (!visible || !content) return null] guard: [(left, top)] for the
    pointer coordinates [(x, y)] in a window of the given inner size. *)
Definition hoverTooltip (x y : Num) (innerWidth innerHeight : Q) : Num * Num :=
  let tooltipWidth := num 380 in
  let tooltipHeight := num 450 in
  let offset := num 8 in
  let left := nadd x offset in
  let top := nadd y offset in
  let left := if ngt (nadd left tooltipWidth) (num (innerWidth - 20))
              then nsub (nsub x tooltipWidth) offset else left in
  let top := if ngt (nadd top tooltipHeight) (num (innerHeight - 20))
             then nsub (nsub y tooltipHeight) offset else top in
  let left := nmax (num 10) (nmin left (nsub (nsub (num innerWidth) tooltipWidth) (num 10))) in
  let top := nmax (num 10) (nmin top (nsub (nsub (num innerHeight) tooltipHeight) (num 10))) in
  (left, top).

(** ** Tooltip of the fishbowl component (measured clamping) *)

(** [a <= b] on numbers, as a boolean. *)
Definition Qleb (a b : Q) : bool := Qle_bool a b.

(** [isSmallMobile ? Math.min(280, vw - 20) : isMobile ? 300 : 320] *)
Definition fallbackW (vw : Q) : Q :=
  if Qltb vw 480 then Qmin 280 (vw - 20)
  else if Qltb vw 768 then 300 else 320.

(** [Math.max(120, Math.min(420, vh - 20))] *)
Definition fallbackMaxH (vh : Q) : Q := Qmax 120 (Qmin 420 (vh - 20)).

(** [el ? el.offsetWidth || fallback : fallback]: [measured] is the
    element's size when the element is mounted. *)
Definition measuredOr (measured : option Q) (fallback : Q) : Q :=
  match measured with
  | Some v => if Qeq_bool v 0 then fallback else v
  | None => fallback
  end.

(** [Number.isFinite(x) ? x : fallback] *)
Definition finiteOr (x : option Q) (fallback : Q) : Q :=
  match x with Some v => v | None => fallback end.

Record TooltipPos : Type := mkPos { left : Q; top : Q; width : Q; maxH : Q }.

(** [recompute]: the position stored by [setPos], for the pointer at
    [(x, y)] (absent when not finite), the viewport [vw] x [vh] and the
    measured size of the tooltip element (absent when not mounted). *)
Definition recompute (x y : option Q) (vw vh : Q)
           (offsetWidth offsetHeight : option Q) : TooltipPos :=
  let isMobile := Qltb vw 768 in
  let rawX := finiteOr x (vw / 2) in
  let rawY := finiteOr y (vh / 2) in
  let margin : Q := 10 in
  let measuredW := measuredOr offsetWidth (fallbackW vw) in
  let measuredH := measuredOr offsetHeight (fallbackMaxH vh) in
  let '(left0, top0) :=
    if isMobile then
      (Qmax margin ((vw - measuredW) / 2),
       if Qltb rawY (vh / 2)
       then Qmin (rawY + 20) (vh - measuredH - margin)
       else Qmax margin (rawY - measuredH - 20))
    else
      ((if Qleb (rawX + measuredW + 20) vw then rawX + 15
        else if Qleb 0 (rawX - measuredW - 20) then rawX - measuredW - 15
        else Qmin (vw - measuredW - margin) (Qmax margin (rawX - measuredW / 2))),
       (if Qleb (rawY + measuredH + 20) vh then rawY + 15
        else if Qleb 0 (rawY - measuredH - 20) then rawY - measuredH - 15
        else Qmin (vh - measuredH - margin) (Qmax margin (rawY - measuredH / 2))))%Q in
  {| left := Qmax margin (Qmin left0 (vw - measuredW - margin));
     top := Qmax margin (Qmin top0 (vh - measuredH - margin));
     width := if Qeq_bool measuredW 0 then fallbackW vw else measuredW;
     maxH := fallbackMaxH vh |}.

(** ** Size of the fishbowl area *)

(** [updateDimensions]: [(width, height)] for a viewport. *)
Definition updateDimensions (viewportWidth viewportHeight : Q) : Q * Q :=
  let isMobile := Qltb viewportWidth 768 in
  let isSmallMobile := Qltb viewportWidth 480 in
  let isTablet := Qleb 768 viewportWidth && Qltb viewportWidth 1024 in
  if isSmallMobile then
    let width := Qmin (viewportWidth - 48) 360 in
    let height := Qmin (width * (9 # 10)) (Qmin (viewportHeight * (4 # 10)) 320) in
    (width, height)
  else if isMobile then
    let width := Qmin (viewportWidth - 64) 480 in
    let height := Qmin (width * (85 # 100)) (Qmin (viewportHeight * (45 # 100)) 400) in
    (width, height)
  else if isTablet then (600, 450)%Q
  else (880, 520)%Q.

(** ** Leaderboard *)

(** [Array.prototype.sort] with the comparator [(a, b) => b.score - a.score]:
    the stable sort by descending score (the one result a stable sort can
    give), written as an insertion sort. *)
Fixpoint insertByScore {A} (score : A -> Z) (x : A) (l : list A) : list A :=
  match l with
  | [] => [x]
  | y :: l' =>
      if (score x <? score y)%Z then y :: insertByScore score x l'
      else x :: y :: l'
  end.

Fixpoint sortByScore {A} (score : A -> Z) (l : list A) : list A :=
  match l with
  | [] => []
  | x :: l' => insertByScore score x (sortByScore score l')
  end.

(** [[...agents].sort((a, b) => b.score - a.score).slice(0, 6)] *)
Definition leaderboard {A} (score : A -> Z) (agents : list A) : list A :=
  take 6 (sortByScore score agents).

(** ** Match log and chart data *)

(** Hover component: [[entry, ...l].slice(0, 12)]. *)
Definition hoverLogPush {A} (entry : A) (l : list A) : list A :=
  take 12 (entry :: l).

(** Fishbowl component: [[entry, ...prevLog.slice(0, 19)]]. *)
Definition fishbowlLogPush {A} (entry : A) (prevLog : list A) : list A :=
  entry :: take 19 prevLog.

(** Fishbowl component: [[...prevData.slice(-19), point]]. *)
Definition chartPush {A} (point : A) (prevData : list A) : list A :=
  drop (length prevData - 19)%nat prevData ++ [point].

End Display.

(** * Properties *)

(** ** Basic facts *)

Lemma move_eqb_eq a b : move_eqb a b = true <-> a = b.
Proof. destruct a, b; simpl; split; congruence. Qed.

Lemma Qltb_lt a b : Qltb a b = true <-> (a < b)%Q.
Proof.
  unfold Qltb. rewrite negb_true_iff. split.
  - intros H. apply Qnot_le_lt. intros Hle.
    apply Qle_bool_iff in Hle. congruence.
  - intros H. destruct (Qle_bool b a) eqn:E; [|reflexivity].
    apply Qle_bool_iff in E. exfalso. exact (Qlt_not_le _ _ H E).
Qed.

Lemma Qltb_ge a b : Qltb a b = false <-> (b <= a)%Q.
Proof.
  unfold Qltb. rewrite negb_false_iff. apply Qle_bool_iff.
Qed.

(** A well-formed source yields indices inside the roster. *)
Lemma randomIndex_in_range n g :
  unitDraws g -> (0 < n)%nat -> (fst (randomIndex n g) < n)%nat.
Proof.
  intros Hu Hn. unfold randomIndex, Math_random. cbn [fst].
  destruct (Hu (cursor g)) as [H0 H1].
  set (u := draws g (cursor g)) in *.
  assert (Hpos : (0 < inject_Z (Z.of_nat n))%Q).
  { change 0%Q with (inject_Z 0). rewrite <- Zlt_Qlt. lia. }
  assert (Hlo : 0 <= Qfloor (u * inject_Z (Z.of_nat n))).
  { change 0 with (Qfloor 0). apply Qfloor_resp_le.
    apply Qmult_le_0_compat; [assumption|apply Qlt_le_weak; assumption]. }
  assert (Hhi : Qfloor (u * inject_Z (Z.of_nat n)) < Z.of_nat n).
  { rewrite Zlt_Qlt. eapply Qle_lt_trans; [apply Qfloor_le|].
    rewrite <- (Qmult_1_l (inject_Z (Z.of_nat n))) at 2.
    apply Qmult_lt_compat_r; assumption. }
  lia.
Qed.

(** ** The payoff rule *)

(** The payoff pair of the fishbowl match runner is the hover component's
    [payoffFor] seen from either side. *)
Lemma roundPayoffs_payoffFor a b :
  Fishbowl.roundPayoffs a b = (Hover.payoffFor a b, Hover.payoffFor b a).
Proof. destruct a, b; reflexivity. Qed.

(** C1: the payoff rule is the fixed matrix with R=3, T=5, P=1, S=0:
    payoff(C,C) = R, payoff(C,D) = S, payoff(D,C) = T, payoff(D,D) = P,
    hence payoff(C,D) + payoff(D,C) = S + T; this holds of [payoffFor] and
    of both components of the payoff pair computed inside [playGame]. *)
Theorem payoff_matrix :
  (PD.R = 3 /\ PD.T = 5 /\ PD.P = 1 /\ PD.S = 0) /\
  (Hover.payoffFor C C = PD.R /\ Hover.payoffFor C D = PD.S /\
   Hover.payoffFor D C = PD.T /\ Hover.payoffFor D D = PD.P /\
   Hover.payoffFor C D + Hover.payoffFor D C = PD.S + PD.T) /\
  (Fishbowl.roundPayoffs C C = (PD.R, PD.R) /\
   Fishbowl.roundPayoffs C D = (PD.S, PD.T) /\
   Fishbowl.roundPayoffs D C = (PD.T, PD.S) /\
   Fishbowl.roundPayoffs D D = (PD.P, PD.P) /\
   fst (Fishbowl.roundPayoffs C D) + fst (Fishbowl.roundPayoffs D C) = PD.S + PD.T).
Proof. repeat split. Qed.

(** ** Always Cooperate against Always Defect *)

Section CooperateDefect.
Import Hover.

(** What a match of any length between the two looks like after [k]
    further rounds. *)
Lemma hover_cd_loop k sa sb o g :
  matchLoop k (mkAgent (Classic C_ALWAYS) sa) (mkAgent (Classic D_ALWAYS) sb) o g
  = ({| history := history o ++ repeat (mkRound C D) k;
        historyB := historyB o ++ repeat (mkRound D C) k;
        scoreA := scoreA o;
        scoreB := scoreB o + 5 * Z.of_nat k |}, g).
Proof.
  revert o g. induction k as [|k IH]; intros o g.
  - simpl. unfold ret. destruct o; simpl. rewrite !app_nil_r.
    f_equal. f_equal. lia.
  - cbn [matchLoop]. unfold bind at 1.
    unfold matchRound, bind, ret; cbn [decideMove brain classicFn]; unfold ret.
    rewrite IH. cbn [history historyB scoreA scoreB].
    rewrite <- !app_assoc. cbn [repeat app].
    change (payoffFor C D) with 0. change (payoffFor D C) with 5.
    f_equal. f_equal; lia.
Qed.
End CooperateDefect.

(** The same for the fishbowl match runner; the learning hooks are not
    entered for classic agents, so the world is left as it is. *)
Section CooperateDefectFishbowl.
Import Fishbowl.

Lemma fishbowl_cd_loop k sa ha mha sb hb mhb res w :
  playLoop k (mkAgent (Classic C_ALWAYS) sa ha mha,
              mkAgent (Classic D_ALWAYS) sb hb mhb, res) w
  = ((mkAgent (Classic C_ALWAYS) sa ha (mha ++ repeat (mkRound C D 0) k),
      mkAgent (Classic D_ALWAYS) sb hb (mhb ++ repeat (mkRound D C 5) k),
      {| scoreA := scoreA res;
         scoreB := scoreB res + 5 * Z.of_nat k;
         historyA := historyA res ++ repeat (mkRound C D 0) k;
         historyB := historyB res ++ repeat (mkRound D C 5) k |}), w).
Proof.
  revert mha mhb res w. induction k as [|k IH]; intros mha mhb res w.
  - simpl. unfold ret. destruct res; simpl. rewrite !app_nil_r.
    do 3 f_equal. lia.
  - cbn [playLoop]. unfold bind at 1.
    unfold playRound, bind, ret;
      cbn [strategyFn strategy classicFn myHistory]; unfold ret.
    change (roundPayoffs C D) with (0, 5).
    unfold pushMyHistory;
      cbn [learnQ learnPatterns learnPerformance strategy
           score history myHistory]; unfold ret.
    rewrite IH. cbn [historyA historyB scoreA scoreB].
    rewrite <- !app_assoc. cbn [repeat app].
    do 3 f_equal; lia.
Qed.
End CooperateDefectFishbowl.

(** C2: a 20-round match of Always Cooperate (side A) against Always
    Defect (side B) returns scoreA = 0 and scoreB = 100, and every one of
    the 20 round records of A's history has own move C, opponent move D
    and payoff 0; in [runIteratedMatch], whose records carry no payoff
    field, the payoff is the one [payoffFor] gives the record. *)
Theorem cooperate_vs_defect_match :
  (forall sa sb g,
      let o := fst (Hover.runIteratedMatch
                      (Hover.mkAgent (Hover.Classic Hover.C_ALWAYS) sa)
                      (Hover.mkAgent (Hover.Classic Hover.D_ALWAYS) sb) g) in
      Hover.scoreA o = 0 /\ Hover.scoreB o = 100 /\
      length (Hover.history o) = 20%nat /\
      Forall (fun r => Hover.me r = C /\ Hover.opp r = D /\
                       Hover.payoffFor (Hover.me r) (Hover.opp r) = 0)
             (Hover.history o)) /\
  (forall sa ha mha sb hb mhb w,
      let r := snd (fst (Fishbowl.playGame
                           (Fishbowl.mkAgent (Fishbowl.Classic Fishbowl.C_ALWAYS) sa ha mha)
                           (Fishbowl.mkAgent (Fishbowl.Classic Fishbowl.D_ALWAYS) sb hb mhb)
                           w)) in
      Fishbowl.scoreA r = 0 /\ Fishbowl.scoreB r = 100 /\
      length (Fishbowl.historyA r) = 20%nat /\
      Forall (fun x => Fishbowl.self x = C /\ Fishbowl.opponent x = D /\
                       Fishbowl.payoff x = 0)
             (Fishbowl.historyA r)).
Proof.
  split.
  - intros sa sb g o. subst o. unfold Hover.runIteratedMatch.
    rewrite hover_cd_loop. cbn.
    repeat split; repeat constructor.
  - intros sa ha mha sb hb mhb w r. subst r. unfold Fishbowl.playGame.
    rewrite fishbowl_cd_loop. cbn.
    repeat split; repeat constructor.
Qed.

(** ** Pavlov against Pavlov *)

Section PavlovPavlov.
Import Hover.

Lemma pavlov_cooperates h g :
  settled h -> classicFn PAVLOV h g = (C, g).
Proof.
  intros [E | E]; unfold classicFn; rewrite E; reflexivity.
Qed.

Lemma settled_snoc h : settled (h ++ [mkRound C C]).
Proof. right. apply last_snoc. Qed.

Lemma pavlov_loop k sa sb o g :
  settled (history o) -> settled (historyB o) ->
  matchLoop k (mkAgent (Classic PAVLOV) sa) (mkAgent (Classic PAVLOV) sb) o g
  = ({| history := history o ++ repeat (mkRound C C) k;
        historyB := historyB o ++ repeat (mkRound C C) k;
        scoreA := scoreA o + PD.R * Z.of_nat k;
        scoreB := scoreB o + PD.R * Z.of_nat k |}, g).
Proof.
  revert o g. induction k as [|k IH]; intros o g HA HB.
  - simpl. unfold ret. destruct o; simpl. rewrite !app_nil_r.
    f_equal. f_equal; unfold PD.R; lia.
  - cbn [matchLoop]. unfold bind at 1.
    unfold matchRound, bind; cbn [decideMove brain].
    rewrite (pavlov_cooperates _ _ HA), (pavlov_cooperates _ _ HB).
    unfold ret. rewrite IH by (cbn [history historyB]; apply settled_snoc).
    cbn [history historyB scoreA scoreB].
    rewrite <- !app_assoc. cbn [repeat app].
    change (payoffFor C C) with PD.R.
    f_equal. f_equal; unfold PD.R; lia.
Qed.
End PavlovPavlov.

(** C5: in a 20-round match of Pavlov against Pavlov both sides play C in
    every round, so both final scores are 20 * R = 60. *)
Theorem pavlov_vs_pavlov_match :
  forall sa sb g,
    let o := fst (Hover.runIteratedMatch
                    (Hover.mkAgent (Hover.Classic Hover.PAVLOV) sa)
                    (Hover.mkAgent (Hover.Classic Hover.PAVLOV) sb) g) in
    Hover.history o = repeat (Hover.mkRound C C) 20 /\
    Hover.historyB o = repeat (Hover.mkRound C C) 20 /\
    Hover.scoreA o = 20 * PD.R /\ Hover.scoreA o = 60 /\
    Hover.scoreB o = 20 * PD.R /\ Hover.scoreB o = 60.
Proof.
  intros sa sb g o. subst o. unfold Hover.runIteratedMatch.
  rewrite pavlov_loop by (left; reflexivity).
  cbn. repeat split.
Qed.

(** ** The adaptive agent's decision *)

Section AdaptiveDecision.
Import Hover.

(** Called on a history, [adaptiveDecision] samples with [p_afterC] when
    the history is empty and otherwise with the probability keyed by the
    [opp] field of the last record of that history. *)
Lemma adaptiveDecision_empty pol :
  adaptiveDecision pol [] = sample (p_afterC pol).
Proof. reflexivity. Qed.

Lemma adaptiveDecision_last pol h r :
  adaptiveDecision pol (h ++ [r])
  = sample (if move_eqb (opp r) C then p_afterC pol else p_afterD pol).
Proof. unfold adaptiveDecision. rewrite last_snoc. reflexivity. Qed.

(** [decideMove] hands an adaptive agent the opponent's history. *)
Lemma decideMove_adaptive pol sc h oppH :
  decideMove (mkAgent (Adaptive pol) sc) h oppH = adaptiveDecision pol oppH.
Proof. reflexivity. Qed.

(** In the match runner the two histories mirror each other, so the
    [opp] field the adaptive agent reads is its own previous move. *)
Lemma decideMove_adaptive_own_move pol sc h oppH ownPrev oppPrev :
  decideMove (mkAgent (Adaptive pol) sc)
             (h ++ [mkRound ownPrev oppPrev]) (oppH ++ [mkRound oppPrev ownPrev])
  = sample (if move_eqb ownPrev C then p_afterC pol else p_afterD pol).
Proof. rewrite decideMove_adaptive. apply adaptiveDecision_last. Qed.

(** The match runner keeps the two histories mirror images of each
    other. *)
Lemma matchRound_mirrored A B o g :
  historyB o = map mirror (history o) ->
  historyB (fst (matchRound A B o g))
  = map mirror (history (fst (matchRound A B o g))).
Proof.
  intros H. unfold matchRound, bind, ret.
  destruct (decideMove A (history o) (historyB o) g) as [aMove g1].
  destruct (decideMove B (historyB o) (history o) g1) as [bMove g2].
  cbn. rewrite map_app, H. reflexivity.
Qed.

Lemma matchLoop_mirrored k A B o g :
  historyB o = map mirror (history o) ->
  historyB (fst (matchLoop k A B o g))
  = map mirror (history (fst (matchLoop k A B o g))).
Proof.
  revert o g. induction k as [|k IH]; intros o g H; cbn [matchLoop].
  - exact H.
  - unfold bind at 1 2.
    pose proof (matchRound_mirrored A B o g H) as H1.
    destruct (matchRound A B o g) as [o1 g1]. apply IH. exact H1.
Qed.

(** So from round 1 on, whoever the opponent is, the adaptive agent on
    side A samples with the probability keyed by the [me] field of its own
    last record. *)
Lemma adaptive_in_match_own_move pol sc o r h :
  historyB o = map mirror (history o) ->
  history o = h ++ [r] ->
  decideMove (mkAgent (Adaptive pol) sc) (history o) (historyB o)
  = sample (if move_eqb (me r) C then p_afterC pol else p_afterD pol).
Proof.
  intros Hm Hh. rewrite Hm, Hh, map_app. cbn [map].
  rewrite decideMove_adaptive. unfold mirror. apply adaptiveDecision_last.
Qed.
End AdaptiveDecision.

(** C3 (evaluation of the code at the failing input): an adaptive agent
    with p_afterC = 0.54 and p_afterD = 0.46 meets Always Defect while
    every draw of the random source is 0.5.  It cooperates in round 0 and
    the opponent defects.  In round 1 [decideMove] samples with p_afterC,
    the probability keyed by the agent's own previous move, and returns C;
    the probability keyed by the opponent's previous move is p_afterD, with
    which the same draw gives D.  The agent goes on cooperating for all 20
    rounds. *)
Theorem adaptive_decision_keyed_by_own_move :
  let pol := Hover.mkPolicy (54 # 100) (46 # 100) in
  let A := Hover.mkAgent (Hover.Adaptive pol) 0 in
  let B := Hover.mkAgent (Hover.Classic Hover.D_ALWAYS) 0 in
  let g := mkRng (fun _ => 1 # 2) 0 in
  let r0 := Hover.matchRound A B (Hover.mkOutcome [] [] 0 0) g in
  let o1 := fst r0 in
  let g1 := snd r0 in
  Hover.history o1 = [Hover.mkRound C D] /\
  Hover.decideMove A (Hover.history o1) (Hover.historyB o1) g1
    = sample (Hover.p_afterC pol) g1 /\
  fst (Hover.decideMove A (Hover.history o1) (Hover.historyB o1) g1) = C /\
  fst (sample (Hover.p_afterD pol) g1) = D /\
  fst (Hover.adaptiveDecision pol (Hover.history o1) g1) = D /\
  Hover.history (fst (Hover.runIteratedMatch A B g)) = repeat (Hover.mkRound C D) 20.
Proof. vm_compute. repeat split. Qed.

(** ** Learning keeps the policy inside its band *)

Section PolicyBand.
Import Hover.

Lemma jitter_inBand p u : inBand (jitter p u).
Proof.
  unfold jitter, inBand. split.
  - apply Q.min_glb.
    + discriminate.
    + apply Q.le_max_l.
  - apply Q.le_min_l.
Qed.

(** The closing clamp alone puts both probabilities in the band. *)
Lemma adapt_lands_in_band pol matches g :
  policyInBand (fst (adaptAgentAfterMatch pol matches g)).
Proof.
  unfold adaptAgentAfterMatch, bind, ret. cbn.
  split; apply jitter_inBand.
Qed.
End PolicyBand.

(** C6: a post-match update (nudge, clamp, jitter) of an adaptive agent
    whose two probabilities lie in [0.01, 0.99] leaves both in
    [0.01, 0.99], whatever the match record and the random draws. *)
Theorem adapt_preserves_band :
  forall pol matches g,
    Hover.policyInBand pol ->
    Hover.policyInBand (fst (Hover.adaptAgentAfterMatch pol matches g)).
Proof.
  intros pol matches g _. apply adapt_lands_in_band.
Qed.

Lemma adapt_preserves_band_witness :
  let pol := Hover.mkPolicy (54 # 100) (46 # 100) in
  let matches := [Hover.mkRound C D; Hover.mkRound D D; Hover.mkRound D C] in
  let g := mkRng (fun k => Z.of_nat k # 7) 3 in
  Hover.policyInBand pol /\
  Hover.policyInBand (fst (Hover.adaptAgentAfterMatch pol matches g)).
Proof.
  intros pol matches g.
  assert (H : Hover.policyInBand pol) by (repeat split; discriminate).
  split; [exact H | exact (adapt_preserves_band pol matches g H)].
Defined.

(** ** The scheduler never pairs an agent with itself *)

Section DistinctPair.

Lemma redraw_differs fuel n i j g j' g' :
  Hover.redraw fuel n i j g = Some (j', g') -> j' <> i.
Proof.
  revert j g. induction fuel as [|f IH]; intros j g; cbn [Hover.redraw].
  - destruct (Nat.eqb_spec j i); [discriminate|].
    intros [= <- _]. assumption.
  - destruct (Nat.eqb_spec j i).
    + destruct (randomIndex n g) as [j1 g1]. apply IH.
    + intros [= <- _]. assumption.
Qed.

Lemma pickPair_distinct fuel n g i j g' :
  Hover.pickPair fuel n g = Some (i, j, g') -> i <> j.
Proof.
  unfold Hover.pickPair.
  destruct (randomIndex n g) as [i0 g1].
  destruct (randomIndex n g1) as [j0 g2].
  destruct (Hover.redraw fuel n i0 j0 g2) as [[j1 g3]|] eqn:E; [|discriminate].
  intros [= <- <- _]. apply redraw_differs in E. congruence.
Qed.

Lemma existsb_eqb_false idx (l : list nat) :
  existsb (Nat.eqb idx) l = false -> idx ∉ l.
Proof.
  intros H Hin. apply list_elem_of_In in Hin.
  assert (existsb (Nat.eqb idx) l = true) as E.
  { apply existsb_exists. exists idx. split; [assumption|apply Nat.eqb_refl]. }
  congruence.
Qed.

(** The drawing loop only ever appends an index that is not in the list
    yet, and stops as soon as the list has two entries. *)
Lemma pickIndices_NoDup fuel n indices g res g' :
  NoDup indices -> (length indices <= 2)%nat ->
  Fishbowl.pickIndices fuel n indices g = Some (res, g') ->
  NoDup res /\ length res = 2%nat.
Proof.
  revert indices g. induction fuel as [|f IH]; intros indices g Hnd Hlen;
    cbn [Fishbowl.pickIndices].
  - destruct (Nat.ltb_spec (length indices) 2); [discriminate|].
    intros [= <- _]. split; [assumption|lia].
  - destruct (Nat.ltb_spec (length indices) 2).
    + destruct (randomIndex n g) as [idx g1].
      destruct (existsb (Nat.eqb idx) indices) eqn:E.
      * apply IH; assumption.
      * apply IH.
        -- apply NoDup_app. split; [assumption|]. split.
           ++ intros x Hx Hx'. apply list_elem_of_singleton in Hx'. subst x.
              apply existsb_eqb_false in E. contradiction.
           ++ apply NoDup_singleton.
        -- rewrite length_app. simpl. lia.
    + intros [= <- _]. split; [assumption|lia].
Qed.

Lemma pickIndices_distinct fuel n g idxA idxB rest g' :
  Fishbowl.pickIndices fuel n [] g = Some (idxA :: idxB :: rest, g') ->
  idxA <> idxB /\ rest = [].
Proof.
  intros H. apply pickIndices_NoDup in H; [|constructor|simpl; lia].
  destruct H as [Hnd Hlen]. split.
  - apply NoDup_cons in Hnd as [Hnotin _]. intros ->.
    apply Hnotin. left.
  - destruct rest; [reflexivity|discriminate].
Qed.

End DistinctPair.

(** C7: in a scheduler tick the two indices selected for the match are
    distinct, whatever the random draws: both for the redraw loop of the
    hover component and for the drawing loop of the fishbowl component,
    which ends with exactly two indices. *)
Theorem scheduler_pair_distinct :
  forall fuel n g,
    (forall i j g', Hover.pickPair fuel n g = Some (i, j, g') -> i <> j) /\
    (forall idxA idxB rest g',
        Fishbowl.pickIndices fuel n [] g = Some (idxA :: idxB :: rest, g') ->
        idxA <> idxB /\ rest = []).
Proof.
  intros fuel n g. split.
  - intros i j g'. apply pickPair_distinct.
  - intros idxA idxB rest g'. apply pickIndices_distinct.
Qed.

Lemma scheduler_pair_distinct_witness :
  let g := mkRng (fun k => match k with
                           | O => 35 # 100
                           | Datatypes.S O => 31 # 100
                           | _ => 72 # 100
                           end) 0 in
  let g' := mkRng (draws g) 3 in
  Hover.pickPair 5 10 g = Some (3%nat, 7%nat, g') /\
  Fishbowl.pickIndices 5 10 [] g = Some ([3%nat; 7%nat], g') /\
  3%nat <> 7%nat /\ (3%nat <> 7%nat /\ @nil nat = []).
Proof.
  intros g g'.
  assert (HA : Hover.pickPair 5 10 g = Some (3%nat, 7%nat, g')) by reflexivity.
  assert (HB : Fishbowl.pickIndices 5 10 [] g = Some ([3%nat; 7%nat], g'))
    by reflexivity.
  split; [exact HA|]. split; [exact HB|]. split.
  - exact (proj1 (scheduler_pair_distinct 5 10 g) _ _ _ HA).
  - exact (proj2 (scheduler_pair_distinct 5 10 g) _ _ _ _ HB).
Defined.

(** ** Reset at the start of a run *)

Lemma resetScores_zero agents :
  Forall (fun a => Hover.score a = 0) (Hover.resetScores agents).
Proof.
  unfold Hover.resetScores. apply Forall_forall. intros a Ha.
  apply list_elem_of_fmap in Ha as [b [-> _]]. reflexivity.
Qed.

Lemma resetAgents_zero prev :
  Forall (fun a => Fishbowl.score a = 0) (Fishbowl.resetAgents prev).
Proof.
  unfold Fishbowl.resetAgents. induction prev as [|a prev IH]; simpl.
  - constructor.
  - constructor; [reflexivity|exact IH].
Qed.

(** C8: the reset performed when a run starts leaves every agent of the
    roster with score 0, whatever its strategy and its score before; the
    roster keeps its agents (same length, same strategies in the same
    order). *)
Theorem reset_zeroes_scores :
  forall (hoverAgents : list Hover.Agent) (g : Rng) (s : Fishbowl.Sim),
    Fishbowl.running s = false ->
    (Forall (fun a => Hover.score a = 0)
            (Hover.localAgents (Hover.startSimulation hoverAgents g)) /\
     map Hover.brain (Hover.localAgents (Hover.startSimulation hoverAgents g))
     = map Hover.brain hoverAgents) /\
    (Forall (fun a => Fishbowl.score a = 0)
            (Fishbowl.agents (Fishbowl.startSimulation s)) /\
     map Fishbowl.strategy (Fishbowl.agents (Fishbowl.startSimulation s))
     = map Fishbowl.strategy (Fishbowl.agents s)).
Proof.
  intros hoverAgents g s Hstopped. split; split.
  - apply resetScores_zero.
  - cbn. unfold Hover.resetScores. rewrite map_map. reflexivity.
  - unfold Fishbowl.startSimulation. rewrite Hstopped. cbn.
    apply resetAgents_zero.
  - unfold Fishbowl.startSimulation. rewrite Hstopped. cbn.
    unfold Fishbowl.resetAgents. rewrite map_map. reflexivity.
Qed.

(** ** The Q-learner's exploitation branch *)

Section Exploit.
Import Fishbowl.

Lemma exploit_cooperates_iff t state :
  exploit t state = C
  <-> (qValue t (state +:+ "_D") < qValue t (state +:+ "_C"))%Q.
Proof.
  unfold exploit, Qgtb. rewrite <- Qltb_lt.
  destruct (Qltb _ _); split; congruence.
Qed.

Lemma exploit_tie_defects t state :
  (qValue t (state +:+ "_C") == qValue t (state +:+ "_D"))%Q ->
  exploit t state = D.
Proof.
  intros E. destruct (exploit t state) eqn:X; [|reflexivity].
  apply exploit_cooperates_iff in X. rewrite E in X.
  exfalso. exact (Qlt_irrefl _ X).
Qed.

Lemma exploit_unseen_defects t state :
  t !! (state +:+ "_C") = None -> t !! (state +:+ "_D") = None ->
  exploit t state = D.
Proof.
  intros HC HD. apply exploit_tie_defects. unfold qValue.
  rewrite HC, HD. reflexivity.
Qed.

(** The state key of a history given as its last min(3, rounds) rounds
    [recent] and the rounds before them. *)
Lemma getState_recent (older recent : list Round) :
  (length recent <= 3)%nat ->
  older = [] \/ length recent = 3%nat ->
  getState (older ++ recent)
  = match recent with [] => "start" | _ => opponentKey recent end.
Proof.
  intros Hlen Hsplit. unfold getState, lastN.
  assert (Hdrop : drop (length (older ++ recent) - 3) (older ++ recent) = recent).
  { destruct Hsplit as [->|H3].
    - cbn [app]. replace (length recent - 3)%nat with 0%nat by lia. reflexivity.
    - rewrite length_app, H3.
      replace (length older + 3 - 3)%nat with (length older) by lia.
      apply drop_app_length. }
  rewrite Hdrop. destruct recent as [|r recent].
  - destruct Hsplit as [->|H3]; [reflexivity|discriminate H3].
  - rewrite length_app. cbn [length].
    replace (length older + Datatypes.S (length recent) =? 0)%nat with false
      by (symmetry; apply Nat.eqb_neq; lia).
    reflexivity.
Qed.

(** When the first draw is not below [epsilon], [Q_LEARNER.fn] takes the
    exploitation branch, consumes that one draw and changes nothing else. *)
Lemma qLearnerFn_exploits h w :
  Qltb (draws (rng w) (cursor (rng w))) epsilon = false ->
  qLearnerFn h w
  = (exploit (qTable w) (getState h),
     withRng w (mkRng (draws (rng w)) (Datatypes.S (cursor (rng w))))).
Proof.
  intros Hu. unfold qLearnerFn, bind, random, Math_random. rewrite Hu.
  reflexivity.
Qed.
End Exploit.

(** C9: when the Q-learner does not explore (its first draw is not below
    0.1), its decision is C exactly when the value the table stores under
    the key of (state, C) is strictly greater than the one stored under
    the key of (state, D), a missing entry counting as 0; on a tie it is
    D, in particular in a state for which the table has no entry.  The
    state is "start" before the first round and otherwise the string of
    the opponent's moves in the last min(3, rounds) rounds, [recent]; the
    two keys are the state followed by "_C" and by "_D". *)
Theorem qlearner_exploit_decision :
  forall (older recent : list Fishbowl.Round) (w : Fishbowl.World),
    Qltb (draws (Fishbowl.rng w) (cursor (Fishbowl.rng w))) Fishbowl.epsilon = false ->
    (length recent <= 3)%nat ->
    older = [] \/ length recent = 3%nat ->
    let letter (m : Move) : string := match m with C => "C" | D => "D" end in
    let state : string :=
      match recent with
      | [] => "start"
      | _ => String.concat "" (map (fun r => letter (Fishbowl.opponent r)) recent)
      end in
    let stored (suffix : string) : Q :=
      match Fishbowl.qTable w !! (state +:+ suffix) with
      | Some v => v
      | None => 0%Q
      end in
    let m := fst (Fishbowl.qLearnerFn (older ++ recent) w) in
    (m = C <-> (stored "_D" < stored "_C")%Q) /\
    ((stored "_C" == stored "_D")%Q -> m = D) /\
    (Fishbowl.qTable w !! (state +:+ "_C") = None ->
     Fishbowl.qTable w !! (state +:+ "_D") = None -> m = D).
Proof.
  intros older recent w Hu Hlen Hsplit letter state stored m. subst m.
  rewrite (qLearnerFn_exploits _ w Hu). cbn [fst].
  rewrite (getState_recent older recent Hlen Hsplit).
  change (match recent with
          | [] => "start"
          | _ :: _ => Fishbowl.opponentKey recent
          end) with state.
  split; [apply exploit_cooperates_iff|].
  split; [apply exploit_tie_defects|apply exploit_unseen_defects].
Qed.

Lemma qlearner_exploit_decision_witness :
  let h := [Fishbowl.mkRound C C 3; Fishbowl.mkRound C D 0] in
  let t : gmap string Q := <["CD_C" := 3 # 10]> (<["CD_D" := 1 # 10]> ∅) in
  let g := mkRng (fun _ => 1 # 2) 0 in
  let w := Fishbowl.mkWorld g t ∅ Fishbowl.initialMeta in
  let unseen := Fishbowl.mkWorld g ∅ ∅ Fishbowl.initialMeta in
  fst (Fishbowl.qLearnerFn h w) = C /\
  fst (Fishbowl.qLearnerFn h unseen) = D.
Proof.
  intros h t g w unseen. split.
  - apply (proj1 (qlearner_exploit_decision [] h w eq_refl
                    ltac:(cbn; lia) (or_introl eq_refl))).
    reflexivity.
  - apply (proj2 (proj2 (qlearner_exploit_decision [] h unseen eq_refl
                           ltac:(cbn; lia) (or_introl eq_refl))));
      reflexivity.
Defined.

Lemma reset_zeroes_scores_witness :
  let hoverAgents :=
    [Hover.mkAgent (Hover.Classic Hover.TFT) 57;
     Hover.mkAgent (Hover.Adaptive (Hover.mkPolicy (1 # 2) (1 # 2))) 31] in
  let g := mkRng (fun _ => 1 # 2) 0 in
  let s := Fishbowl.mkSim
             [Fishbowl.mkAgent (Fishbowl.Classic Fishbowl.GRIM) 60 [] [];
              Fishbowl.mkAgent (Fishbowl.Adaptive Fishbowl.Q_LEARNER) 44 [] []]
             (Fishbowl.initialWorld g) 501 false 501 in
  Fishbowl.running s = false /\
  Forall (fun a => Fishbowl.score a = 0)
         (Fishbowl.agents (Fishbowl.startSimulation s)).
Proof.
  intros hoverAgents g s.
  split; [reflexivity|].
  exact (proj1 (proj2 (reset_zeroes_scores hoverAgents g s eq_refl))).
Defined.

(** ** A run stops by itself *)

Section BoundedRun.
Import Fishbowl.

Lemma matchUpdater_count fuel ags w ags' w' k :
  matchUpdater fuel ags w = Some (ags', w', k) -> (k <= 1)%nat.
Proof.
  unfold matchUpdater. intros H.
  repeat case_match; simplify_eq; lia.
Qed.

Lemma startSimulation_invariant s0 :
  running s0 = false -> runInvariant (startSimulation s0).
Proof.
  intros H. unfold startSimulation. rewrite H.
  unfold runInvariant. cbn. repeat split; lia.
Qed.

Lemma runOneMatch_tick fuel s s' :
  runOneMatch fuel s = Some s' ->
  currentTick s' = Datatypes.S (currentTick s) /\
  (played s' <= played s + 1)%nat /\
  running s' = (if (500 <? Datatypes.S (currentTick s))%nat
                then false else running s).
Proof.
  unfold runOneMatch.
  destruct (matchUpdater fuel (agents s) (world s)) as [[[ags w] k]|] eqn:E;
    [|discriminate].
  intros [= <-]. cbn. apply matchUpdater_count in E.
  repeat split; lia.
Qed.

Lemma schedulerStep_invariant fuel s s' :
  runInvariant s -> schedulerStep fuel s = Some s' -> runInvariant s'.
Proof.
  intros (Hp & Ht & Hr). unfold schedulerStep.
  destruct (running s) eqn:Erun.
  - intros H. apply runOneMatch_tick in H as (Htick & Hplayed & Hrun).
    symmetry in Hr. apply Nat.leb_le in Hr.
    unfold runInvariant. rewrite Htick, Hrun.
    repeat split; try lia.
    rewrite Erun.
    destruct (Nat.ltb_spec 500 (Datatypes.S (currentTick s)));
      destruct (Nat.leb_spec (Datatypes.S (currentTick s)) 500);
      try reflexivity; lia.
  - intros [= <-]. unfold runInvariant. rewrite Erun. auto.
Qed.

Lemma reachable_invariant s0 s :
  running s0 = false -> reachable s0 s -> runInvariant s.
Proof.
  intros H0 Hreach. induction Hreach as [|fuel s s' _ IH Hstep].
  - apply startSimulation_invariant; assumption.
  - eapply schedulerStep_invariant; eassumption.
Qed.
End BoundedRun.

(** C10: a run stops by itself.  In every state of a run started from a
    stopped simulation at most 501 matches have been played; once the tick
    counter exceeds 500 the run is stopped; a stopped run plays no further
    match (the scheduler leaves the state as it is); and while the run is
    not stopped every completed tick advances the counter by one, so the
    501st tick stops it. *)
Theorem run_stops_after_501_matches :
  forall s0 s,
    Fishbowl.running s0 = false ->
    Fishbowl.reachable s0 s ->
    (Fishbowl.played s <= 501)%nat /\
    ((500 < Fishbowl.currentTick s)%nat -> Fishbowl.running s = false) /\
    (Fishbowl.running s = false ->
     forall fuel, Fishbowl.schedulerStep fuel s = Some s) /\
    (Fishbowl.running s = true ->
     forall fuel s', Fishbowl.schedulerStep fuel s = Some s' ->
       Fishbowl.currentTick s' = Datatypes.S (Fishbowl.currentTick s) /\
       (Fishbowl.currentTick s = 500%nat -> Fishbowl.running s' = false)).
Proof.
  intros s0 s H0 Hreach.
  destruct (reachable_invariant s0 s H0 Hreach) as (Hp & Ht & Hr).
  split; [lia|]. split; [|split].
  - intros Hgt. rewrite Hr. apply Nat.leb_gt. lia.
  - intros Hstop fuel. unfold Fishbowl.schedulerStep. rewrite Hstop. reflexivity.
  - intros Hrun fuel s' Hstep. unfold Fishbowl.schedulerStep in Hstep.
    rewrite Hrun in Hstep.
    apply runOneMatch_tick in Hstep as (Htick & _ & Hrun').
    split; [assumption|]. intros E. rewrite Hrun', E. reflexivity.
Qed.

(** ** The meta-strategist's evaluation *)

Section MetaEvaluation.
Import Fishbowl.

(** The evaluation guard holds at no history length below 20, so not at
    round index 10. *)
Lemma evaluationDue_below_20 (h : list Round) :
  (length h < 20)%nat -> evaluationDue h = false.
Proof.
  unfold evaluationDue. generalize (length h) as n. intros n Hn.
  do 20 (destruct n as [|n]; [reflexivity|]). lia.
Qed.

(** It holds at 20, 30, ...: the multiples of 10 above 10. *)
Lemma evaluationDue_iff (h : list Round) :
  evaluationDue h = true
  <-> exists k, (2 <= k)%nat /\ length h = (10 * k)%nat.
Proof.
  unfold evaluationDue. rewrite andb_true_iff, Nat.ltb_lt, Nat.eqb_eq.
  split.
  - intros [Hgt Hmod]. exists (length h / 10)%nat.
    pose proof (Nat.div_mod_eq (length h) 10) as E. split; lia.
  - intros (k & Hk & ->). split; [lia|].
    rewrite Nat.mul_comm. apply Nat.Div0.mod_mul.
Qed.

Lemma world_eta w : mkWorld (rng w) (qTable w) (patterns w) (meta w) = w.
Proof. destruct w; reflexivity. Qed.

(** Without a due evaluation [META_STRATEGY.fn] only executes the
    current sub-strategy. *)
Lemma metaFn_not_due h w :
  evaluationDue h = false ->
  metaFn h w = (execute (currentStrategy (meta w)) h, w).
Proof.
  intros E. unfold metaFn, bind, getWorld, setMeta, ret. rewrite E.
  cbn. rewrite world_eta. reflexivity.
Qed.

(** With a due evaluation it first moves to [evaluate]'s choice. *)
Lemma metaFn_due h w :
  evaluationDue h = true ->
  currentStrategy (meta (snd (metaFn h w))) = evaluate (meta w) /\
  fst (metaFn h w) = execute (evaluate (meta w)) h.
Proof.
  intros E. unfold metaFn, bind, getWorld, setMeta, ret. rewrite E.
  cbn. split; reflexivity.
Qed.
End MetaEvaluation.

(** The guard at round index 10, on statistics built by hand (they do
    not occur in a run, where only the current sub-strategy has recorded
    rounds): the meta-strategist is on TFT with average payoff 1 over 10
    rounds while its sub-strategy D has average 5 over 10 rounds.  The
    evaluation would move to D, but its guard is false at length 10, so
    [fn] leaves currentStrategy on TFT and answers with TFT's move. *)
Example guard_false_at_round_10 :
  let h := repeat (Fishbowl.mkRound C C 3) 10 in
  let stats (forTFT forD : Z) (s : Fishbowl.SubStrategy) : Z :=
    match s with
    | Fishbowl.SubTFT => forTFT
    | Fishbowl.SubD => forD
    | _ => 0
    end in
  let m := Fishbowl.mkMeta (stats 10 50) (stats 10 10) Fishbowl.SubTFT in
  let w := Fishbowl.mkWorld (mkRng (fun _ => 1 # 2) 0) ∅ ∅ m in
  length h = 10%nat /\
  Fishbowl.evaluationDue h = false /\
  Fishbowl.evaluate m = Fishbowl.SubD /\
  Fishbowl.currentStrategy (Fishbowl.meta (snd (Fishbowl.metaFn h w)))
    = Fishbowl.SubTFT /\
  fst (Fishbowl.metaFn h w) = C.
Proof. vm_compute. repeat split. Qed.

Lemma run_stops_after_501_matches_witness :
  let g := mkRng (fun k => ((Z.of_nat k * 7919 + 13) mod 1009) # 1009) 0 in
  let s0 := Fishbowl.mkSim Fishbowl.initialAgents (Fishbowl.initialWorld g)
                           0 false 0 in
  exists s,
    Fishbowl.running s0 = false /\
    Fishbowl.schedulerStep 50 (Fishbowl.startSimulation s0) = Some s /\
    Fishbowl.played s = 1%nat /\
    (Fishbowl.played s <= 501)%nat.
Proof.
  intros g s0.
  destruct (Fishbowl.schedulerStep 50 (Fishbowl.startSimulation s0))
    as [s|] eqn:E; [|vm_compute in E; discriminate].
  exists s.
  assert (Hreach : Fishbowl.reachable s0 s).
  { eapply Fishbowl.reach_step; [apply Fishbowl.reach_start|exact E]. }
  split; [reflexivity|]. split; [reflexivity|]. split.
  - vm_compute in E. injection E as <-. reflexivity.
  - exact (proj1 (run_stops_after_501_matches s0 s eq_refl Hreach)).
Defined.

(** ** The meta-strategist inside the match runner *)

Section MetaInMatch.
Import Fishbowl.

Lemma keeps_ret {A} (a : A) (post : A -> Prop) : post a -> keeps (ret a) post.
Proof. intros H w. split; [reflexivity|exact H]. Qed.

Lemma keeps_bind {A B} (m : State World A) (k : A -> State World B)
      (mid : A -> Prop) (post : B -> Prop) :
  keeps m mid -> (forall a, mid a -> keeps (k a) post) -> keeps (bind m k) post.
Proof.
  intros Hm Hk w. unfold bind.
  destruct (Hm w) as [Hcur Hmid]. destruct (m w) as [a w1]. cbn in *.
  destruct (Hk a Hmid w1) as [Hcur' Hpost]. split; [congruence|assumption].
Qed.

Lemma keeps_weaken {A} (m : State World A) (post post' : A -> Prop) :
  keeps m post -> (forall a, post a -> post' a) -> keeps m post'.
Proof. intros H Himp w. destruct (H w). split; auto. Qed.

Lemma keeps_random : keeps random anything.
Proof. intros w. split; [reflexivity|exact I]. Qed.

Lemma keeps_getWorld : keeps getWorld anything.
Proof. intros w. split; [reflexivity|exact I]. Qed.

Lemma keeps_setQTable t : keeps (setQTable t) anything.
Proof. intros w. split; [reflexivity|exact I]. Qed.

Lemma keeps_setPatterns p : keeps (setPatterns p) anything.
Proof. intros w. split; [reflexivity|exact I]. Qed.

Ltac keeps_step :=
  first
    [ apply keeps_ret; exact I
    | apply keeps_random
    | apply keeps_getWorld
    | apply keeps_setQTable
    | apply keeps_setPatterns
    | eapply keeps_bind; [|intros ? _] ].

Lemma keeps_classicFn id h : keeps (classicFn id h) anything.
Proof.
  destruct id; cbn [classicFn]; repeat case_match; repeat keeps_step.
Qed.

Lemma keeps_qLearnerFn h : keeps (qLearnerFn h) anything.
Proof.
  unfold qLearnerFn. eapply keeps_bind; [apply keeps_random|].
  intros u _. case_match; repeat keeps_step.
Qed.

Lemma keeps_patternFn h : keeps (patternFn h) anything.
Proof. unfold patternFn. case_match; repeat keeps_step. Qed.

Lemma keeps_metaFn h :
  (length h < 20)%nat -> keeps (metaFn h) anything.
Proof.
  intros Hlen w. rewrite metaFn_not_due by (apply evaluationDue_below_20, Hlen).
  split; [reflexivity|exact I].
Qed.

Lemma keeps_strategyFn s h mh :
  (length h < 20)%nat -> keeps (strategyFn s h mh) anything.
Proof.
  intros Hlen. destruct s as [id|[]]; cbn [strategyFn].
  - apply keeps_classicFn.
  - apply keeps_qLearnerFn.
  - apply keeps_ret. exact I.
  - apply keeps_patternFn.
  - apply keeps_metaFn, Hlen.
Qed.

Lemma keeps_learnQ a h mv pay : keeps (learnQ a h mv pay) anything.
Proof.
  unfold learnQ, updateQ. repeat case_match; repeat keeps_step.
Qed.

Lemma keeps_learnPatterns a h : keeps (learnPatterns a h) anything.
Proof.
  unfold learnPatterns, updatePatterns. repeat case_match; repeat keeps_step.
Qed.

(** [updatePerformance] adds to the running statistics only. *)
Lemma keeps_learnPerformance a pay : keeps (learnPerformance a pay) anything.
Proof.
  unfold learnPerformance.
  repeat case_match; intros w; (split; [reflexivity|exact I]).
Qed.

Lemma keeps_playRound n st :
  (n < 20)%nat -> roundsPlayed n st ->
  keeps (playRound st) (roundsPlayed (Datatypes.S n)).
Proof.
  intros Hn [HA HB]. destruct st as [[a b] res]. cbn in HA, HB.
  unfold playRound.
  eapply keeps_bind; [apply keeps_strategyFn; lia|]. intros moveA _.
  eapply keeps_bind; [apply keeps_strategyFn; lia|]. intros moveB _.
  destruct (roundPayoffs moveA moveB) as [payoffA payoffB].
  eapply keeps_bind; [apply keeps_learnQ|]. intros _ _.
  eapply keeps_bind; [apply keeps_learnQ|]. intros _ _.
  eapply keeps_bind; [apply keeps_learnPatterns|]. intros _ _.
  eapply keeps_bind; [apply keeps_learnPatterns|]. intros _ _.
  eapply keeps_bind; [apply keeps_learnPerformance|]. intros _ _.
  eapply keeps_bind; [apply keeps_learnPerformance|]. intros _ _.
  apply keeps_ret. split; cbn; rewrite length_app; cbn; lia.
Qed.

Lemma keeps_playLoop k n st :
  (n + k <= 20)%nat -> roundsPlayed n st ->
  keeps (playLoop k st) (roundsPlayed (n + k)).
Proof.
  revert n st. induction k as [|k IH]; intros n st Hle Hst; cbn [playLoop].
  - apply keeps_ret. rewrite Nat.add_0_r. exact Hst.
  - eapply keeps_bind; [apply (keeps_playRound n); [lia|exact Hst]|].
    intros st' Hst'. rewrite <- Nat.add_succ_comm. apply IH; [lia|exact Hst'].
Qed.

(** Whatever the two agents, the world and the draws, a match leaves the
    meta-strategist on the sub-strategy it started the match with: its
    [fn] is only called with 0 to 19 rounds of history. *)
Lemma playGame_keeps_currentStrategy a b w :
  currentStrategy (meta (snd (playGame a b w))) = currentStrategy (meta w).
Proof.
  unfold playGame, ITERATED_LENGTH.
  apply (keeps_playLoop 20 0 (a, b, mkResult 0 0 [] [])); [lia|].
  split; reflexivity.
Qed.
End MetaInMatch.

(** ** What a due evaluation chooses *)

Section EvaluateChoice.
Import Fishbowl.




End EvaluateChoice.

(** ** The meta-strategist over a whole run *)

Section MetaInRun.
Import Fishbowl.

Lemma matchUpdater_keeps_currentStrategy fuel ags w ags' w' k :
  matchUpdater fuel ags w = Some (ags', w', k) ->
  currentStrategy (meta w') = currentStrategy (meta w).
Proof.
  unfold matchUpdater. intros H.
  destruct (length ags <? 2)%nat; [by simplify_eq|].
  destruct (pickIndices fuel (length ags) [] (rng w))
    as [[[|idxA [|idxB rest]] g]|]; try discriminate.
  destruct (ags !! idxA) as [a|]; [|discriminate].
  destruct (ags !! idxB) as [b|]; [|discriminate].
  pose proof (playGame_keeps_currentStrategy a b (withRng w g)) as Hk.
  destruct (playGame a b (withRng w g)) as [[[agA agB] res] w1].
  simplify_eq. exact Hk.
Qed.

(** Over a whole run the meta-strategist stays on the sub-strategy it had
    when the run started (["TFT"] for the initial object). *)
Lemma run_keeps_currentStrategy s0 s :
  reachable s0 s ->
  currentStrategy (meta (world s)) = currentStrategy (meta (world s0)).
Proof.
  intros Hreach. induction Hreach as [|fuel s s' _ IH Hstep].
  - unfold startSimulation. destruct (running s0); reflexivity.
  - rewrite <- IH. unfold schedulerStep in Hstep.
    destruct (running s); [|by simplify_eq].
    unfold runOneMatch in Hstep.
    destruct (matchUpdater fuel (agents s) (world s)) as [[[ags w] k]|] eqn:E;
      [|discriminate].
    simplify_eq. cbn. eapply matchUpdater_keeps_currentStrategy, E.
Qed.
End MetaInRun.

(** ** A complete run *)

(** A run of a roster of three classic agents on a fixed stream of draws:
    after 500 ticks it is still running, the 501st tick stops it with 501
    matches played, and further timer firings change nothing. *)
Example complete_run :
  let g := mkRng (fun k => ((Z.of_nat k * 7919 + 13) mod 1009) # 1009) 0 in
  let s0 := Fishbowl.mkSim (take 3 Fishbowl.initialAgents)
                           (Fishbowl.initialWorld g) 0 false 0 in
  let summary o :=
    match o with
    | Some s => Some (Fishbowl.currentTick s, Fishbowl.running s, Fishbowl.played s)
    | None => None
    end in
  let after500 := Fishbowl.runTicks 50 500 (Fishbowl.startSimulation s0) in
  let after501 := after500 ≫= Fishbowl.runTicks 50 1 in
  let later := after501 ≫= Fishbowl.runTicks 50 40 in
  summary after500 = Some (500%nat, true, 500%nat) /\
  summary after501 = Some (501%nat, false, 501%nat) /\
  summary later = Some (501%nat, false, 501%nat).
Proof. vm_compute. repeat split. Qed.

(** ** Shape of a match of the hover component *)

Section HoverMatchShape.
Import Hover.

Lemma payoffFor_bounds a b : 0 <= payoffFor a b <= 5.
Proof.
  destruct a, b; unfold payoffFor, PD.R, PD.S, PD.T, PD.P; cbn; lia.
Qed.

Lemma payoffFor_pair_bounds a b : 2 <= payoffFor a b + payoffFor b a <= 6.
Proof.
  destruct a, b; unfold payoffFor, PD.R, PD.S, PD.T, PD.P; cbn; lia.
Qed.

Lemma scoreOf_snoc h r :
  scoreOf (h ++ [r]) = scoreOf h + payoffFor (me r) (opp r).
Proof. induction h as [|x h IH]; cbn [scoreOf app]; lia. Qed.

Lemma scoreOf_bounds h : 0 <= scoreOf h <= 5 * Z.of_nat (length h).
Proof.
  induction h as [|r h IH]; cbn [scoreOf length]; [lia|].
  pose proof (payoffFor_bounds (me r) (opp r)). lia.
Qed.

Lemma scoreOf_pair_bounds h :
  2 * Z.of_nat (length h) <= scoreOf h + scoreOf (map mirror h)
  <= 6 * Z.of_nat (length h).
Proof.
  induction h as [|r h IH]; cbn [scoreOf length map mirror me opp]; [lia|].
  pose proof (payoffFor_pair_bounds (me r) (opp r)). lia.
Qed.

Lemma matchRound_consistent A B n o g :
  consistent n o -> consistent (Datatypes.S n) (fst (matchRound A B o g)).
Proof.
  intros (Hlen & Hmir & HA & HB). unfold matchRound, bind, ret.
  destruct (decideMove A (history o) (historyB o) g) as [aMove g1].
  destruct (decideMove B (historyB o) (history o) g1) as [bMove g2].
  unfold consistent. cbn [fst history historyB scoreA scoreB].
  rewrite !scoreOf_snoc, length_app, map_app, HA, HB, !Hmir. cbn.
  repeat split; try reflexivity; lia.
Qed.

Lemma matchLoop_consistent k A B n o g :
  consistent n o -> consistent (n + k) (fst (matchLoop k A B o g)).
Proof.
  revert n o g. induction k as [|k IH]; intros n o g H; cbn [matchLoop].
  - rewrite Nat.add_0_r. exact H.
  - unfold bind.
    pose proof (matchRound_consistent A B n o g H) as H1.
    destruct (matchRound A B o g) as [o1 g1]. cbn [fst] in H1.
    rewrite <- Nat.add_succ_comm. apply IH. exact H1.
Qed.
End HoverMatchShape.

(** X1: whatever the two agents and the random draws, [runIteratedMatch]
    returns two histories of 20 rounds that mirror each other (each
    record of B is the record of A with [me] and [opp] exchanged). *)
Theorem hover_match_histories_mirror :
  forall A B g,
    let o := fst (Hover.runIteratedMatch A B g) in
    length (Hover.history o) = 20%nat /\
    length (Hover.historyB o) = 20%nat /\
    Hover.historyB o = map Hover.mirror (Hover.history o).
Proof.
  intros A B g o. subst o. unfold Hover.runIteratedMatch, ITERATED_LENGTH.
  destruct (matchLoop_consistent 20 A B 0 (Hover.mkOutcome [] [] 0 0) g)
    as (Hlen & Hmir & _ & _); [repeat split|].
  cbn [Nat.add] in Hlen. rewrite Hmir at 1. rewrite length_map.
  repeat split; assumption.
Qed.

Lemma runIteratedMatch_scores A B g :
  let o := fst (Hover.runIteratedMatch A B g) in
  Hover.scoreA o = Hover.scoreOf (Hover.history o) /\
  Hover.scoreB o = Hover.scoreOf (Hover.historyB o) /\
  0 <= Hover.scoreA o <= 100 /\ 0 <= Hover.scoreB o <= 100 /\
  40 <= Hover.scoreA o + Hover.scoreB o <= 120.
Proof.
  intros o. subst o. unfold Hover.runIteratedMatch, ITERATED_LENGTH.
  destruct (matchLoop_consistent 20 A B 0 (Hover.mkOutcome [] [] 0 0) g)
    as (Hlen & Hmir & HA & HB); [repeat split|].
  cbn [Nat.add] in Hlen.
  set (o := fst (Hover.matchLoop 20 A B (Hover.mkOutcome [] [] 0 0) g)) in *.
  pose proof (scoreOf_bounds (Hover.history o)) as H1.
  pose proof (scoreOf_bounds (Hover.historyB o)) as H2.
  pose proof (scoreOf_pair_bounds (Hover.history o)) as H3.
  rewrite <- Hmir in H3. rewrite Hmir, length_map in H2.
  rewrite Hlen in *. rewrite HA, HB. rewrite Hmir in *.
  repeat split; lia.
Qed.

(** X2: the scores [runIteratedMatch] returns are the sums of the payoffs
    of the rounds of the two histories; each lies between 0 and 100 and
    together they lie between 40 and 120. *)
Theorem hover_match_scores :
  forall A B g,
    let o := fst (Hover.runIteratedMatch A B g) in
    Hover.scoreA o = Hover.scoreOf (Hover.history o) /\
    Hover.scoreB o = Hover.scoreOf (Hover.historyB o) /\
    0 <= Hover.scoreA o <= 100 /\ 0 <= Hover.scoreB o <= 100 /\
    40 <= Hover.scoreA o + Hover.scoreB o <= 120.
Proof. intros A B g. apply runIteratedMatch_scores. Qed.

(** ** The classic strategies of the hover component inside a match *)

Section HoverStrategies.
Import Hover.

Lemma repliesTo_snoc prev h r :
  repliesTo prev h ->
  me r = match last h with None => prev | Some l => opp l end ->
  repliesTo prev (h ++ [r]).
Proof.
  revert prev. induction h as [|x h IH]; intros prev; cbn [repliesTo app].
  - intros _ E. cbn in E. split; [exact E|exact I].
  - intros [Hx Hh] E. split; [exact Hx|]. apply IH; [exact Hh|].
    rewrite last_cons in E. destruct (last h); exact E.
Qed.

Lemma tft_loop_A k sa B o g :
  repliesTo C (history o) ->
  repliesTo C (history (fst (matchLoop k (mkAgent (Classic TFT) sa) B o g))).
Proof.
  revert o g. induction k as [|k IH]; intros o g H; cbn [matchLoop].
  - exact H.
  - unfold bind at 1. unfold matchRound, bind, ret.
    cbn [decideMove brain classicFn].
    destruct (last (history o)) as [l|] eqn:El; unfold ret;
      destruct (decideMove B (historyB o) (history o) g) as [bMove g1];
      apply IH; cbn [history]; apply repliesTo_snoc; try exact H;
      rewrite El; reflexivity.
Qed.

Lemma tft_loop_B k A sb o g :
  repliesTo C (historyB o) ->
  repliesTo C (historyB (fst (matchLoop k A (mkAgent (Classic TFT) sb) o g))).
Proof.
  revert o g. induction k as [|k IH]; intros o g H; cbn [matchLoop].
  - exact H.
  - unfold bind at 1. unfold matchRound, bind, ret.
    destruct (decideMove A (history o) (historyB o) g) as [aMove g1].
    cbn [decideMove brain classicFn].
    destruct (last (historyB o)) as [l|] eqn:El; unfold ret;
      apply IH; cbn [historyB]; apply repliesTo_snoc; try exact H;
      rewrite El; reflexivity.
Qed.

Lemma grimPlay_snoc triggered h r :
  grimPlay triggered h ->
  me r = (if triggered || existsb (fun x => move_eqb (opp x) D) h
          then D else C) ->
  grimPlay triggered (h ++ [r]).
Proof.
  revert triggered. induction h as [|x h IH]; intros triggered;
    cbn [grimPlay app existsb].
  - rewrite orb_false_r. intros _ E. split; [exact E|exact I].
  - intros [Hx Hh] E. split; [exact Hx|]. apply IH; [exact Hh|].
    rewrite <- orb_assoc. exact E.
Qed.

Lemma grim_loop_A k sa B o g :
  grimPlay false (history o) ->
  grimPlay false (history (fst (matchLoop k (mkAgent (Classic GRIM) sa) B o g))).
Proof.
  revert o g. induction k as [|k IH]; intros o g H; cbn [matchLoop].
  - exact H.
  - unfold bind at 1. unfold matchRound, bind, ret.
    cbn [decideMove brain classicFn]. unfold ret.
    destruct (decideMove B (historyB o) (history o) g) as [bMove g1].
    apply IH. cbn [history]. apply grimPlay_snoc; [exact H|reflexivity].
Qed.

Lemma grim_loop_B k A sb o g :
  grimPlay false (historyB o) ->
  grimPlay false (historyB (fst (matchLoop k A (mkAgent (Classic GRIM) sb) o g))).
Proof.
  revert o g. induction k as [|k IH]; intros o g H; cbn [matchLoop].
  - exact H.
  - unfold bind at 1. unfold matchRound, bind, ret.
    destruct (decideMove A (history o) (historyB o) g) as [aMove g1].
    cbn [decideMove brain classicFn]. unfold ret.
    apply IH. cbn [historyB]. apply grimPlay_snoc; [exact H|reflexivity].
Qed.

(** A nice strategy cooperates on a history of mutual cooperation. *)
Lemma allCoop_settled h :
  Forall (fun r => r = mkRound C C) h -> settled h.
Proof.
  induction 1 as [|x h Hx _ IH]; [left; reflexivity|].
  right. rewrite last_cons. destruct IH as [-> | ->]; congruence.
Qed.

Lemma allCoop_no_defection h :
  Forall (fun r => r = mkRound C C) h ->
  existsb (fun x => move_eqb (opp x) D) h = false.
Proof.
  induction 1 as [|x h Hx _ IH]; [reflexivity|].
  cbn [existsb]. rewrite IH, Hx. reflexivity.
Qed.

Lemma nice_cooperates id h g :
  nice id = true -> Forall (fun r => r = mkRound C C) h ->
  classicFn id h g = (C, g).
Proof.
  intros Hn Hh. destruct id; try discriminate; cbn [classicFn].
  - reflexivity.
  - destruct (allCoop_settled h Hh) as [-> | ->]; reflexivity.
  - rewrite (allCoop_no_defection h Hh). reflexivity.
  - apply pavlov_cooperates, allCoop_settled, Hh.
Qed.

Lemma nice_loop k idA idB sa sb o g :
  nice idA = true -> nice idB = true ->
  Forall (fun r => r = mkRound C C) (history o) ->
  Forall (fun r => r = mkRound C C) (historyB o) ->
  matchLoop k (mkAgent (Classic idA) sa) (mkAgent (Classic idB) sb) o g
  = ({| history := history o ++ repeat (mkRound C C) k;
        historyB := historyB o ++ repeat (mkRound C C) k;
        scoreA := scoreA o + 3 * Z.of_nat k;
        scoreB := scoreB o + 3 * Z.of_nat k |}, g).
Proof.
  intros HnA HnB. revert o g.
  induction k as [|k IH]; intros o g HA HB.
  - simpl. unfold ret. destruct o; simpl. rewrite !app_nil_r.
    f_equal. f_equal; lia.
  - cbn [matchLoop]. unfold bind at 1.
    unfold matchRound, bind; cbn [decideMove brain].
    rewrite (nice_cooperates idA _ _ HnA HA), (nice_cooperates idB _ _ HnB HB).
    unfold ret.
    rewrite IH by (cbn [history historyB]; apply Forall_app; split;
                   [assumption|repeat constructor]).
    cbn [history historyB scoreA scoreB].
    rewrite <- !app_assoc. cbn [repeat app].
    change (payoffFor C C) with 3.
    f_equal. f_equal; lia.
Qed.
End HoverStrategies.

(** X3: in a match of the hover component Tit for Tat, on either side and
    against any agent, opens with C and from then on plays in every round
    the move its opponent played in the round before. *)
Theorem hover_tit_for_tat_in_match :
  forall X sc g,
    let tft := Hover.mkAgent (Hover.Classic Hover.TFT) sc in
    Hover.repliesTo C (Hover.history (fst (Hover.runIteratedMatch tft X g))) /\
    Hover.repliesTo C (Hover.historyB (fst (Hover.runIteratedMatch X tft g))).
Proof.
  intros X sc g tft. unfold Hover.runIteratedMatch. split.
  - apply tft_loop_A. exact I.
  - apply tft_loop_B. exact I.
Qed.

(** X4: in a match of the hover component Grim Trigger, on either side
    and against any agent, cooperates up to and including the round in
    which its opponent first defects and defects in every round after
    it. *)
Theorem hover_grim_trigger_in_match :
  forall X sc g,
    let grim := Hover.mkAgent (Hover.Classic Hover.GRIM) sc in
    Hover.grimPlay false (Hover.history (fst (Hover.runIteratedMatch grim X g))) /\
    Hover.grimPlay false (Hover.historyB (fst (Hover.runIteratedMatch X grim g))).
Proof.
  intros X sc g grim. unfold Hover.runIteratedMatch. split.
  - apply grim_loop_A. exact I.
  - apply grim_loop_B. exact I.
Qed.

(** X5: a match of the hover component between any two of Always
    Cooperate, Tit for Tat, Grim Trigger and Pavlov is mutual cooperation
    in all 20 rounds, both scores are 60, and no random draw is used. *)
Theorem hover_nice_pair_match :
  forall idA idB sa sb g,
    Hover.nice idA = true -> Hover.nice idB = true ->
    Hover.runIteratedMatch (Hover.mkAgent (Hover.Classic idA) sa)
                           (Hover.mkAgent (Hover.Classic idB) sb) g
    = ({| Hover.history := repeat (Hover.mkRound C C) 20;
          Hover.historyB := repeat (Hover.mkRound C C) 20;
          Hover.scoreA := 60;
          Hover.scoreB := 60 |}, g).
Proof.
  intros idA idB sa sb g HA HB. unfold Hover.runIteratedMatch.
  rewrite (nice_loop _ idA idB) by (assumption || constructor).
  reflexivity.
Qed.

Lemma hover_nice_pair_match_witness :
  fst (Hover.runIteratedMatch
         (Hover.mkAgent (Hover.Classic Hover.GRIM) 7)
         (Hover.mkAgent (Hover.Classic Hover.TFT) 9)
         (mkRng (fun _ => 1 # 3) 0))
  = {| Hover.history := repeat (Hover.mkRound C C) 20;
       Hover.historyB := repeat (Hover.mkRound C C) 20;
       Hover.scoreA := 60;
       Hover.scoreB := 60 |}.
Proof.
  rewrite (hover_nice_pair_match Hover.GRIM Hover.TFT 7 9 _ eq_refl eq_refl).
  reflexivity.
Defined.

(** ** Learning steps of the adaptive agent *)

Ltac qcases :=
  repeat match goal with
  | |- context [Qmin ?a ?b] =>
      let m := fresh "m" in
      destruct (Q.min_spec a b) as [[? ?]|[? ?]];
      set (m := Qmin a b) in *; clearbody m
  | |- context [Qmax ?a ?b] =>
      let m := fresh "m" in
      destruct (Q.max_spec a b) as [[? ?]|[? ?]];
      set (m := Qmax a b) in *; clearbody m
  | H : context [Qmin ?a ?b] |- _ =>
      let m := fresh "m" in
      destruct (Q.min_spec a b) as [[? ?]|[? ?]];
      set (m := Qmin a b) in *; clearbody m
  | H : context [Qmax ?a ?b] |- _ =>
      let m := fresh "m" in
      destruct (Q.max_spec a b) as [[? ?]|[? ?]];
      set (m := Qmax a b) in *; clearbody m
  end.

Section HoverLearning.
Import Hover.

Lemma inject_Z_pos c : 0 < c -> (0 < inject_Z c)%Q.
Proof. intros H. change 0%Q with (inject_Z 0). rewrite <- Zlt_Qlt. exact H. Qed.

Lemma average_bounds reward count :
  0 <= count -> 0 <= reward <= 5 * count ->
  (0 <= average reward count)%Q /\ (average reward count <= 5)%Q.
Proof.
  intros Hc [H0 H5]. unfold average.
  destruct (Z.eqb_spec count 0) as [->|Hne]; [split; discriminate|].
  assert (Hpos : (0 < inject_Z count)%Q) by (apply inject_Z_pos; lia).
  split.
  - apply Qle_shift_div_l; [assumption|]. rewrite Qmult_0_l.
    change 0%Q with (inject_Z 0). rewrite <- Zle_Qle. lia.
  - apply Qle_shift_div_r; [assumption|]. change 5%Q with (inject_Z 5).
    rewrite <- inject_Z_mult, <- Zle_Qle. lia.
Qed.

Lemma tallyRound_tallied n t r :
  tallied n t -> tallied (n + 1) (tallyRound t r).
Proof.
  intros (Hc & Hd & Hn & HrC & HrD). unfold tallyRound, tallied.
  pose proof (payoffFor_bounds (me r) (opp r)).
  destruct (move_eqb (me r) C); cbn; repeat split; lia.
Qed.

Lemma fold_tallied matches n t :
  tallied n t ->
  tallied (n + Z.of_nat (length matches)) (fold_left tallyRound matches t).
Proof.
  revert n t. induction matches as [|r matches IH]; intros n t H;
    cbn [fold_left length].
  - replace (n + Z.of_nat 0) with n by lia. exact H.
  - replace (n + Z.of_nat (Datatypes.S (length matches)))
      with (n + 1 + Z.of_nat (length matches)) by lia.
    apply IH, tallyRound_tallied, H.
Qed.

Lemma tally_tallied matches :
  tallied (Z.of_nat (length matches)) (tally matches).
Proof.
  unfold tally. apply (fold_tallied matches 0). unfold tallied. cbn. lia.
Qed.

Lemma jitter_close p u :
  inBand p -> (0 <= u)%Q -> (u < 1)%Q -> within (1 # 100) (jitter p u) p.
Proof.
  intros [Hlo Hhi] H0 H1. unfold within, jitter. qcases; split; lra.
Qed.

Lemma nudge_close pol avgC avgD :
  policyInBand pol ->
  (0 <= avgC)%Q -> (avgC <= 5)%Q -> (0 <= avgD)%Q -> (avgD <= 5)%Q ->
  policyInBand (nudge pol avgC avgD) /\
  within (3 # 10) (p_afterC (nudge pol avgC avgD)) (p_afterC pol) /\
  within (3 # 10) (p_afterD (nudge pol avgC avgD)) (p_afterD pol).
Proof.
  intros [[HC0 HC1] [HD0 HD1]] HaC0 HaC1 HaD0 HaD1.
  unfold nudge, policyInBand, inBand, within, lr.
  destruct (Qgtb avgC avgD) eqn:E1; [apply Qltb_lt in E1|apply Qltb_ge in E1].
  - cbn [p_afterC p_afterD]. qcases; repeat split; lra.
  - destruct (Qgtb avgD avgC) eqn:E2; [apply Qltb_lt in E2|].
    + cbn [p_afterC p_afterD]. qcases; repeat split; lra.
    + repeat split; lra.
Qed.

(** The counters of the tally loop are the payoff sums and the numbers of
    the rounds in which the agent cooperated and defected. *)
Lemma fold_tally_rounds matches t :
  fold_left tallyRound matches t
  = mkTally (coopReward t + scoreOf (roundsWith C matches))
            (coopCount t + Z.of_nat (length (roundsWith C matches)))
            (defReward t + scoreOf (roundsWith D matches))
            (defCount t + Z.of_nat (length (roundsWith D matches))).
Proof.
  revert t. induction matches as [|r matches IH]; intros t.
  - destruct t. cbn. f_equal; lia.
  - cbn [fold_left]. rewrite IH. unfold tallyRound, roundsWith.
    cbn [List.filter]. destruct r as [[] o]; cbn; f_equal; lia.
Qed.

Lemma average_earned m matches :
  average (scoreOf (roundsWith m matches))
          (Z.of_nat (length (roundsWith m matches)))
  = earnedWith m matches.
Proof.
  unfold average, earnedWith. destruct (roundsWith m matches); reflexivity.
Qed.

(** The update, with the averages read off the match record. *)
Lemma adaptAgentAfterMatch_earned pol matches g :
  fst (adaptAgentAfterMatch pol matches g)
  = let nudged := nudge pol (earnedWith C matches) (earnedWith D matches) in
    {| p_afterC := jitter (p_afterC nudged) (draws g (cursor g));
       p_afterD := jitter (p_afterD nudged) (draws g (Datatypes.S (cursor g))) |}.
Proof.
  unfold adaptAgentAfterMatch, tally. rewrite fold_tally_rounds.
  cbn [coopReward coopCount defReward defCount]. rewrite !Z.add_0_l.
  rewrite !average_earned. reflexivity.
Qed.
End HoverLearning.

(** X6: one post-match update moves each probability of a policy in
    [0.01, 0.99] by less than 0.32, whatever the match record, for draws
    in [0, 1): the nudge is at most 0.06 * 5 = 0.3, the averages being
    payoffs between 0 and 5, and the jitter at most 0.01.  In exact
    arithmetic the step is at most 0.31; the bound leaves room for the
    rounding of the code's floating-point operations. *)
Theorem adapt_step_is_bounded :
  forall pol matches g,
    Hover.policyInBand pol -> unitDraws g ->
    let pol' := fst (Hover.adaptAgentAfterMatch pol matches g) in
    Hover.closerThan (32 # 100) (Hover.p_afterC pol') (Hover.p_afterC pol) /\
    Hover.closerThan (32 # 100) (Hover.p_afterD pol') (Hover.p_afterD pol).
Proof.
  intros pol matches g Hpol Hu pol'. subst pol'.
  unfold Hover.adaptAgentAfterMatch, bind, ret, Math_random. cbn.
  destruct (tally_tallied matches) as (Hc & Hd & _ & HrC & HrD).
  destruct (average_bounds _ _ Hc HrC) as [HaC0 HaC1].
  destruct (average_bounds _ _ Hd HrD) as [HaD0 HaD1].
  destruct (nudge_close pol _ _ Hpol HaC0 HaC1 HaD0 HaD1)
    as ([HbC HbD] & [HnC0 HnC1] & [HnD0 HnD1]).
  destruct (Hu (cursor g)) as [Hu0 Hu1].
  destruct (Hu (Datatypes.S (cursor g))) as [Hv0 Hv1].
  destruct (jitter_close _ _ HbC Hu0 Hu1) as [HjC0 HjC1].
  destruct (jitter_close _ _ HbD Hv0 Hv1) as [HjD0 HjD1].
  unfold Hover.closerThan in *. repeat split; lra.
Qed.

Lemma adapt_step_is_bounded_witness :
  let pol := Hover.mkPolicy (54 # 100) (46 # 100) in
  let matches := [Hover.mkRound C D; Hover.mkRound D D; Hover.mkRound D C] in
  let g := mkRng (fun k => (Z.of_nat k mod 7) # 7) 3 in
  let pol' := fst (Hover.adaptAgentAfterMatch pol matches g) in
  Hover.closerThan (32 # 100) (Hover.p_afterC pol') (Hover.p_afterC pol).
Proof.
  intros pol matches g pol'.
  assert (Hpol : Hover.policyInBand pol) by (repeat split; discriminate).
  assert (Hu : unitDraws g).
  { intros k. cbn. pose proof (Z.mod_pos_bound (Z.of_nat k) 7 ltac:(lia)).
    split.
    - unfold Qle. cbn. lia.
    - unfold Qlt. cbn. lia. }
  exact (proj1 (adapt_step_is_bounded pol matches g Hpol Hu)).
Defined.

(** X7: the post-match update follows what the two moves earned in the
    match.  [earnedWith m matches] is the average payoff of the rounds in
    which the agent played [m] (0 when there is none), and [jitterOnly]
    what the update makes of a probability when neither move earned more:
    the clamped jitter alone.  When cooperating earned strictly more, a
    probability that is at most 0.98 ends at least as high as the jitter
    alone would leave it, and strictly higher when it lies in
    [0.03, 0.97]; when defecting earned strictly more, a probability that
    is at least 0.02 ends at most as high, and strictly lower when it
    lies in [0.03, 0.97]; when both earned the same the update is the
    jitter alone.  Draws are in [0, 1). *)
Theorem adaptation_follows_earnings :
  forall pol matches g,
    unitDraws g ->
    let avgC := Hover.earnedWith C matches in
    let avgD := Hover.earnedWith D matches in
    let pol' := fst (Hover.adaptAgentAfterMatch pol matches g) in
    let restC := Hover.jitterOnly (Hover.p_afterC pol) (draws g (cursor g)) in
    let restD := Hover.jitterOnly (Hover.p_afterD pol)
                                  (draws g (Datatypes.S (cursor g))) in
    let roomy (p : Q) := (3 # 100 <= p)%Q /\ (p <= 97 # 100)%Q in
    ((avgC == avgD)%Q ->
     Hover.p_afterC pol' = restC /\ Hover.p_afterD pol' = restD) /\
    ((avgD < avgC)%Q ->
     ((Hover.p_afterC pol <= 98 # 100)%Q -> (restC <= Hover.p_afterC pol')%Q) /\
     (roomy (Hover.p_afterC pol) -> (restC < Hover.p_afterC pol')%Q) /\
     ((Hover.p_afterD pol <= 98 # 100)%Q -> (restD <= Hover.p_afterD pol')%Q) /\
     (roomy (Hover.p_afterD pol) -> (restD < Hover.p_afterD pol')%Q)) /\
    ((avgC < avgD)%Q ->
     ((2 # 100 <= Hover.p_afterC pol)%Q -> (Hover.p_afterC pol' <= restC)%Q) /\
     (roomy (Hover.p_afterC pol) -> (Hover.p_afterC pol' < restC)%Q) /\
     ((2 # 100 <= Hover.p_afterD pol)%Q -> (Hover.p_afterD pol' <= restD)%Q) /\
     (roomy (Hover.p_afterD pol) -> (Hover.p_afterD pol' < restD)%Q)).
Proof.
  intros pol matches g Hu avgC avgD pol' restC restD roomy.
  subst pol' restC restD roomy. rewrite adaptAgentAfterMatch_earned.
  fold avgC avgD. cbv zeta. cbn [Hover.p_afterC Hover.p_afterD].
  destruct (Hu (cursor g)) as [Hu0 Hu1].
  destruct (Hu (Datatypes.S (cursor g))) as [Hv0 Hv1].
  unfold Hover.nudge, Hover.jitter, Hover.jitterOnly, Hover.lr.
  split; [|split].
  - intros Heq.
    assert (E : Qgtb avgC avgD = false) by (apply Qltb_ge; lra).
    assert (E' : Qgtb avgD avgC = false) by (apply Qltb_ge; lra).
    rewrite E, E'. split; reflexivity.
  - intros Hgap.
    assert (E : Qgtb avgC avgD = true) by (apply Qltb_lt; exact Hgap).
    rewrite E. cbn [Hover.p_afterC Hover.p_afterD].
    split; [intros Hp|split; [intros [Hp Hp']|split; [intros Hp|intros [Hp Hp']]]];
      qcases; lra.
  - intros Hgap.
    assert (E : Qgtb avgC avgD = false) by (apply Qltb_ge; lra).
    assert (E' : Qgtb avgD avgC = true) by (apply Qltb_lt; exact Hgap).
    rewrite E, E'. cbn [Hover.p_afterC Hover.p_afterD].
    split; [intros Hp|split; [intros [Hp Hp']|split; [intros Hp|intros [Hp Hp']]]];
      qcases; lra.
Qed.

Lemma adaptation_follows_earnings_witness :
  let pol := Hover.mkPolicy (54 # 100) (46 # 100) in
  let matches := [Hover.mkRound C C; Hover.mkRound C C; Hover.mkRound D D] in
  let g := mkRng (fun k => (Z.of_nat k mod 7) # 7) 3 in
  let pol' := fst (Hover.adaptAgentAfterMatch pol matches g) in
  (Hover.earnedWith D matches < Hover.earnedWith C matches)%Q /\
  (Hover.jitterOnly (54 # 100) (3 # 7) < Hover.p_afterC pol')%Q.
Proof.
  intros pol matches g pol'.
  assert (Hu : unitDraws g).
  { intros k. cbn. pose proof (Z.mod_pos_bound (Z.of_nat k) 7 ltac:(lia)).
    split.
    - unfold Qle. cbn. lia.
    - unfold Qlt. cbn. lia. }
  assert (Hgap : (Hover.earnedWith D matches < Hover.earnedWith C matches)%Q)
    by reflexivity.
  split; [exact Hgap|].
  apply (proj1 (proj2 (proj1 (proj2 (adaptation_follows_earnings pol matches g Hu))
                             Hgap))).
  split; discriminate.
Defined.

(** ** The roster of the hover component *)

Section HoverRoster.
Import Hover.

Lemma starting_probability u :
  (0 <= u)%Q -> (u < 1)%Q -> inStartingBand ((45 # 100) + u * (1 # 10)).
Proof. intros H0 H1. unfold inStartingBand. split; lra. Qed.
End HoverRoster.

(** X8: [initializeAgents] builds a roster of 10 agents with score 0: the
    six classic strategies in the order of [ClassicStrategies], then four
    adaptive agents; it consumes 8 draws, and for draws in [0, 1) both
    probabilities of every adaptive agent lie in [0.45, 0.55]. *)
Theorem initial_roster :
  forall g,
    unitDraws g ->
    let agents := fst (Hover.initializeAgents g) in
    length agents = 10%nat /\
    Forall (fun a => Hover.score a = 0) agents /\
    take 6 agents = map (fun id => Hover.mkAgent (Hover.Classic id) 0)
                        Hover.ClassicStrategies /\
    Forall (fun a => match Hover.brain a with
                     | Hover.Classic _ => False
                     | Hover.Adaptive pol =>
                         Hover.inStartingBand (Hover.p_afterC pol) /\
                         Hover.inStartingBand (Hover.p_afterD pol)
                     end) (drop 6 agents) /\
    length (drop 6 agents) = 4%nat /\
    cursor (snd (Hover.initializeAgents g)) = (cursor g + 8)%nat.
Proof.
  intros g Hu agents. subst agents.
  unfold Hover.initializeAgents, Hover.fillAdaptive, Hover.createAdaptiveAgent,
    bind, ret, Math_random.
  cbn.
  split; [reflexivity|]. split; [repeat constructor|].
  split; [reflexivity|]. split.
  - repeat constructor; apply starting_probability; apply Hu.
  - split; [reflexivity|]. lia.
Qed.

Lemma initial_roster_witness :
  let g := mkRng (fun k => (Z.of_nat k mod 7) # 7) 0 in
  let agents := fst (Hover.initializeAgents g) in
  length agents = 10%nat /\
  Forall (fun a => match Hover.brain a with
                   | Hover.Classic _ => False
                   | Hover.Adaptive pol =>
                       Hover.inStartingBand (Hover.p_afterC pol) /\
                       Hover.inStartingBand (Hover.p_afterD pol)
                   end) (drop 6 agents).
Proof.
  intros g agents.
  assert (Hu : unitDraws g).
  { intros k. cbn. pose proof (Z.mod_pos_bound (Z.of_nat k) 7 ltac:(lia)).
    split.
    - unfold Qle. cbn. lia.
    - unfold Qlt. cbn. lia. }
  split.
  - exact (proj1 (initial_roster g Hu)).
  - exact (proj1 (proj2 (proj2 (proj2 (initial_roster g Hu))))).
Defined.

(** ** One tick of the hover scheduler *)

Section HoverTick.
Import Hover.

Lemma adaptIfLearner_same agent matches g :
  score (fst (adaptIfLearner agent matches g)) = score agent /\
  sameKind agent (fst (adaptIfLearner agent matches g)).
Proof.
  unfold adaptIfLearner, sameKind. destruct agent as [[id|pol] sc];
    cbn; split; reflexivity || exact I.
Qed.

Lemma pickPair_in_range fuel n g i j g' :
  unitDraws g -> (0 < n)%nat ->
  pickPair fuel n g = Some (i, j, g') -> (i < n)%nat /\ (j < n)%nat.
Proof.
  intros Hu Hn. unfold pickPair.
  pose proof (randomIndex_in_range n g Hu Hn) as Hi.
  destruct (randomIndex n g) as [i0 g1] eqn:E1.
  assert (Hu1 : unitDraws g1).
  { unfold randomIndex, Math_random in E1. injection E1 as _ <-. exact Hu. }
  pose proof (randomIndex_in_range n g1 Hu1 Hn) as Hj.
  destruct (randomIndex n g1) as [j0 g2] eqn:E2.
  assert (Hu2 : unitDraws g2).
  { unfold randomIndex, Math_random in E2. injection E2 as _ <-. exact Hu1. }
  cbn [fst] in Hi, Hj.
  destruct (redraw fuel n i0 j0 g2) as [[j1 g3]|] eqn:E; [|discriminate].
  intros [= <- <- <-]. split; [exact Hi|].
  clear E1 E2 Hi Hu Hu1. revert j0 g2 Hj Hu2 E.
  induction fuel as [|f IH]; intros j0 g2 Hj Hu2; cbn [redraw].
  - destruct (j0 =? i0)%nat; [discriminate|]. intros [= <- _]. exact Hj.
  - destruct (j0 =? i0)%nat.
    + pose proof (randomIndex_in_range n g2 Hu2 Hn) as Hj'.
      destruct (randomIndex n g2) as [j' g'] eqn:E'.
      assert (Hu' : unitDraws g').
      { unfold randomIndex, Math_random in E'. injection E' as _ <-. exact Hu2. }
      apply IH; assumption.
    + intros [= <- _]. exact Hj.
Qed.

Lemma intervalCallback_effect fuel s s' :
  intervalCallback fuel s = Some s' ->
  tick s' = Datatypes.S (tick s) /\
  length (localAgents s') = length (localAgents s) /\
  exists i j,
    i <> j /\
    (forall k, k <> i -> k <> j -> localAgents s' !! k = localAgents s !! k) /\
    (forall k a, localAgents s !! k = Some a ->
       exists a', localAgents s' !! k = Some a' /\ sameKind a a' /\
                  score a <= score a' <= score a + 100).
Proof.
  unfold intervalCallback.
  destruct (pickPair fuel (length (localAgents s)) (rng s))
    as [[[i j] g]|] eqn:Epick; [|discriminate].
  apply pickPair_distinct in Epick.
  destruct (localAgents s !! i) as [A|] eqn:EA; [|discriminate].
  destruct (localAgents s !! j) as [B|] eqn:EB; [|discriminate].
  pose proof (runIteratedMatch_scores A B g) as (_ & _ & HsA & HsB & _).
  destruct (runIteratedMatch A B g) as [outcome g1]. cbn [fst] in HsA, HsB.
  pose proof (adaptIfLearner_same
                (mkAgent (brain A) (score A + scoreA outcome))
                (history outcome) g1) as [HscA HkA].
  destruct (adaptIfLearner (mkAgent (brain A) (score A + scoreA outcome))
                           (history outcome) g1) as [A2 g2].
  pose proof (adaptIfLearner_same
                (mkAgent (brain B) (score B + scoreB outcome))
                (historyB outcome) g2) as [HscB HkB].
  destruct (adaptIfLearner (mkAgent (brain B) (score B + scoreB outcome))
                           (historyB outcome) g2) as [B2 g3].
  cbn [fst score] in HscA, HscB. unfold sameKind in HkA, HkB. cbn [brain] in HkA, HkB.
  intros [= <-]. cbn [tick localAgents].
  split; [reflexivity|]. split; [rewrite !length_insert; reflexivity|].
  exists i, j. split; [exact Epick|]. split.
  - intros k Hki Hkj. rewrite !list_lookup_insert_ne by congruence. reflexivity.
  - intros k a Hk.
    destruct (decide (k = j)) as [->|Hkj].
    + exists B2. rewrite list_lookup_insert_eq
        by (rewrite length_insert; eapply lookup_lt_Some; exact EB).
      assert (a = B) by congruence. subst a.
      split; [reflexivity|]. split; [exact HkB|lia].
    + rewrite list_lookup_insert_ne by congruence.
      destruct (decide (k = i)) as [->|Hki].
      * exists A2. rewrite list_lookup_insert_eq
          by (eapply lookup_lt_Some; exact EA).
        assert (a = A) by congruence. subst a.
        split; [reflexivity|]. split; [exact HkA|lia].
      * exists a. rewrite list_lookup_insert_ne by congruence.
        split; [exact Hk|]. split; [|lia].
        unfold sameKind. destruct (brain a); [reflexivity|exact I].
Qed.
End HoverTick.

(** X9: a completed tick of the hover scheduler advances the tick counter
    by one and keeps the roster's length; it touches two different
    agents at most, every agent keeps its kind (a classic agent its
    strategy), and no score goes down or gains more than 100. *)
Theorem hover_tick_effect :
  forall fuel s s',
    Hover.intervalCallback fuel s = Some s' ->
    Hover.tick s' = Datatypes.S (Hover.tick s) /\
    length (Hover.localAgents s') = length (Hover.localAgents s) /\
    exists i j,
      i <> j /\
      (forall k, k <> i -> k <> j ->
         Hover.localAgents s' !! k = Hover.localAgents s !! k) /\
      (forall k a, Hover.localAgents s !! k = Some a ->
         exists a', Hover.localAgents s' !! k = Some a' /\
                    Hover.sameKind a a' /\
                    Hover.score a <= Hover.score a' <= Hover.score a + 100).
Proof. intros fuel s s'. apply intervalCallback_effect. Qed.

Lemma hover_tick_effect_witness :
  let g := mkRng (fun k => (Z.of_nat k mod 7) # 7) 0 in
  let s := Hover.startSimulation
             [Hover.mkAgent (Hover.Classic Hover.TFT) 57;
              Hover.mkAgent (Hover.Adaptive (Hover.mkPolicy (1 # 2) (1 # 2))) 31;
              Hover.mkAgent (Hover.Classic Hover.D_ALWAYS) 12] g in
  exists s', Hover.intervalCallback 20 s = Some s' /\
             Hover.tick s' = 1%nat.
Proof.
  intros g s.
  destruct (Hover.intervalCallback 20 s) as [s'|] eqn:E;
    [|vm_compute in E; discriminate].
  exists s'. split; [reflexivity|].
  exact (proj1 (hover_tick_effect 20 s s' E)).
Defined.

(** ** When the hover scheduler's tick completes *)

Section HoverTickCompletes.
Import Hover.

Lemma randomIndex_indexAt n g :
  randomIndex n g
  = (indexAt n g (cursor g), mkRng (draws g) (Datatypes.S (cursor g))).
Proof. reflexivity. Qed.

Lemma indexAt_small n g k :
  (n <= 1)%nat -> unitDraws g -> indexAt n g k = 0%nat.
Proof.
  intros Hn Hu. destruct n as [|[|n]]; [| |lia].
  - unfold indexAt, Qfloor, Qmult. cbn. rewrite Z.mul_0_r. reflexivity.
  - pose proof (randomIndex_in_range 1 (mkRng (draws g) k) Hu ltac:(lia)) as H.
    rewrite randomIndex_indexAt in H. cbn [fst cursor] in H.
    unfold indexAt in *. cbn [draws] in H. lia.
Qed.

Lemma redraw_small fuel n g :
  (n <= 1)%nat -> unitDraws g -> redraw fuel n 0 0 g = None.
Proof.
  intros Hn. revert g. induction fuel as [|f IH]; intros g Hu; cbn [redraw].
  - reflexivity.
  - rewrite randomIndex_indexAt, (indexAt_small n g _ Hn Hu).
    cbn. apply IH. exact Hu.
Qed.

Lemma redraw_progress fuel n i j g :
  j <> i \/ (exists k, (k < fuel)%nat /\ indexAt n g (cursor g + k) <> i) ->
  is_Some (redraw fuel n i j g).
Proof.
  revert j g. induction fuel as [|f IH]; intros j g H; cbn [redraw].
  - destruct (Nat.eqb_spec j i) as [->|Hne]; [|eexists; reflexivity].
    destruct H as [H|(k & Hk & _)]; [congruence|lia].
  - destruct (Nat.eqb_spec j i) as [->|Hne]; [|eexists; reflexivity].
    destruct H as [H|(k & Hk & Hidx)]; [congruence|].
    rewrite randomIndex_indexAt. apply IH.
    destruct k as [|k].
    + left. rewrite Nat.add_0_r in Hidx. exact Hidx.
    + right. exists k. split; [lia|]. cbn [cursor].
      unfold indexAt in *. cbn [draws].
      rewrite <- Nat.add_succ_comm in Hidx. exact Hidx.
Qed.

Lemma pickPair_progress fuel n g k :
  (k <= fuel)%nat ->
  indexAt n g (cursor g + 1 + k) <> indexAt n g (cursor g) ->
  is_Some (pickPair fuel n g).
Proof.
  intros Hk Hidx. unfold pickPair. rewrite !randomIndex_indexAt.
  cbn [cursor draws].
  change (indexAt n (mkRng (draws g) (Datatypes.S (cursor g)))
                  (Datatypes.S (cursor g)))
    with (indexAt n g (Datatypes.S (cursor g))).
  destruct (redraw_progress fuel n (indexAt n g (cursor g))
              (indexAt n g (Datatypes.S (cursor g)))
              (mkRng (draws g) (Datatypes.S (Datatypes.S (cursor g)))))
    as [[j g3] ->]; [|eexists; reflexivity].
  destruct k as [|k].
  - left. rewrite Nat.add_0_r, Nat.add_1_r in Hidx. exact Hidx.
  - right. exists k. split; [lia|]. cbn [cursor]. unfold indexAt in *.
    cbn [draws]. replace (Datatypes.S (Datatypes.S (cursor g)) + k)%nat
      with (cursor g + 1 + Datatypes.S k)%nat by lia.
    exact Hidx.
Qed.

Lemma intervalCallback_after_pick fuel s i j g :
  unitDraws (rng s) ->
  pickPair fuel (length (localAgents s)) (rng s) = Some (i, j, g) ->
  is_Some (intervalCallback fuel s).
Proof.
  intros Hu Hpick. unfold intervalCallback. rewrite Hpick.
  assert (Hn : (0 < length (localAgents s))%nat).
  { destruct (localAgents s) as [|a l] eqn:E; [|cbn; lia].
    exfalso. cbn [length] in Hpick.
    pose proof (pickPair_distinct _ _ _ _ _ _ Hpick) as Hne.
    unfold pickPair in Hpick. rewrite !randomIndex_indexAt in Hpick.
    cbn [cursor draws] in Hpick.
    rewrite (indexAt_small 0 (rng s) _ ltac:(lia) Hu) in Hpick.
    change (indexAt 0 (mkRng (draws (rng s)) (Datatypes.S (cursor (rng s))))
                    (Datatypes.S (cursor (rng s))))
      with (indexAt 0 (rng s) (Datatypes.S (cursor (rng s)))) in Hpick.
    rewrite (indexAt_small 0 (rng s) _ ltac:(lia) Hu) in Hpick.
    rewrite redraw_small in Hpick by (lia || exact Hu). discriminate. }
  destruct (pickPair_in_range _ _ _ _ _ _ Hu Hn Hpick) as [Hi Hj].
  destruct (lookup_lt_is_Some_2 _ _ Hi) as [A ->].
  destruct (lookup_lt_is_Some_2 _ _ Hj) as [B ->].
  destruct (runIteratedMatch A B g) as [outcome g1].
  destruct (adaptIfLearner _ _ g1) as [A2 g2].
  destruct (adaptIfLearner _ _ g2) as [B2 g3].
  eexists; reflexivity.
Qed.
End HoverTickCompletes.

(** X10: with a roster of fewer than two agents the redraw loop of the
    hover scheduler never ends: for draws in [0, 1) both indices are 0 at
    every draw, so the tick does not complete however many redraws are
    allowed. *)
Theorem hover_tick_hangs_below_two_agents :
  forall fuel s,
    (length (Hover.localAgents s) <= 1)%nat ->
    unitDraws (Hover.rng s) ->
    Hover.intervalCallback fuel s = None.
Proof.
  intros fuel s Hn Hu. unfold Hover.intervalCallback, Hover.pickPair.
  rewrite !randomIndex_indexAt. cbn [cursor draws].
  rewrite (indexAt_small _ (Hover.rng s) _ Hn Hu).
  change (indexAt (length (Hover.localAgents s))
                  (mkRng (draws (Hover.rng s)) (Datatypes.S (cursor (Hover.rng s))))
                  (Datatypes.S (cursor (Hover.rng s))))
    with (indexAt (length (Hover.localAgents s)) (Hover.rng s)
                  (Datatypes.S (cursor (Hover.rng s)))).
  rewrite (indexAt_small _ (Hover.rng s) _ Hn Hu).
  rewrite redraw_small by (exact Hn || exact Hu). reflexivity.
Qed.

Lemma hover_tick_hangs_below_two_agents_witness :
  let g := mkRng (fun _ => 1 # 2) 0 in
  let s := Hover.startSimulation [Hover.mkAgent (Hover.Classic Hover.TFT) 57] g in
  Hover.intervalCallback 1000 s = None.
Proof.
  intros g s.
  apply hover_tick_hangs_below_two_agents.
  - cbn. lia.
  - intros k. cbn. split; [discriminate|reflexivity].
Defined.

(** X11: for draws in [0, 1), a tick of the hover scheduler completes as
    soon as one of the draws after the first gives a different index:
    when that happens within the first draw for the second index or the
    [fuel] redraws, the callback returns a new state (both indices are
    inside the roster). *)
Theorem hover_tick_completes :
  forall fuel s k,
    unitDraws (Hover.rng s) ->
    (k <= fuel)%nat ->
    indexAt (length (Hover.localAgents s)) (Hover.rng s)
            (cursor (Hover.rng s) + 1 + k)
    <> indexAt (length (Hover.localAgents s)) (Hover.rng s)
               (cursor (Hover.rng s)) ->
    is_Some (Hover.intervalCallback fuel s).
Proof.
  intros fuel s k Hu Hk Hidx.
  destruct (pickPair_progress fuel _ _ k Hk Hidx) as [[[i j] g] Hpick].
  eapply intervalCallback_after_pick; eassumption.
Qed.

Lemma hover_tick_completes_witness :
  let g := mkRng (fun k => match k with
                           | O => 35 # 100
                           | Datatypes.S O => 31 # 100
                           | _ => 72 # 100
                           end) 0 in
  let s := Hover.startSimulation
             (map (fun id => Hover.mkAgent (Hover.Classic id) 5)
                  Hover.ClassicStrategies) g in
  is_Some (Hover.intervalCallback 3 s).
Proof.
  intros g s.
  apply (hover_tick_completes 3 s 1).
  - intros k. destruct k as [|[|k]]; cbn; split; discriminate || reflexivity.
  - lia.
  - vm_compute. discriminate.
Defined.

(** ** Shape of a match of the fishbowl component *)

Section FishbowlMatchShape.
Import Fishbowl.

Lemma roundPayoffs_bounds a b :
  0 <= fst (roundPayoffs a b) <= 5 /\
  2 <= fst (roundPayoffs a b) + snd (roundPayoffs a b) <= 6 /\
  snd (roundPayoffs a b) = fst (roundPayoffs b a).
Proof.
  destruct a, b; unfold roundPayoffs, PD.R, PD.S, PD.T, PD.P; cbn; lia.
Qed.

Lemma fishbowl_scoreOf_snoc h r : scoreOf (h ++ [r]) = scoreOf h + payoff r.
Proof. induction h as [|x h IH]; cbn [scoreOf app]; lia. Qed.

Lemma fishbowl_scoreOf_bounds h :
  Forall wellScored h ->
  0 <= scoreOf h <= 5 * Z.of_nat (length h) /\
  2 * Z.of_nat (length h) <= scoreOf h + scoreOf (map mirror h)
  <= 6 * Z.of_nat (length h) /\
  0 <= scoreOf (map mirror h) <= 5 * Z.of_nat (length h).
Proof.
  induction 1 as [|r h Hr _ IH]; cbn [scoreOf length map]; [lia|].
  unfold wellScored in Hr.
  change (payoff (mirror r)) with (snd (roundPayoffs (self r) (opponent r))).
  destruct (roundPayoffs_bounds (self r) (opponent r)) as (H1 & H2 & H3).
  destruct (roundPayoffs_bounds (opponent r) (self r)) as (H4 & _ & _).
  rewrite Hr. destruct IH as (IH1 & IH2 & IH3). repeat split; lia.
Qed.

(** What one iteration of the loop does to the three loop variables. *)
Lemma playRound_result a b res w :
  exists moveA moveB,
    fst (playRound (a, b, res) w)
    = (pushMyHistory a (mkRound moveA moveB (fst (roundPayoffs moveA moveB))),
       pushMyHistory b (mkRound moveB moveA (snd (roundPayoffs moveA moveB))),
       {| scoreA := scoreA res + fst (roundPayoffs moveA moveB);
          scoreB := scoreB res + snd (roundPayoffs moveA moveB);
          historyA := historyA res
                      ++ [mkRound moveA moveB (fst (roundPayoffs moveA moveB))];
          historyB := historyB res
                      ++ [mkRound moveB moveA (snd (roundPayoffs moveA moveB))] |}).
Proof.
  unfold playRound, bind.
  destruct (strategyFn (strategy a) (historyA res) (myHistory a) w)
    as [moveA w1].
  destruct (strategyFn (strategy b) (historyB res) (myHistory b) w1)
    as [moveB w2].
  exists moveA, moveB.
  destruct (roundPayoffs moveA moveB) as [payoffA payoffB]. cbn [fst snd].
  repeat match goal with
         | |- context [let (_, _) := ?m ?w in _] => destruct (m w) as [[] ?]
         end.
  reflexivity.
Qed.

Lemma playRound_shape a0 b0 n st w :
  matchShape a0 b0 n st ->
  matchShape a0 b0 (Datatypes.S n) (fst (playRound st w)).
Proof.
  destruct st as [[a b] res].
  intros (Hlen & Hmir & Hws & HA & HB & -> & ->).
  destruct (playRound_result
              (mkAgent (strategy a0) (score a0) (history a0)
                       (myHistory a0 ++ historyA res))
              (mkAgent (strategy b0) (score b0) (history b0)
                       (myHistory b0 ++ historyB res)) res w)
    as (moveA & moveB & ->).
  unfold matchShape, pushMyHistory.
  cbn [historyA historyB scoreA scoreB strategy score history myHistory].
  rewrite !fishbowl_scoreOf_snoc, length_app, map_app, HA, HB, !Hmir,
    <- !app_assoc.
  cbn [payoff map length].
  destruct (roundPayoffs_bounds moveA moveB) as (_ & _ & Hswap).
  repeat split; try reflexivity; try lia.
  apply Forall_app. split; [exact Hws|]. constructor; [reflexivity|constructor].
Qed.

Lemma playLoop_shape k a0 b0 n st w :
  matchShape a0 b0 n st ->
  matchShape a0 b0 (n + k) (fst (playLoop k st w)).
Proof.
  revert n st w. induction k as [|k IH]; intros n st w H; cbn [playLoop].
  - rewrite Nat.add_0_r. exact H.
  - unfold bind.
    pose proof (playRound_shape a0 b0 n st w H) as H1.
    destruct (playRound st w) as [st1 w1]. cbn [fst] in H1.
    rewrite <- Nat.add_succ_comm. apply IH. exact H1.
Qed.

Lemma playGame_shape a b w :
  matchShape a b 20 (fst (playGame a b w)).
Proof.
  unfold playGame, ITERATED_LENGTH.
  apply (playLoop_shape 20 a b 0). unfold matchShape. cbn.
  rewrite !app_nil_r. destruct a, b. repeat split. constructor.
Qed.
End FishbowlMatchShape.

(** X12: whatever the two agents, the learned state and the random draws,
    [playGame] returns two histories of 20 rounds that mirror each other;
    the payoff of every record is the payoff of its two moves; both agent
    copies keep their strategy and score, and each one's [myHistory] has
    grown by exactly its view of the match. *)
Theorem fishbowl_match_histories :
  forall a b w,
    let '(a', b', res) := fst (Fishbowl.playGame a b w) in
    length (Fishbowl.historyA res) = 20%nat /\
    length (Fishbowl.historyB res) = 20%nat /\
    Fishbowl.historyB res = map Fishbowl.mirror (Fishbowl.historyA res) /\
    Forall Fishbowl.wellScored (Fishbowl.historyA res) /\
    Fishbowl.strategy a' = Fishbowl.strategy a /\
    Fishbowl.score a' = Fishbowl.score a /\
    Fishbowl.myHistory a' = Fishbowl.myHistory a ++ Fishbowl.historyA res /\
    Fishbowl.strategy b' = Fishbowl.strategy b /\
    Fishbowl.score b' = Fishbowl.score b /\
    Fishbowl.myHistory b' = Fishbowl.myHistory b ++ Fishbowl.historyB res.
Proof.
  intros a b w. pose proof (playGame_shape a b w) as H.
  destruct (fst (Fishbowl.playGame a b w)) as [[a' b'] res].
  destruct H as (Hlen & Hmir & Hws & _ & _ & -> & ->). cbn.
  rewrite Hmir at 1. rewrite length_map. repeat split; assumption.
Qed.

Lemma playGame_scores a b w :
  let res := snd (fst (Fishbowl.playGame a b w)) in
  Fishbowl.scoreA res = Fishbowl.scoreOf (Fishbowl.historyA res) /\
  Fishbowl.scoreB res = Fishbowl.scoreOf (Fishbowl.historyB res) /\
  0 <= Fishbowl.scoreA res <= 100 /\ 0 <= Fishbowl.scoreB res <= 100 /\
  40 <= Fishbowl.scoreA res + Fishbowl.scoreB res <= 120.
Proof.
  intros res. subst res. pose proof (playGame_shape a b w) as H.
  destruct (fst (Fishbowl.playGame a b w)) as [[a' b'] res].
  destruct H as (Hlen & Hmir & Hws & HA & HB & _ & _). cbn [snd].
  destruct (fishbowl_scoreOf_bounds _ Hws) as (H1 & H2 & H3).
  rewrite Hlen in *. rewrite HA, HB, Hmir. repeat split; lia.
Qed.

(** X13: the scores [playGame] returns are the sums of the [payoff]
    fields of the two histories; each lies between 0 and 100 and together
    they lie between 40 and 120. *)
Theorem fishbowl_match_scores :
  forall a b w,
    let res := snd (fst (Fishbowl.playGame a b w)) in
    Fishbowl.scoreA res = Fishbowl.scoreOf (Fishbowl.historyA res) /\
    Fishbowl.scoreB res = Fishbowl.scoreOf (Fishbowl.historyB res) /\
    0 <= Fishbowl.scoreA res <= 100 /\ 0 <= Fishbowl.scoreB res <= 100 /\
    40 <= Fishbowl.scoreA res + Fishbowl.scoreB res <= 120.
Proof. intros a b w. apply playGame_scores. Qed.

(** ** What the operations on the learned state touch *)

Section WorldFields.
Import Fishbowl.

Lemma updateQ_fields state action reward nextState w :
  let w' := snd (updateQ state action reward nextState w) in
  rng w' = rng w /\ patterns w' = patterns w /\ meta w' = meta w /\
  qTable w'
  = <[state +:+ "_" +:+ moveStr action :=
       (qValue (qTable w) (state +:+ "_" +:+ moveStr action)
        + alpha * (inject_Z reward
                   + gamma * Qmax (qValue (qTable w) (nextState +:+ "_C"))
                                  (qValue (qTable w) (nextState +:+ "_D"))
                   - qValue (qTable w) (state +:+ "_" +:+ moveStr action)))%Q]>
    (qTable w).
Proof. repeat split. Qed.

Lemma updatePatterns_fields h w :
  let w' := snd (updatePatterns h w) in
  rng w' = rng w /\ qTable w' = qTable w /\ meta w' = meta w.
Proof.
  unfold updatePatterns. destruct (length h <? 3)%nat; [repeat split|].
  destruct (last h); repeat split.
Qed.

Lemma metaFn_fields h w :
  let w' := snd (metaFn h w) in
  rng w' = rng w /\ qTable w' = qTable w /\ patterns w' = patterns w /\
  performance (meta w') = performance (meta w) /\
  counts (meta w') = counts (meta w).
Proof.
  unfold metaFn, bind, getWorld, setMeta, ret. cbn.
  destruct (evaluationDue h); repeat split.
Qed.

Lemma updatePerformance_fields strategy reward w :
  let w' := snd (updatePerformance strategy reward w) in
  rng w' = rng w /\ qTable w' = qTable w /\ patterns w' = patterns w /\
  currentStrategy (meta w') = currentStrategy (meta w).
Proof. repeat split. Qed.
End WorldFields.

(** ** Relations every operation of a run respects *)

Section WorldRelation.
Import Fishbowl.

Variable R : World -> World -> Prop.
Hypothesis R_refl : forall w, R w w.
Hypothesis R_trans : forall w1 w2 w3, R w1 w2 -> R w2 w3 -> R w1 w3.
Hypothesis R_rng : forall w g, R w (withRng w g).
Hypothesis R_updateQ :
  forall state action reward nextState w,
    0 <= reward <= 5 -> R w (snd (updateQ state action reward nextState w)).
Hypothesis R_updatePatterns : forall h w, R w (snd (updatePatterns h w)).
Hypothesis R_metaFn : forall h w, R w (snd (metaFn h w)).
Hypothesis R_updatePerformance :
  forall reward w,
    0 <= reward <= 5 ->
    R w (snd (updatePerformance (currentStrategy (meta w)) reward w)).

Local Abbreviation steady := (respects R).

Lemma steady_ret {A} (a : A) : steady (ret a).
Proof. intros w. apply R_refl. Qed.

Lemma steady_bind {A B} (m : State World A) (k : A -> State World B) :
  steady m -> (forall a, steady (k a)) -> steady (bind m k).
Proof.
  intros Hm Hk w. unfold bind. specialize (Hm w).
  destruct (m w) as [a w1]. cbn [snd] in Hm.
  eapply R_trans; [exact Hm|apply Hk].
Qed.

Lemma steady_random : steady random.
Proof. intros w. apply (R_rng w). Qed.

Lemma steady_getWorld : steady getWorld.
Proof. intros w. apply R_refl. Qed.

Ltac steady_step :=
  first
    [ apply steady_ret
    | apply steady_random
    | apply steady_getWorld
    | apply steady_bind; [|intros ?] ].

Lemma steady_strategyFn s h mh : steady (strategyFn s h mh).
Proof.
  destruct s as [id|[]]; cbn [strategyFn].
  - destruct id; cbn [classicFn]; repeat case_match; repeat steady_step.
  - unfold qLearnerFn. apply steady_bind; [apply steady_random|].
    intros u. case_match; repeat steady_step.
  - apply steady_ret.
  - unfold patternFn. case_match; repeat steady_step.
  - intros w. apply R_metaFn.
Qed.

Lemma steady_learnQ a h mv pay :
  0 <= pay <= 5 -> steady (learnQ a h mv pay).
Proof.
  intros Hpay. unfold learnQ. repeat case_match; try apply steady_ret.
  intros w. apply R_updateQ, Hpay.
Qed.

Lemma steady_learnPatterns a h : steady (learnPatterns a h).
Proof.
  unfold learnPatterns. repeat case_match; try apply steady_ret.
  intros w. apply R_updatePatterns.
Qed.

Lemma steady_learnPerformance a pay :
  0 <= pay <= 5 -> steady (learnPerformance a pay).
Proof.
  intros Hpay. unfold learnPerformance. repeat case_match; try apply steady_ret.
  intros w. unfold bind, getWorld. apply R_updatePerformance, Hpay.
Qed.

Lemma steady_playRound st : steady (playRound st).
Proof.
  destruct st as [[a b] res]. unfold playRound.
  apply steady_bind; [apply steady_strategyFn|]. intros moveA.
  apply steady_bind; [apply steady_strategyFn|]. intros moveB.
  destruct (roundPayoffs_bounds moveA moveB) as (HA & _ & Hswap).
  destruct (roundPayoffs_bounds moveB moveA) as (HB & _ & _).
  rewrite <- Hswap in HB.
  destruct (roundPayoffs moveA moveB) as [payoffA payoffB]. cbn [fst snd] in *.
  apply steady_bind; [apply steady_learnQ, HA|]. intros _.
  apply steady_bind; [apply steady_learnQ, HB|]. intros _.
  apply steady_bind; [apply steady_learnPatterns|]. intros _.
  apply steady_bind; [apply steady_learnPatterns|]. intros _.
  apply steady_bind; [apply steady_learnPerformance, HA|]. intros _.
  apply steady_bind; [apply steady_learnPerformance, HB|]. intros _.
  apply steady_ret.
Qed.

Lemma steady_playLoop k st : steady (playLoop k st).
Proof.
  revert st. induction k as [|k IH]; intros st; cbn [playLoop].
  - apply steady_ret.
  - apply steady_bind; [apply steady_playRound|apply IH].
Qed.

Lemma steady_playGame a b : steady (playGame a b).
Proof. apply steady_playLoop. Qed.

Lemma matchUpdater_related fuel ags w ags' w' k :
  matchUpdater fuel ags w = Some (ags', w', k) -> R w w'.
Proof.
  unfold matchUpdater. intros H.
  destruct (length ags <? 2)%nat; [simplify_eq; apply R_refl|].
  destruct (pickIndices fuel (length ags) [] (rng w))
    as [[[|idxA [|idxB rest]] g]|]; try discriminate.
  destruct (ags !! idxA) as [a|]; [|discriminate].
  destruct (ags !! idxB) as [b|]; [|discriminate].
  pose proof (steady_playGame a b (withRng w g)) as Hk.
  destruct (playGame a b (withRng w g)) as [[[agA agB] res] w1].
  simplify_eq. eapply R_trans; [apply R_rng|exact Hk].
Qed.

Lemma run_related s0 s : reachable s0 s -> R (world s0) (world s).
Proof.
  intros Hreach. induction Hreach as [|fuel s s' _ IH Hstep].
  - unfold startSimulation. destruct (running s0); apply R_refl.
  - unfold schedulerStep in Hstep.
    destruct (running s); [|simplify_eq; exact IH].
    unfold runOneMatch in Hstep.
    destruct (matchUpdater fuel (agents s) (world s)) as [[[ags w] k]|] eqn:E;
      [|discriminate].
    simplify_eq. cbn [world]. eapply R_trans; [exact IH|].
    eapply matchUpdater_related, E.
Qed.
End WorldRelation.

(** ** The meta-strategist's evaluation over a run *)

Section MetaSwitch.
Import Fishbowl.

















(** The states between the rounds of a match, and the states of a run
    between its ticks, are among them. *)
Lemma occurs_playLoop k st w : occurs w -> occurs (snd (playLoop k st w)).
Proof.
  revert st w. induction k as [|k IH]; intros st w Hw; cbn [playLoop].
  - exact Hw.
  - unfold bind. pose proof (occurs_round w st Hw) as H1.
    destruct (playRound st w) as [st1 w1]. cbn [snd] in H1. apply IH, H1.
Qed.

Lemma occurs_reachable s0 s :
  occurs (world s0) -> reachable s0 s -> occurs (world s).
Proof.
  intros H0 Hreach. induction Hreach as [|fuel s s' _ IH Hstep].
  - unfold startSimulation. destruct (running s0); exact H0.
  - unfold schedulerStep in Hstep.
    destruct (running s); [|simplify_eq; exact IH].
    unfold runOneMatch in Hstep.
    destruct (matchUpdater fuel (agents s) (world s)) as [[[ags w] k]|] eqn:E;
      [|discriminate].
    simplify_eq. cbn [world]. revert E. unfold matchUpdater.
    destruct (length (agents s) <? 2)%nat; [intros; simplify_eq; exact IH|].
    destruct (pickIndices fuel (length (agents s)) [] (rng (world s)))
      as [[[|idxA [|idxB rest]] g]|]; try discriminate.
    destruct (agents s !! idxA) as [a|]; [|discriminate].
    destruct (agents s !! idxB) as [b|]; [|discriminate].
    pose proof (occurs_playLoop ITERATED_LENGTH (a, b, mkResult 0 0 [] [])
                  (withRng (world s) g) (occurs_draw _ g IH)) as Hk.
    fold (playGame a b) in Hk.
    destruct (playGame a b (withRng (world s) g)) as [[[agA agB] res] w1].
    intros; simplify_eq. exact Hk.
Qed.

End MetaSwitch.



(** ** The Q-table stays bounded *)

Section QBounded.
Import Fishbowl.

Lemma qValue_bounded t key :
  qBounded t -> (0 <= qValue t key)%Q /\ (qValue t key <= 50)%Q.
Proof.
  intros H. unfold qValue. destruct (t !! key) as [v|] eqn:E; cbn.
  - exact (H key v E).
  - split; discriminate.
Qed.

Lemma updateQ_bounded state action reward nextState w :
  0 <= reward <= 5 ->
  qBounded (qTable w) ->
  qBounded (qTable (snd (updateQ state action reward nextState w))).
Proof.
  intros [Hr0 Hr5] Hb.
  destruct (updateQ_fields state action reward nextState w) as (_ & _ & _ & ->).
  intros key v. rewrite lookup_insert. case_decide; [|apply Hb].
  intros [= <-].
  destruct (qValue_bounded _ (state +:+ "_" +:+ moveStr action) Hb) as [Hc0 Hc1].
  destruct (qValue_bounded _ (nextState +:+ "_C") Hb) as [HC0 HC1].
  destruct (qValue_bounded _ (nextState +:+ "_D") Hb) as [HD0 HD1].
  assert (Hq0 : (0 <= inject_Z reward)%Q).
  { change 0%Q with (inject_Z 0). rewrite <- Zle_Qle. exact Hr0. }
  assert (Hq5 : (inject_Z reward <= 5)%Q).
  { change 5%Q with (inject_Z 5). rewrite <- Zle_Qle. exact Hr5. }
  unfold alpha, gamma. qcases; split; lra.
Qed.

Lemma run_keeps_bounded s0 s :
  reachable s0 s -> keepsBounded (world s0) (world s).
Proof.
  apply run_related; unfold keepsBounded.
  - auto.
  - auto.
  - intros w g H. exact H.
  - intros state action reward nextState w Hr. apply updateQ_bounded, Hr.
  - intros h w. destruct (updatePatterns_fields h w) as (_ & -> & _). auto.
  - intros h w. destruct (metaFn_fields h w) as (_ & -> & _). auto.
  - intros reward w _.
    destruct (updatePerformance_fields (currentStrategy (meta w)) reward w)
      as (_ & -> & _).
    auto.
Qed.
End QBounded.

(** X14: over a whole run every Q-value of the Q-learner stays between 0
    and 50 if the table started so (the empty table does), whatever the
    opponents and the draws: the update never diverges. *)
Theorem q_values_stay_bounded :
  forall s0 s,
    Fishbowl.reachable s0 s ->
    Fishbowl.qBounded (Fishbowl.qTable (Fishbowl.world s0)) ->
    Fishbowl.qBounded (Fishbowl.qTable (Fishbowl.world s)).
Proof. intros s0 s Hreach. apply (run_keeps_bounded s0 s Hreach). Qed.

(** ** The learned tables only grow *)

Section TablesGrow.
Import Fishbowl.

Lemma recordPatterns_grows todo patternLength nextMove h pats :
  dom pats ⊆ dom (recordPatterns todo patternLength nextMove h pats).
Proof.
  revert patternLength pats. induction todo as [|k IH]; intros pl pats;
    cbn [recordPatterns]; [reflexivity|].
  etrans; [|apply IH]. apply dom_insert_subseteq.
Qed.

Lemma run_tables_grow s0 s :
  reachable s0 s -> tablesGrow (world s0) (world s).
Proof.
  apply run_related; unfold tablesGrow.
  - intros w. split; reflexivity.
  - intros w1 w2 w3 [H1 H2] [H3 H4]. split; etrans; eassumption.
  - intros w g. split; reflexivity.
  - intros state action reward nextState w _.
    destruct (updateQ_fields state action reward nextState w)
      as (_ & -> & _ & ->).
    split; [apply dom_insert_subseteq|reflexivity].
  - intros h w. destruct (updatePatterns_fields h w) as (_ & -> & _).
    split; [reflexivity|].
    unfold updatePatterns. destruct (length h <? 3)%nat; [reflexivity|].
    destruct (last h); [|reflexivity]. cbn. apply recordPatterns_grows.
  - intros h w. destruct (metaFn_fields h w) as (_ & -> & -> & _).
    split; reflexivity.
  - intros reward w _.
    destruct (updatePerformance_fields (currentStrategy (meta w)) reward w)
      as (_ & -> & -> & _).
    split; reflexivity.
Qed.
End TablesGrow.

(** X15: over a whole run, restarts included, no entry is ever removed
    from the Q-table or from the pattern table: the keys present at the
    start are present in every later state. *)
Theorem learned_tables_only_grow :
  forall s0 s,
    Fishbowl.reachable s0 s ->
    dom (Fishbowl.qTable (Fishbowl.world s0))
      ⊆ dom (Fishbowl.qTable (Fishbowl.world s)) /\
    dom (Fishbowl.patterns (Fishbowl.world s0))
      ⊆ dom (Fishbowl.patterns (Fishbowl.world s)).
Proof. intros s0 s Hreach. apply (run_tables_grow s0 s Hreach). Qed.

Lemma learned_tables_only_grow_witness :
  let g := mkRng (fun k => ((Z.of_nat k * 7919 + 13) mod 1009) # 1009) 0 in
  let t : gmap string Q := <["start_C" := 3 # 10]> ∅ in
  let w := Fishbowl.mkWorld g t ∅ Fishbowl.initialMeta in
  let s0 := Fishbowl.mkSim Fishbowl.initialAgents w 0 false 0 in
  exists s,
    Fishbowl.schedulerStep 50 (Fishbowl.startSimulation s0) = Some s /\
    dom t ⊆ dom (Fishbowl.qTable (Fishbowl.world s)).
Proof.
  intros g t w s0.
  destruct (Fishbowl.schedulerStep 50 (Fishbowl.startSimulation s0))
    as [s|] eqn:E; [|vm_compute in E; discriminate].
  exists s. split; [reflexivity|].
  assert (Hreach : Fishbowl.reachable s0 s).
  { eapply Fishbowl.reach_step; [apply Fishbowl.reach_start|exact E]. }
  exact (proj1 (learned_tables_only_grow s0 s Hreach)).
Defined.

(** ** The meta-strategist's bookkeeping over a match *)

Section MetaAccount.
Import Fishbowl.

Lemma strategyFn_meta_unchanged s h mh w :
  s <> Adaptive META_STRATEGY ->
  meta (snd (strategyFn s h mh w)) = meta w.
Proof.
  intros Hs. destruct s as [id|[]]; cbn [strategyFn]; try congruence.
  - destruct id; cbn [classicFn]; unfold bind, random, ret, Math_random;
      repeat case_match; reflexivity.
  - unfold qLearnerFn, bind, random, getWorld, ret, Math_random.
    repeat case_match; reflexivity.
  - reflexivity.
  - unfold patternFn, bind, getWorld, ret. repeat case_match; reflexivity.
Qed.

Lemma learn_meta_unchanged b hist mv pay w :
  strategy b <> Adaptive META_STRATEGY ->
  meta (snd (learnQ b hist mv pay w)) = meta w /\
  meta (snd (learnPatterns b hist w)) = meta w /\
  learnPerformance b pay w = (tt, w).
Proof.
  intros Hs. unfold learnQ, learnPatterns, learnPerformance.
  destruct (strategy b) as [id|[]]; try congruence; repeat split.
  apply updatePatterns_fields.
Qed.

Lemma bumpAt_value f s d s' :
  bumpAt f s d s' = f s' + (if sub_eqb s' s then d else 0).
Proof. unfold bumpAt. destruct (sub_eqb s' s); lia. Qed.

(** One round with the meta-strategist on side A. *)
Lemma playRound_meta_account sa ha mha b res w :
  strategy b <> Adaptive META_STRATEGY ->
  (length (historyA res) < 20)%nat ->
  let '(st', w') :=
    playRound (mkAgent (Adaptive META_STRATEGY) sa ha mha, b, res) w in
  accounted (meta w) 1 (scoreA (snd st') - scoreA res) (meta w').
Proof.
  intros Hb Hlen. unfold playRound, bind.
  cbn [strategy strategyFn myHistory].
  rewrite metaFn_not_due by (apply evaluationDue_below_20, Hlen).
  pose proof (strategyFn_meta_unchanged (strategy b) (historyB res)
                (myHistory b) w Hb) as H2.
  destruct (strategyFn (strategy b) (historyB res) (myHistory b) w)
    as [moveB w2]. cbn [snd] in H2.
  destruct (roundPayoffs (execute (currentStrategy (meta w)) (historyA res)) moveB)
    as [payoffA payoffB].
  unfold pushMyHistory at 1. cbn [learnQ strategy]. unfold ret at 1.
  assert (Hb' : forall r, strategy (pushMyHistory b r) <> Adaptive META_STRATEGY)
    by (intros r; exact Hb).
  match goal with
  | |- context [learnQ ?b' ?h ?m ?p w2] =>
      destruct (learn_meta_unchanged b' h m p w2 (Hb' _)) as (H3 & _ & _);
      destruct (learnQ b' h m p w2) as [[] w3]
  end.
  cbn [snd] in H3.
  unfold pushMyHistory at 1. cbn [learnPatterns strategy]. unfold ret at 1.
  match goal with
  | |- context [learnPatterns ?b' ?h w3] =>
      destruct (learn_meta_unchanged b' h C 0 w3 (Hb' _)) as (_ & H4 & _);
      destruct (learnPatterns b' h w3) as [[] w4]
  end.
  cbn [snd] in H4.
  unfold pushMyHistory at 1. cbn [learnPerformance strategy].
  cbv beta iota zeta delta [bind getWorld updatePerformance setMeta].
  match goal with
  | |- context [learnPerformance ?b' ?p ?w5] =>
      destruct (learn_meta_unchanged b' [] C p w5 (Hb' _)) as (_ & _ & ->)
  end.
  unfold ret. cbn [fst snd meta scoreA].
  rewrite H4, H3, H2. unfold accounted. cbn [currentStrategy counts performance].
  split; [reflexivity|]. intros s. rewrite !bumpAt_value.
  split; [reflexivity|]. destruct (sub_eqb s _); lia.
Qed.

Lemma accounted_compose m0 m1 m2 n1 g1 n2 g2 :
  accounted m0 n1 g1 m1 -> accounted m1 n2 g2 m2 ->
  accounted m0 (n1 + n2) (g1 + g2) m2.
Proof.
  intros [Hc1 H1] [Hc2 H2]. split; [congruence|].
  intros s. destruct (H1 s) as [Hn1 Hp1]. destruct (H2 s) as [Hn2 Hp2].
  rewrite Hc1 in Hn2, Hp2. rewrite Hn2, Hp2, Hn1, Hp1.
  destruct (sub_eqb s (currentStrategy m0)); split; lia.
Qed.

Lemma accounted_refl m : accounted m 0 0 m.
Proof.
  split; [reflexivity|]. intros s.
  destruct (sub_eqb s (currentStrategy m)); split; lia.
Qed.

Lemma playLoop_meta_account k sa ha mha b res w :
  strategy b <> Adaptive META_STRATEGY ->
  (length (historyA res) + k <= 20)%nat ->
  let '(st', w') :=
    playLoop k (mkAgent (Adaptive META_STRATEGY) sa ha mha, b, res) w in
  accounted (meta w) (Z.of_nat k) (scoreA (snd st') - scoreA res) (meta w').
Proof.
  revert mha b res w. induction k as [|k IH]; intros mha b res w Hb Hlen;
    cbn [playLoop].
  - unfold ret. cbn [snd]. replace (scoreA res - scoreA res) with 0 by lia.
    apply accounted_refl.
  - unfold bind.
    pose proof (playRound_meta_account sa ha mha b res w Hb ltac:(lia)) as H1.
    destruct (playRound_result (mkAgent (Adaptive META_STRATEGY) sa ha mha)
                               b res w) as (moveA & moveB & Hres).
    destruct (playRound (mkAgent (Adaptive META_STRATEGY) sa ha mha, b, res) w)
      as [st1 w1].
    cbn [fst] in Hres. subst st1. cbn [snd] in H1.
    unfold pushMyHistory at 1.
    cbn [strategy score history myHistory].
    match goal with
    | |- context [playLoop k (mkAgent _ _ _ ?mha', ?b', ?res') w1] =>
        specialize (IH mha' b' res' w1 Hb);
        destruct (playLoop k (mkAgent (Adaptive META_STRATEGY) sa ha mha',
                              b', res') w1) as [st2 w2]
    end.
    cbn [historyA scoreA] in IH, H1.
    rewrite length_app in IH. cbn [length] in IH.
    specialize (IH ltac:(lia)).
    pose proof (accounted_compose _ _ _ _ _ _ _ H1 IH) as H.
    replace (Z.of_nat (Datatypes.S k)) with (1 + Z.of_nat k) by lia.
    replace (scoreA (snd st2) - scoreA res)
      with (scoreA res + fst (roundPayoffs moveA moveB) - scoreA res
            + (scoreA (snd st2) - (scoreA res + fst (roundPayoffs moveA moveB))))
      by lia.
    exact H.
Qed.
End MetaAccount.

(** X16: a match with the meta-strategist on side A, against any other
    agent, adds 20 rounds and the meta-strategist's match score to the
    statistics of the sub-strategy it is on, and leaves the statistics of
    the other sub-strategies and the current sub-strategy as they are. *)
Theorem meta_match_bookkeeping :
  forall sa ha mha b w,
    Fishbowl.strategy b <> Fishbowl.Adaptive Fishbowl.META_STRATEGY ->
    let '(st', w') :=
      Fishbowl.playGame
        (Fishbowl.mkAgent (Fishbowl.Adaptive Fishbowl.META_STRATEGY) sa ha mha)
        b w in
    Fishbowl.accounted (Fishbowl.meta w) 20 (Fishbowl.scoreA (snd st'))
                       (Fishbowl.meta w').
Proof.
  intros sa ha mha b w Hb. unfold Fishbowl.playGame, ITERATED_LENGTH.
  pose proof (playLoop_meta_account 20 sa ha mha b
                (Fishbowl.mkResult 0 0 [] []) w Hb ltac:(cbn; lia)) as H.
  destruct (Fishbowl.playLoop 20 _ w) as [st' w'].
  cbn [Fishbowl.scoreA] in H. rewrite Z.sub_0_r in H. exact H.
Qed.

Lemma meta_match_bookkeeping_witness :
  let g := mkRng (fun k => ((Z.of_nat k * 7919 + 13) mod 1009) # 1009) 0 in
  let w := Fishbowl.initialWorld g in
  let a := Fishbowl.mkAgent (Fishbowl.Adaptive Fishbowl.META_STRATEGY) 0 [] [] in
  let b := Fishbowl.mkAgent (Fishbowl.Classic Fishbowl.RANDOM) 0 [] [] in
  Fishbowl.counts (Fishbowl.meta (snd (Fishbowl.playGame a b w))) Fishbowl.SubTFT
  = 20.
Proof.
  intros g w a b.
  pose proof (meta_match_bookkeeping 0 [] [] b w ltac:(discriminate)) as H.
  fold a in H. destruct (Fishbowl.playGame a b w) as [st' w'].
  destruct H as [_ H]. exact (proj1 (H Fishbowl.SubTFT)).
Defined.

(** X17: over a whole run started with the meta-strategist on its TFT
    sub-strategy (as the initial object is), the meta-strategist answers
    every history of a match (fewer than 20 rounds) exactly as Tit-for-Tat
    does and changes nothing in the learned state. *)
Theorem meta_plays_tit_for_tat :
  forall s0 s h mh,
    Fishbowl.reachable s0 s ->
    Fishbowl.currentStrategy (Fishbowl.meta (Fishbowl.world s0)) = Fishbowl.SubTFT ->
    (length h < 20)%nat ->
    Fishbowl.strategyFn (Fishbowl.Adaptive Fishbowl.META_STRATEGY) h mh
                        (Fishbowl.world s)
    = Fishbowl.strategyFn (Fishbowl.Classic Fishbowl.TIT_FOR_TAT) h mh
                          (Fishbowl.world s).
Proof.
  intros s0 s h mh Hreach H0 Hlen. cbn [Fishbowl.strategyFn Fishbowl.classicFn].
  rewrite metaFn_not_due by (apply evaluationDue_below_20, Hlen).
  rewrite (run_keeps_currentStrategy s0 s Hreach), H0. cbn [Fishbowl.execute].
  destruct (last h); reflexivity.
Qed.

Lemma meta_plays_tit_for_tat_witness :
  let g := mkRng (fun k => ((Z.of_nat k * 7919 + 13) mod 1009) # 1009) 0 in
  let s0 := Fishbowl.mkSim Fishbowl.initialAgents (Fishbowl.initialWorld g)
                           0 false 0 in
  let h := [Fishbowl.mkRound C D 0] in
  fst (Fishbowl.strategyFn (Fishbowl.Adaptive Fishbowl.META_STRATEGY) h []
                           (Fishbowl.world (Fishbowl.startSimulation s0)))
  = D.
Proof.
  intros g s0 h.
  rewrite (meta_plays_tit_for_tat s0 _ h [] (Fishbowl.reach_start s0) eq_refl)
    by (cbn; lia).
  reflexivity.
Defined.

(** ** State keys of the Q-learner *)

Section QLearnerState.
Import Fishbowl.

Lemma string_length_app (s1 s2 : string) :
  String.length (s1 +:+ s2) = (String.length s1 + String.length s2)%nat.
Proof.
  induction s1 as [|c s1 IH]; [reflexivity|].
  change (String c s1 +:+ s2) with (String c (s1 +:+ s2)).
  cbn [String.length]. rewrite IH. reflexivity.
Qed.

Lemma string_app_inj_r (s a b : string) : s +:+ a = s +:+ b -> a = b.
Proof.
  induction s as [|c s IH]; [auto|].
  change (String c s +:+ a) with (String c (s +:+ a)).
  change (String c s +:+ b) with (String c (s +:+ b)).
  intros [= H]. auto.
Qed.

Lemma opponentKey_length xs : String.length (opponentKey xs) = length xs.
Proof.
  unfold opponentKey. induction xs as [|x xs IH]; [reflexivity|].
  cbn [map String.concat]. cbn [map] in IH.
  destruct xs as [|y xs].
  - destruct (opponent x); reflexivity.
  - cbn [map] in *. rewrite !string_length_app, IH.
    destruct (opponent x); reflexivity.
Qed.

Lemma lastN_length {A} k (l : list A) : length (lastN k l) = Nat.min k (length l).
Proof. unfold lastN. rewrite length_drop. lia. Qed.

Lemma lastN_app {A} (l t : list A) : lastN (length t) (l ++ t) = t.
Proof.
  unfold lastN. rewrite length_app.
  replace (length l + length t - length t)%nat with (length l) by lia.
  apply drop_app_length.
Qed.
End QLearnerState.

(** X18: the state key of the Q-learner is "start" for the empty
    history, and for a non-empty history the string of the opponent's
    moves in the last min(3, rounds) rounds, oldest first: one letter
    after one round, two after two, and from three rounds on the letters
    of the last three rounds, whatever came before.  So the key of a
    non-empty history has min(3, rounds) letters and is never "start". *)
Theorem q_state_key :
  let letter (m : Move) : string := match m with C => "C" | D => "D" end in
  let moves (rounds : list Fishbowl.Round) : string :=
    String.concat "" (map (fun r => letter (Fishbowl.opponent r)) rounds) in
  Fishbowl.getState [] = "start" /\
  (forall r1, Fishbowl.getState [r1] = letter (Fishbowl.opponent r1)) /\
  (forall r1 r2,
     Fishbowl.getState [r1; r2]
     = letter (Fishbowl.opponent r1) +:+ letter (Fishbowl.opponent r2)) /\
  (forall h r1 r2 r3,
     Fishbowl.getState (h ++ [r1; r2; r3])
     = letter (Fishbowl.opponent r1) +:+ letter (Fishbowl.opponent r2)
       +:+ letter (Fishbowl.opponent r3)) /\
  (forall h, h <> [] ->
     Fishbowl.getState h = moves (drop (length h - 3) h) /\
     String.length (Fishbowl.getState h) = Nat.min 3 (length h) /\
     Fishbowl.getState h <> "start").
Proof.
  intros letter moves.
  split; [reflexivity|]. split; [intros r1; destruct r1 as [? [] ?]; reflexivity|].
  split; [intros [? [] ?] [? [] ?]; reflexivity|]. split.
  - intros h r1 r2 r3.
    rewrite (getState_recent h [r1; r2; r3]) by (cbn; auto).
    destruct r1 as [? [] ?], r2 as [? [] ?], r3 as [? [] ?]; reflexivity.
  - intros h Hne.
    assert (Hkey : Fishbowl.getState h
                   = Fishbowl.opponentKey (drop (length h - 3) h)).
    { unfold Fishbowl.getState, Fishbowl.lastN.
      destruct h as [|r h]; [congruence|reflexivity]. }
    assert (Hlen : String.length (Fishbowl.getState h) = Nat.min 3 (length h)).
    { rewrite Hkey, opponentKey_length, length_drop. lia. }
    split; [exact Hkey|]. split; [exact Hlen|].
    intros E. rewrite E in Hlen.
    change (String.length "start") with 5%nat in Hlen. lia.
Qed.

(** ** One Q-update *)

Section QUpdate.
Import Fishbowl.

Lemma qKey_actions state : qKey state C <> qKey state D.
Proof.
  unfold qKey. intros E. apply string_app_inj_r in E. discriminate.
Qed.
End QUpdate.

(** X19: [updateQ] writes one entry of the Q-table, the one of (state,
    action): every other key keeps its entry, in particular the other
    action of the same state.  The new value is
    old + 0.1 * (target - old), which lies between the old value and the
    target (the reward plus 0.9 times the best value of the next state). *)
Theorem q_update_one_entry :
  forall state action reward nextState w,
    let t := Fishbowl.qTable w in
    let t' := Fishbowl.qTable
                (snd (Fishbowl.updateQ state action reward nextState w)) in
    let old := Fishbowl.qValue t (Fishbowl.qKey state action) in
    let target := Fishbowl.qTarget t reward nextState in
    let new := Fishbowl.qValue t' (Fishbowl.qKey state action) in
    (forall key, key <> Fishbowl.qKey state action -> t' !! key = t !! key) /\
    t' !! Fishbowl.qKey state (match action with C => D | D => C end)
    = t !! Fishbowl.qKey state (match action with C => D | D => C end) /\
    (new == old + (1 # 10) * (target - old))%Q /\
    (Qmin old target <= new)%Q /\ (new <= Qmax old target)%Q.
Proof.
  intros state action reward nextState w t t' old target new.
  destruct (updateQ_fields state action reward nextState w) as (_ & _ & _ & Ht).
  fold (Fishbowl.qKey state action) in Ht.
  assert (Hframe : forall key, key <> Fishbowl.qKey state action ->
                               t' !! key = t !! key).
  { intros key Hne. subst t'. rewrite Ht.
    rewrite lookup_insert_ne by congruence. reflexivity. }
  split; [exact Hframe|]. split.
  - apply Hframe. destruct action; [symmetry|]; intros E;
      apply (qKey_actions state); congruence.
  - assert (Hnew : new = (old + Fishbowl.alpha * (target - old))%Q).
    { subst new t'. rewrite Ht. unfold Fishbowl.qValue at 1.
      rewrite lookup_insert_eq. reflexivity. }
    rewrite Hnew. unfold Fishbowl.alpha.
    split; [reflexivity|]. split; qcases; lra.
Qed.

(** ** The frequency analyzer *)

Section Frequency.
Import Fishbowl.

Lemma cooperations_le h : (cooperations h <= length h)%nat.
Proof. unfold cooperations. apply List.filter_length_le. Qed.

Lemma rate_above_threshold h :
  (0 < length h)%nat ->
  Qgtb (cooperationRate h) (6 # 10) = true
  <-> (3 * length h < 5 * cooperations h)%nat.
Proof.
  intros Hlen. unfold Qgtb. rewrite Qltb_lt. unfold cooperationRate.
  fold (cooperations h).
  assert (Hpos : (0 < inject_Z (Z.of_nat (length h)))%Q)
    by (apply inject_Z_pos; lia).
  assert (Hmul : ((6 # 10) * inject_Z (Z.of_nat (length h))
                  < inject_Z (Z.of_nat (cooperations h)))%Q
                 <-> (3 * length h < 5 * cooperations h)%nat).
  { unfold Qlt, Qmult. cbn. lia. }
  rewrite <- Hmul. split.
  - intros H. apply (Qmult_lt_compat_r _ _ _ Hpos) in H.
    assert (E : (inject_Z (Z.of_nat (cooperations h))
                 / inject_Z (Z.of_nat (length h))
                 * inject_Z (Z.of_nat (length h))
                 == inject_Z (Z.of_nat (cooperations h)))%Q).
    { field. intros E0. rewrite E0 in Hpos. discriminate. }
    rewrite E in H. exact H.
  - intros H. apply Qlt_shift_div_l; assumption.
Qed.
End Frequency.

(** X20: the frequency rule (the Frequency Analyzer, and the FREQ
    sub-strategy of the meta-strategist) cooperates in the first 5 rounds;
    from then on it cooperates exactly when the opponent cooperated in
    strictly more than 60% of the rounds, i.e. when
    5 * cooperations > 3 * rounds; at exactly 60% it defects. *)
Theorem frequency_rule :
  forall h,
    ((length h < 5)%nat -> Fishbowl.freqFn Fishbowl.cooperationThreshold h = C) /\
    ((5 <= length h)%nat ->
     (Fishbowl.freqFn Fishbowl.cooperationThreshold h = C
      <-> (3 * length h < 5 * Fishbowl.cooperations h)%nat)) /\
    Fishbowl.execute Fishbowl.SubFREQ h
    = Fishbowl.freqFn Fishbowl.cooperationThreshold h.
Proof.
  intros h. unfold Fishbowl.freqFn, Fishbowl.cooperationThreshold.
  split; [|split].
  - intros H. apply Nat.ltb_lt in H. rewrite H. reflexivity.
  - intros H. assert (E : (length h <? 5)%nat = false) by (apply Nat.ltb_ge; lia).
    rewrite E. rewrite <- (rate_above_threshold h) by lia.
    destruct (Qgtb (Fishbowl.cooperationRate h) (6 # 10)); split; congruence.
  - reflexivity.
Qed.

Lemma frequency_rule_witness :
  let h := repeat (Fishbowl.mkRound C C 3) 3 ++ repeat (Fishbowl.mkRound C D 0) 2 in
  Fishbowl.freqFn Fishbowl.cooperationThreshold h = D.
Proof.
  intros h.
  pose proof (proj1 (proj2 (frequency_rule h)) ltac:(cbn; lia)) as H.
  destruct (Fishbowl.freqFn Fishbowl.cooperationThreshold h); [|reflexivity].
  exfalso. pose proof (proj1 H eq_refl) as Hlt. vm_compute in Hlt. lia.
Defined.

(** ** The pattern detector *)

Section Patterns.
Import Fishbowl.

Lemma windowBeforeLast_length k h :
  (k + 1 <= length h)%nat -> length (windowBeforeLast k h) = k.
Proof.
  intros H. unfold windowBeforeLast. rewrite length_drop, length_take. lia.
Qed.

Lemma patternKey_length k h :
  (k + 1 <= length h)%nat -> String.length (patternKey k h) = k.
Proof.
  intros H. unfold patternKey. rewrite opponentKey_length.
  apply windowBeforeLast_length, H.
Qed.

(** Keys the loop does not visit keep their entry. *)
Lemma recordPatterns_other todo from nextMove h pats key :
  (forall q, (from <= q < from + todo)%nat -> patternKey q h <> key) ->
  recordPatterns todo from nextMove h pats !! key = pats !! key.
Proof.
  revert from pats. induction todo as [|k IH]; intros from pats Hother;
    cbn [recordPatterns]; [reflexivity|].
  fold (patternKey from h). rewrite IH by (intros q Hq; apply Hother; lia).
  apply lookup_insert_ne. apply Hother. lia.
Qed.

(** Every window length the loop visits has its entry bumped once. *)
Lemma recordPatterns_visited todo from nextMove h pats q :
  (from <= q < from + todo)%nat ->
  (from + todo <= length h)%nat ->
  recordPatterns todo from nextMove h pats !! patternKey q h
  = Some (bump nextMove (default (0, 0) (pats !! patternKey q h))).
Proof.
  revert from pats. induction todo as [|k IH]; intros from pats Hq Hlen;
    [lia|].
  cbn [recordPatterns]. fold (patternKey from h).
  destruct (decide (q = from)) as [->|Hne].
  - rewrite recordPatterns_other; [apply lookup_insert_eq|].
    intros q' Hq' E. apply (f_equal String.length) in E.
    rewrite !patternKey_length in E by lia. lia.
  - rewrite IH by lia. rewrite lookup_insert_ne; [reflexivity|].
    intros E. apply (f_equal String.length) in E.
    rewrite !patternKey_length in E by lia. lia.
Qed.

Lemma patternScan_known todo from pats h predC predD :
  pats !! opponentKey (lastN from h) = Some (predC, predD) ->
  patternScan (Datatypes.S todo) from pats h = (if predC >? predD then C else D).
Proof. intros E. cbn [patternScan]. rewrite E. reflexivity. Qed.

Lemma patternScan_unknown todo from pats h :
  (forall q, (from <= q < from + todo)%nat ->
             pats !! opponentKey (lastN q h) = None) ->
  patternScan todo from pats h = C.
Proof.
  revert from. induction todo as [|k IH]; intros from H; cbn [patternScan];
    [reflexivity|].
  rewrite (H from) by lia. apply IH. intros q Hq. apply H. lia.
Qed.
End Patterns.

(** X21: the pattern detector cooperates in the first 4 rounds and
    changes nothing.  From round 4 on it looks the opponent's last two
    moves up first: when the table has an entry (c, d) for them, the
    answer is C if c > d and D otherwise, whatever the table holds for
    the last three and four moves; when the table has no entry for the
    last two, three and four moves, the answer is C. *)
Theorem pattern_detector_decision :
  forall h w,
    snd (Fishbowl.patternFn h w) = w /\
    ((length h < 4)%nat -> fst (Fishbowl.patternFn h w) = C) /\
    ((4 <= length h)%nat ->
     (forall c d,
        Fishbowl.patterns w !! Fishbowl.opponentKey (Fishbowl.lastN 2 h)
        = Some (c, d) ->
        fst (Fishbowl.patternFn h w) = (if c >? d then C else D)) /\
     ((forall q, (2 <= q <= 4)%nat ->
                 Fishbowl.patterns w !! Fishbowl.opponentKey (Fishbowl.lastN q h)
                 = None) ->
      fst (Fishbowl.patternFn h w) = C)).
Proof.
  intros h w. unfold Fishbowl.patternFn.
  destruct (Nat.ltb_spec (length h) 4) as [Hlt|Hge].
  - split; [reflexivity|]. split; [reflexivity|lia].
  - unfold bind, Fishbowl.getWorld, ret. cbn [fst snd].
    split; [reflexivity|]. split; [lia|]. intros _.
    replace (Nat.min 4 (length h) - 1)%nat with 3%nat by lia.
    split.
    + intros c d E. apply (patternScan_known 2 2 _ h c d E).
    + intros H. apply patternScan_unknown. intros q Hq. apply H. lia.
Qed.

Lemma pattern_detector_decision_witness :
  let h := repeat (Fishbowl.mkRound C D 0) 4 in
  let pats : gmap string (Z * Z) := <["DD" := (1, 3)]> ∅ in
  let w := Fishbowl.mkWorld (mkRng (fun _ => 1 # 2) 0) ∅ pats Fishbowl.initialMeta in
  fst (Fishbowl.patternFn h w) = D.
Proof.
  intros h pats w.
  exact (proj1 (proj2 (proj2 (pattern_detector_decision h w)) ltac:(cbn; lia))
               1 3 eq_refl).
Defined.

(** X22: [updatePatterns] does nothing on a history of fewer than 3
    rounds.  On a longer one, for each window length q from 2 to
    min(4, rounds - 1), the entry of the opponent's q moves before the
    last round has the counter of the opponent's last move raised by one
    (starting from (0, 0) when the entry is new) and the other counter
    unchanged; keys of other lengths keep their entries. *)
Theorem pattern_table_update :
  forall h w,
    ((length h < 3)%nat -> Fishbowl.updatePatterns h w = (tt, w)) /\
    (forall l, (3 <= length h)%nat -> last h = Some l ->
       let pats' := Fishbowl.patterns (snd (Fishbowl.updatePatterns h w)) in
       (forall q, (2 <= q <= Nat.min 4 (length h - 1))%nat ->
          pats' !! Fishbowl.patternKey q h
          = Some (Fishbowl.bump (Fishbowl.opponent l)
                    (default (0, 0)
                       (Fishbowl.patterns w !! Fishbowl.patternKey q h)))) /\
       (forall key, (String.length key < 2 \/ 4 < String.length key)%nat ->
          pats' !! key = Fishbowl.patterns w !! key)).
Proof.
  intros h w. unfold Fishbowl.updatePatterns.
  destruct (Nat.ltb_spec (length h) 3) as [Hlt|Hge].
  - split; [reflexivity|]. intros l Hl. lia.
  - split; [lia|]. intros l _ Hl. rewrite Hl.
    unfold bind, Fishbowl.getWorld, Fishbowl.setPatterns. cbn [snd Fishbowl.patterns].
    split.
    + intros q Hq. apply recordPatterns_visited; lia.
    + intros key Hkey. apply recordPatterns_other.
      intros q Hq E. apply (f_equal String.length) in E.
      rewrite patternKey_length in E by lia. lia.
Qed.

Lemma pattern_table_update_witness :
  let h := [Fishbowl.mkRound C C 3; Fishbowl.mkRound C D 0; Fishbowl.mkRound D D 1] in
  let w := Fishbowl.initialWorld (mkRng (fun _ => 1 # 2) 0) in
  Fishbowl.patterns (snd (Fishbowl.updatePatterns h w)) !! "CD" = Some (0, 1).
Proof.
  intros h w.
  exact (proj1 (proj2 (pattern_table_update h w) (Fishbowl.mkRound D D 1)
                      ltac:(cbn; lia) eq_refl)
               2%nat ltac:(cbn; lia)).
Defined.

(** ** One tick of the fishbowl scheduler *)

Section FishbowlTick.
Import Fishbowl.

Lemma mirror_wellScored h :
  Forall wellScored h -> Forall wellScored (map mirror h).
Proof.
  induction 1 as [|r h Hr _ IH]; cbn [map]; constructor; [|exact IH].
  unfold wellScored, mirror. cbn [self opponent payoff].
  apply roundPayoffs_bounds.
Qed.

Lemma matchUpdater_effect fuel ags w ags' w' k :
  matchUpdater fuel ags w = Some (ags', w', k) ->
  ((length ags < 2)%nat /\ ags' = ags /\ w' = w /\ k = 0%nat) \/
  ((2 <= length ags)%nat /\ k = 1%nat /\
   exists idxA idxB a b a' b',
     idxA <> idxB /\
     ags !! idxA = Some a /\ ags !! idxB = Some b /\
     ags' = <[idxB := b']> (<[idxA := a']> ags) /\
     played_match a a' /\ played_match b b' /\
     history b' = map mirror (history a')).
Proof.
  unfold matchUpdater.
  destruct (Nat.ltb_spec (length ags) 2) as [Hlt|Hge].
  - intros [= <- <- <-]. left. auto.
  - destruct (pickIndices fuel (length ags) [] (rng w))
      as [[indices g]|] eqn:Epick; [|discriminate].
    destruct indices as [|idxA [|idxB rest]]; try discriminate.
    apply pickIndices_distinct in Epick as [Hne _].
    destruct (ags !! idxA) as [a|] eqn:EA; [|discriminate].
    destruct (ags !! idxB) as [b|] eqn:EB; [|discriminate].
    pose proof (playGame_shape a b (withRng w g)) as Hshape.
    destruct (playGame a b (withRng w g)) as [[[agentA agentB] result] w1].
    cbn [fst] in Hshape.
    destruct Hshape as (Hlen & Hmir & Hws & HA & HB & -> & ->).
    intros [= <- <- <-]. right. split; [exact Hge|]. split; [reflexivity|].
    cbn [strategy score myHistory].
    eexists idxA, idxB, a, b, _, _.
    split; [exact Hne|]. split; [exact EA|]. split; [exact EB|].
    split; [reflexivity|].
    unfold played_match. cbn [strategy score history myHistory].
    rewrite HA, HB.
    repeat split; try assumption.
    + rewrite Hmir, length_map. exact Hlen.
    + rewrite Hmir. apply mirror_wellScored, Hws.
Qed.

Lemma unitDraws_advance g k : unitDraws g -> unitDraws (mkRng (draws g) k).
Proof. intros H. exact H. Qed.

Lemma pickIndices_in_range fuel n indices g res g' :
  unitDraws g -> (0 < n)%nat ->
  Forall (fun i => (i < n)%nat) indices ->
  pickIndices fuel n indices g = Some (res, g') ->
  Forall (fun i => (i < n)%nat) res.
Proof.
  intros Hu Hn. revert indices g Hu.
  induction fuel as [|f IH]; intros indices g Hu Hall; cbn [pickIndices].
  - destruct (length indices <? 2)%nat; [discriminate|].
    intros [= <- _]. exact Hall.
  - destruct (length indices <? 2)%nat; [|intros [= <- _]; exact Hall].
    pose proof (randomIndex_in_range n g Hu Hn) as Hidx.
    rewrite randomIndex_indexAt in *. cbn [fst] in Hidx.
    destruct (existsb (Nat.eqb (indexAt n g (cursor g))) indices).
    + apply IH; [apply unitDraws_advance, Hu|exact Hall].
    + apply IH; [apply unitDraws_advance, Hu|].
      apply Forall_app. split; [exact Hall|]. constructor; [exact Hidx|constructor].
Qed.

Lemma pickIndices_second fuel n i g :
  (exists k, (k < fuel)%nat /\ indexAt n g (cursor g + k) <> i) ->
  is_Some (pickIndices fuel n [i] g).
Proof.
  revert g. induction fuel as [|f IH]; intros g (k & Hk & Hidx); [lia|].
  cbn [pickIndices length Nat.ltb Nat.leb]. rewrite randomIndex_indexAt.
  cbn [existsb]. rewrite orb_false_r.
  destruct (Nat.eqb_spec (indexAt n g (cursor g)) i) as [E|Hne].
  - apply IH. destruct k as [|k].
    + rewrite Nat.add_0_r in Hidx. congruence.
    + exists k. split; [lia|]. cbn [cursor]. unfold indexAt in *. cbn [draws].
      rewrite <- Nat.add_succ_comm in Hidx. exact Hidx.
  - cbn [app]. destruct f; cbn [pickIndices length Nat.ltb Nat.leb];
      eexists; reflexivity.
Qed.

Lemma pickIndices_progress fuel n g k :
  (k + 2 <= fuel)%nat ->
  indexAt n g (cursor g + 1 + k) <> indexAt n g (cursor g) ->
  is_Some (pickIndices fuel n [] g).
Proof.
  intros Hk Hidx. destruct fuel as [|f]; [lia|].
  cbn [pickIndices length Nat.ltb Nat.leb]. rewrite randomIndex_indexAt.
  cbn [existsb app]. apply pickIndices_second.
  exists k. split; [lia|]. cbn [cursor]. unfold indexAt in *. cbn [draws].
  replace (Datatypes.S (cursor g) + k)%nat with (cursor g + 1 + k)%nat by lia.
  exact Hidx.
Qed.

Lemma matchUpdater_completes fuel ags w k :
  unitDraws (rng w) ->
  (k + 2 <= fuel)%nat ->
  indexAt (length ags) (rng w) (cursor (rng w) + 1 + k)
  <> indexAt (length ags) (rng w) (cursor (rng w)) ->
  is_Some (matchUpdater fuel ags w).
Proof.
  intros Hu Hk Hidx. unfold matchUpdater.
  destruct (Nat.ltb_spec (length ags) 2) as [Hlt|Hge]; [eexists; reflexivity|].
  destruct (pickIndices_progress fuel _ _ k Hk Hidx) as [[indices g] Hpick].
  rewrite Hpick.
  assert (Hpos : (0 < length ags)%nat) by lia.
  pose proof (pickIndices_in_range fuel (length ags) [] (rng w) indices g
                Hu Hpos (Forall_nil_2 _) Hpick) as Hrange.
  assert (Hnil : (length (@nil nat) <= 2)%nat) by (cbn; lia).
  pose proof (pickIndices_NoDup fuel (length ags) [] (rng w) indices g
                (NoDup_nil_2) Hnil Hpick) as [_ Hlen].
  destruct indices as [|idxA [|idxB [|]]]; try discriminate.
  apply Forall_cons in Hrange as [HA Hrange].
  apply Forall_cons in Hrange as [HB _].
  destruct (lookup_lt_is_Some_2 _ _ HA) as [a ->].
  destruct (lookup_lt_is_Some_2 _ _ HB) as [b ->].
  destruct (playGame a b (withRng w g)) as [[[agentA agentB] result] w1].
  eexists; reflexivity.
Qed.
End FishbowlTick.

(** X23: the roster update of a fishbowl tick.  With fewer than two
    agents it returns the roster and the learned state unchanged and
    plays no match.  Otherwise it plays one match between the agents at
    two different indices and writes back copies of those two only: each
    keeps its strategy, has the 20-round match history as [history],
    appended to [myHistory], and a score grown by the payoffs of that
    history; the two histories mirror each other. *)
Theorem fishbowl_tick_effect :
  forall fuel ags w ags' w' k,
    Fishbowl.matchUpdater fuel ags w = Some (ags', w', k) ->
    ((length ags < 2)%nat /\ ags' = ags /\ w' = w /\ k = 0%nat) \/
    ((2 <= length ags)%nat /\ k = 1%nat /\
     exists idxA idxB a b a' b',
       idxA <> idxB /\
       ags !! idxA = Some a /\ ags !! idxB = Some b /\
       ags' = <[idxB := b']> (<[idxA := a']> ags) /\
       Fishbowl.played_match a a' /\ Fishbowl.played_match b b' /\
       Fishbowl.history b' = map Fishbowl.mirror (Fishbowl.history a')).
Proof. intros fuel ags w ags' w' k. apply matchUpdater_effect. Qed.

Lemma fishbowl_tick_effect_witness :
  let g := mkRng (fun k => ((Z.of_nat k * 7919 + 13) mod 1009) # 1009) 0 in
  let w := Fishbowl.initialWorld g in
  exists r, Fishbowl.matchUpdater 50 Fishbowl.initialAgents w = Some r /\
            snd r = 1%nat.
Proof.
  intros g w.
  destruct (Fishbowl.matchUpdater 50 Fishbowl.initialAgents w)
    as [[[ags' w'] k]|] eqn:E; [|vm_compute in E; discriminate].
  exists (ags', w', k). split; [reflexivity|].
  destruct (fishbowl_tick_effect _ _ _ _ _ _ E) as [(Hlt & _)|(_ & -> & _)].
  - cbn in Hlt. lia.
  - reflexivity.
Defined.

(** X24: for draws in [0, 1), the roster update of a fishbowl tick
    completes as soon as a draw after the first gives a different index
    within the allowed number of draws: both indices are inside the
    roster and the match is played. *)
Theorem fishbowl_tick_completes :
  forall fuel ags w k,
    unitDraws (Fishbowl.rng w) ->
    (k + 2 <= fuel)%nat ->
    indexAt (length ags) (Fishbowl.rng w) (cursor (Fishbowl.rng w) + 1 + k)
    <> indexAt (length ags) (Fishbowl.rng w) (cursor (Fishbowl.rng w)) ->
    is_Some (Fishbowl.matchUpdater fuel ags w).
Proof. intros fuel ags w k. apply matchUpdater_completes. Qed.

Lemma fishbowl_tick_completes_witness :
  let g := mkRng (fun k => match k with
                           | O => 35 # 100
                           | Datatypes.S O => 31 # 100
                           | _ => 72 # 100
                           end) 0 in
  is_Some (Fishbowl.matchUpdater 5 Fishbowl.initialAgents (Fishbowl.initialWorld g)).
Proof.
  intros g.
  apply (fishbowl_tick_completes 5 _ _ 1).
  - intros k. destruct k as [|[|k]]; cbn; split; discriminate || reflexivity.
  - lia.
  - vm_compute. discriminate.
Defined.

Lemma q_values_stay_bounded_witness :
  let g := mkRng (fun k => match k with
                           | O => 35 # 100
                           | Datatypes.S O => 31 # 100
                           | _ => 72 # 100
                           end) 0 in
  let t : gmap string Q := <["start_C" := 3 # 10]> (<["DDD_D" := 495 # 10]> ∅) in
  let w := Fishbowl.mkWorld g t ∅ Fishbowl.initialMeta in
  let s0 := Fishbowl.mkSim
              [Fishbowl.mkAgent (Fishbowl.Adaptive Fishbowl.Q_LEARNER) 0 [] [];
               Fishbowl.mkAgent (Fishbowl.Classic Fishbowl.D_ALWAYS) 0 [] []]
              w 0 false 0 in
  exists s,
    Fishbowl.schedulerStep 5 (Fishbowl.startSimulation s0) = Some s /\
    Fishbowl.played s = 1%nat /\
    Fishbowl.qBounded (Fishbowl.qTable (Fishbowl.world s)).
Proof.
  intros g t w s0.
  assert (Hstep : is_Some (Fishbowl.matchUpdater 5 (Fishbowl.agents s0) w)).
  { apply (matchUpdater_completes 5 _ _ 1).
    - intros k. destruct k as [|[|k]]; cbn; split; discriminate || reflexivity.
    - lia.
    - vm_compute. discriminate. }
  destruct Hstep as [[[ags w'] k] Hstep].
  assert (Hk : k = 1%nat).
  { destruct (matchUpdater_effect _ _ _ _ _ _ Hstep)
      as [(Hlt & _)|(_ & Hk & _)]; [cbn in Hlt; lia|exact Hk]. }
  set (s := Fishbowl.mkSim ags w' 1 true (0 + k)).
  assert (E : Fishbowl.schedulerStep 5 (Fishbowl.startSimulation s0) = Some s).
  { unfold Fishbowl.schedulerStep, Fishbowl.runOneMatch, Fishbowl.startSimulation.
    cbn [Fishbowl.running Fishbowl.agents Fishbowl.world Fishbowl.resetAgents
         Fishbowl.currentTick Fishbowl.played s0 map Fishbowl.strategy].
    change (Fishbowl.matchUpdater 5 (Fishbowl.agents s0) w = Some (ags, w', k))
      in Hstep.
    cbn [Fishbowl.agents s0] in Hstep. rewrite Hstep. reflexivity. }
  exists s. split; [exact E|]. split; [subst s k; reflexivity|].
  assert (Hreach : Fishbowl.reachable s0 s).
  { eapply Fishbowl.reach_step; [apply Fishbowl.reach_start|exact E]. }
  apply (q_values_stay_bounded s0 s Hreach).
  intros key v H. subst t. cbn [Fishbowl.world s0 w Fishbowl.qTable] in H.
  apply lookup_insert_Some in H as [[_ <-]|[_ H]]; [split; discriminate|].
  apply lookup_insert_Some in H as [[_ <-]|[_ H]]; [split; discriminate|].
  rewrite lookup_empty in H. discriminate.
Defined.

(** ** Nice strategies of the fishbowl roster against each other *)

Section FishbowlNice.
Import Fishbowl.

Lemma last_Forall {A} (P : A -> Prop) (l : list A) x :
  Forall P l -> last l = Some x -> P x.
Proof.
  intros H E. rewrite last_lookup in E. eapply Forall_lookup_1; eassumption.
Qed.

Lemma allC_no_defection h :
  Forall (fun r => opponent r = C) h ->
  existsb (fun x => move_eqb (opponent x) D) h = false.
Proof.
  induction 1 as [|x h Hx _ IH]; [reflexivity|].
  cbn [existsb]. rewrite IH, Hx. reflexivity.
Qed.

Lemma allC_cooperations h :
  Forall (fun r => opponent r = C) h -> cooperations h = length h.
Proof.
  unfold cooperations. induction 1 as [|x h Hx _ IH]; [reflexivity|].
  cbn [List.filter]. rewrite Hx. cbn. rewrite IH. reflexivity.
Qed.

Lemma fishbowl_nice_cooperates s h mh w :
  nice s = true -> Forall (fun r => opponent r = C) h ->
  strategyFn s h mh w = (C, w).
Proof.
  intros Hn Hh. destruct s as [[]|[]]; try discriminate;
    cbn [strategyFn classicFn].
  - reflexivity.
  - destruct (last h) as [l|] eqn:E; [|reflexivity].
    rewrite (last_Forall _ _ _ Hh E). reflexivity.
  - rewrite (allC_no_defection h Hh). reflexivity.
  - destruct (last h) as [l|] eqn:E; [|reflexivity].
    rewrite (last_Forall _ _ _ Hh E). reflexivity.
  - unfold ret. f_equal. unfold freqFn, cooperationThreshold.
    destruct (Nat.ltb_spec (length h) 5) as [Hlt|Hge]; [reflexivity|].
    assert (E : Qgtb (cooperationRate h) (6 # 10) = true).
    { apply rate_above_threshold; [lia|].
      rewrite (allC_cooperations h Hh). lia. }
    rewrite E. reflexivity.
Qed.

Lemma nice_learns_nothing a hist mv pay w :
  nice (strategy a) = true ->
  learnQ a hist mv pay w = (tt, w) /\
  learnPatterns a hist w = (tt, w) /\
  learnPerformance a pay w = (tt, w).
Proof.
  intros Hn. unfold learnQ, learnPatterns, learnPerformance.
  destruct (strategy a) as [[]|[]]; try discriminate; repeat split.
Qed.

Lemma fishbowl_nice_loop k sA sa ha mha sB sb hb mhb res w :
  nice sA = true -> nice sB = true ->
  Forall (fun r => opponent r = C) (historyA res) ->
  Forall (fun r => opponent r = C) (historyB res) ->
  playLoop k (mkAgent sA sa ha mha, mkAgent sB sb hb mhb, res) w
  = ((mkAgent sA sa ha (mha ++ repeat (mkRound C C 3) k),
      mkAgent sB sb hb (mhb ++ repeat (mkRound C C 3) k),
      {| scoreA := scoreA res + 3 * Z.of_nat k;
         scoreB := scoreB res + 3 * Z.of_nat k;
         historyA := historyA res ++ repeat (mkRound C C 3) k;
         historyB := historyB res ++ repeat (mkRound C C 3) k |}), w).
Proof.
  intros HnA HnB. revert mha mhb res w.
  induction k as [|k IH]; intros mha mhb res w HA HB.
  - simpl. unfold ret. destruct res; simpl. rewrite !app_nil_r.
    do 3 f_equal; lia.
  - cbn [playLoop]. unfold bind at 1.
    unfold playRound, bind. cbn [strategy myHistory].
    rewrite (fishbowl_nice_cooperates sA _ _ _ HnA HA),
      (fishbowl_nice_cooperates sB _ _ _ HnB HB).
    change (roundPayoffs C C) with (3, 3).
    unfold pushMyHistory. cbn [strategy score history myHistory].
    repeat match goal with
           | |- context [learnQ ?a ?h ?m ?p ?w0] =>
               rewrite (proj1 (nice_learns_nothing a h m p w0 ltac:(assumption)))
           | |- context [learnPatterns ?a ?h ?w0] =>
               rewrite (proj1 (proj2 (nice_learns_nothing a h C 0 w0
                                        ltac:(assumption))))
           | |- context [learnPerformance ?a ?p ?w0] =>
               rewrite (proj2 (proj2 (nice_learns_nothing a [] C p w0
                                        ltac:(assumption))))
           end.
    unfold ret.
    rewrite IH by (cbn [historyA historyB]; apply Forall_app; split;
                   [assumption|repeat constructor]).
    cbn [historyA historyB scoreA scoreB].
    rewrite <- !app_assoc. cbn [repeat app].
    do 3 f_equal; lia.
Qed.
End FishbowlNice.

(** X25: a match of the fishbowl component between any two of Always
    Cooperate, Tit-for-Tat, Grim Trigger, Generous Tit-for-Tat and the
    Frequency Analyzer is mutual cooperation in all 20 rounds: both
    scores are 60, no random draw is used and the learned state is left
    as it is. *)
Theorem fishbowl_nice_pair_match :
  forall sA sa ha mha sB sb hb mhb w,
    Fishbowl.nice sA = true -> Fishbowl.nice sB = true ->
    Fishbowl.playGame (Fishbowl.mkAgent sA sa ha mha)
                      (Fishbowl.mkAgent sB sb hb mhb) w
    = ((Fishbowl.mkAgent sA sa ha (mha ++ repeat (Fishbowl.mkRound C C 3) 20),
        Fishbowl.mkAgent sB sb hb (mhb ++ repeat (Fishbowl.mkRound C C 3) 20),
        {| Fishbowl.scoreA := 60;
           Fishbowl.scoreB := 60;
           Fishbowl.historyA := repeat (Fishbowl.mkRound C C 3) 20;
           Fishbowl.historyB := repeat (Fishbowl.mkRound C C 3) 20 |}), w).
Proof.
  intros sA sa ha mha sB sb hb mhb w HA HB. unfold Fishbowl.playGame.
  rewrite (fishbowl_nice_loop _ sA _ _ _ sB) by (assumption || constructor).
  reflexivity.
Qed.

Lemma fishbowl_nice_pair_match_witness :
  let w := Fishbowl.initialWorld (mkRng (fun _ => 1 # 3) 0) in
  Fishbowl.scoreA
    (snd (fst (Fishbowl.playGame
                 (Fishbowl.mkAgent (Fishbowl.Adaptive Fishbowl.FREQ_ANALYSIS) 0 [] [])
                 (Fishbowl.mkAgent (Fishbowl.Classic Fishbowl.GENEROUS_TIT_FOR_TAT)
                                   0 [] []) w)))
  = 60.
Proof.
  intros w.
  rewrite (fishbowl_nice_pair_match
             (Fishbowl.Adaptive Fishbowl.FREQ_ANALYSIS) 0 [] []
             (Fishbowl.Classic Fishbowl.GENEROUS_TIT_FOR_TAT) 0 [] [] w
             eq_refl eq_refl).
  reflexivity.
Defined.

(** ** Tooltips stay on the screen *)

Section Tooltips.
Import Display.

Lemma Qleb_le a b : Qleb a b = true <-> (a <= b)%Q.
Proof. apply Qle_bool_iff. Qed.

Lemma measuredOr_cases m fb :
  measuredOr m fb = fb \/ (exists v, m = Some v /\ measuredOr m fb = v).
Proof.
  unfold measuredOr. destruct m as [v|]; [|left; reflexivity].
  destruct (Qeq_bool v 0); [left; reflexivity|right; eauto].
Qed.

Lemma fallbackW_fits vw : (fallbackW vw + 20 <= vw)%Q.
Proof.
  unfold fallbackW.
  destruct (Qltb vw 480) eqn:E1; [qcases; lra|apply Qltb_ge in E1].
  destruct (Qltb vw 768) eqn:E2; [lra|apply Qltb_ge in E2; lra].
Qed.

Lemma clamp_fits lo v hi :
  (lo <= Qmax lo (Qmin v hi))%Q /\
  ((lo <= hi)%Q -> (Qmax lo (Qmin v hi) <= hi)%Q) /\
  ((hi < lo)%Q -> (Qmax lo (Qmin v hi) == lo)%Q).
Proof. split; [|split]; intros; qcases; lra. Qed.
End Tooltips.

(** X26: the tooltip of the hover component (380 x 450).  A coordinate
    of its position is a number exactly when the pointer coordinate it is
    computed from is one: opened by a mouse event it has a position,
    opened by keyboard focus (no pointer coordinates) its position is
    [NaN].  A position that is a number is never left of or above the
    10-pixel margin; in a window at least 400 wide (470 high) the tooltip
    lies inside the window with a 10-pixel margin on the right (bottom);
    in a narrower (lower) window it sits at the margin and overflows. *)
Theorem hover_tooltip_on_screen :
  forall x y innerWidth innerHeight,
    let pos := Display.hoverTooltip x y innerWidth innerHeight in
    (fst pos = None <-> x = None) /\
    (snd pos = None <-> y = None) /\
    (forall l, fst pos = Some l ->
       (10 <= l)%Q /\
       ((400 <= innerWidth)%Q -> (l + 380 <= innerWidth - 10)%Q) /\
       ((innerWidth < 400)%Q -> (l == 10)%Q)) /\
    (forall t, snd pos = Some t ->
       (10 <= t)%Q /\
       ((470 <= innerHeight)%Q -> (t + 450 <= innerHeight - 10)%Q) /\
       ((innerHeight < 470)%Q -> (t == 10)%Q)).
Proof.
  intros x y W H pos. subst pos. unfold Display.hoverTooltip. cbn [fst snd].
  split; [|split; [|split]].
  - destruct x as [x|]; cbn; [|tauto].
    destruct (Qgtb _ _); cbn; split; discriminate.
  - destruct y as [y|]; cbn; [|tauto].
    destruct (Qgtb _ _); cbn; split; discriminate.
  - intros l Hl. destruct x as [x|]; [|discriminate Hl]. cbn in Hl.
    destruct (Qgtb _ _); cbn in Hl; injection Hl as <-.
    all: match goal with
         | |- context [Qmax 10 (Qmin ?v ?hi)] =>
             destruct (clamp_fits 10 v hi) as (H1 & H2 & H3)
         end.
    all: split; [exact H1|].
    all: split; [intros Hw; specialize (H2 ltac:(lra)); lra
                |intros Hw; apply H3; lra].
  - intros t Ht. destruct y as [y|]; [|discriminate Ht]. cbn in Ht.
    destruct (Qgtb _ _); cbn in Ht; injection Ht as <-.
    all: match goal with
         | |- context [Qmax 10 (Qmin ?v ?hi)] =>
             destruct (clamp_fits 10 v hi) as (H1 & H2 & H3)
         end.
    all: split; [exact H1|].
    all: split; [intros Hh; specialize (H2 ltac:(lra)); lra
                |intros Hh; apply H3; lra].
Qed.

Lemma hover_tooltip_on_screen_witness :
  Display.hoverTooltip None None 1280 720 = (None, None) /\
  exists l,
    fst (Display.hoverTooltip (Some 1000%Q) (Some 300%Q) 1280 720) = Some l /\
    (l + 380 <= 1280 - 10)%Q.
Proof.
  split; [reflexivity|].
  destruct (hover_tooltip_on_screen (Some 1000%Q) (Some 300%Q) 1280 720)
    as (_ & _ & Hleft & _).
  eexists. split; [reflexivity|].
  destruct (Hleft _ eq_refl) as (_ & Hfit & _).
  apply Hfit. discriminate.
Defined.

(** X27: the measured tooltip of the fishbowl component is never placed
    left of or above the 10-pixel margin, and it lies inside the viewport
    with 10-pixel margins whenever the viewport is at least 20 pixels
    larger than its measured size; while the element is not mounted its
    fallback width always fits the viewport; the height cap lies between
    120 and 420. *)
Theorem fishbowl_tooltip_on_screen :
  forall x y vw vh offsetWidth offsetHeight,
    let pos := Display.recompute x y vw vh offsetWidth offsetHeight in
    let measuredW := Display.measuredOr offsetWidth (Display.fallbackW vw) in
    let measuredH := Display.measuredOr offsetHeight (Display.fallbackMaxH vh) in
    (10 <= Display.left pos)%Q /\ (10 <= Display.top pos)%Q /\
    ((measuredW + 20 <= vw)%Q -> (Display.left pos + measuredW <= vw - 10)%Q) /\
    ((measuredH + 20 <= vh)%Q -> (Display.top pos + measuredH <= vh - 10)%Q) /\
    (offsetWidth = None ->
     (Display.left pos + Display.fallbackW vw <= vw - 10)%Q) /\
    (120 <= Display.maxH pos)%Q /\ (Display.maxH pos <= 420)%Q.
Proof.
  intros x y vw vh ow oh pos mW mH. subst pos. unfold Display.recompute.
  fold mW mH.
  match goal with
  | |- context [let '(_, _) := ?p in _] => destruct p as [left0 top0]
  end.
  cbn [Display.left Display.top Display.maxH].
  destruct (clamp_fits 10 left0 (vw - mW - 10)) as (HL1 & HL2 & _).
  destruct (clamp_fits 10 top0 (vh - mH - 10)) as (HT1 & HT2 & _).
  split; [exact HL1|]. split; [exact HT1|].
  split; [intros Hw; specialize (HL2 ltac:(lra)); lra|].
  split; [intros Hh; specialize (HT2 ltac:(lra)); lra|].
  split.
  - intros ->. subst mW. cbn [Display.measuredOr] in *.
    pose proof (fallbackW_fits vw). specialize (HL2 ltac:(lra)). lra.
  - unfold Display.fallbackMaxH. split; qcases; lra.
Qed.

Lemma fishbowl_tooltip_on_screen_witness :
  let pos := Display.recompute (Some 1200%Q) (Some 100%Q) 1280 720
                               (Some 320%Q) (Some 400%Q) in
  (Display.left pos + 320 <= 1280 - 10)%Q.
Proof.
  intros pos.
  apply (proj1 (proj2 (proj2 (fishbowl_tooltip_on_screen
                                (Some 1200%Q) (Some 100%Q) 1280 720
                                (Some 320%Q) (Some 400%Q))))).
  discriminate.
Defined.

(** X28: the fishbowl area computed by [updateDimensions] is at most
    880 x 520 and always at least 48 pixels narrower than the viewport;
    on a phone (viewport narrower than 768) its height is at most 400 and
    at most 45% of a viewport height that is not negative. *)
Theorem fishbowl_area_fits :
  forall vw vh,
    let dims := Display.updateDimensions vw vh in
    (fst dims <= vw - 48)%Q /\ (fst dims <= 880)%Q /\ (snd dims <= 520)%Q /\
    ((vw < 768)%Q -> (0 <= vh)%Q ->
     (snd dims <= 400)%Q /\ (snd dims <= vh * (45 # 100))%Q).
Proof.
  intros vw vh dims. subst dims. unfold Display.updateDimensions.
  destruct (Qltb vw 480) eqn:E1; [apply Qltb_lt in E1|apply Qltb_ge in E1].
  - cbn [fst snd]. repeat split; try intros; qcases; lra.
  - destruct (Qltb vw 768) eqn:E2; [apply Qltb_lt in E2|apply Qltb_ge in E2].
    + cbn [fst snd]. repeat split; try intros; qcases; lra.
    + destruct (Display.Qleb 768 vw && Qltb vw 1024) eqn:E3.
      * apply andb_true_iff in E3 as [_ E3]. apply Qltb_lt in E3.
        cbn [fst snd]. repeat split; try intros; lra.
      * apply andb_false_iff in E3 as [E3|E3].
        -- exfalso. apply Qleb_le in E2. unfold Display.Qleb in *. congruence.
        -- apply Qltb_ge in E3. cbn [fst snd]. repeat split; try intros; lra.
Qed.

Lemma fishbowl_area_fits_witness :
  (snd (Display.updateDimensions 390 844) <= 844 * (45 # 100))%Q.
Proof.
  apply (proj2 (proj2 (proj2 (fishbowl_area_fits 390 844)))); discriminate || reflexivity.
Defined.

(** ** The leaderboard *)

Section Leaderboard.
Import Display.
Context {A : Type} (score : A -> Z).

(** [a] is listed before [b]: its score is not lower. *)
Local Abbreviation ranksBefore := (fun a b : A => score b <= score a).

Lemma insertByScore_perm x l : insertByScore score x l ≡ₚ x :: l.
Proof.
  induction l as [|y l IH]; cbn [insertByScore]; [reflexivity|].
  destruct (score x <? score y); [|reflexivity].
  rewrite IH. apply Permutation_swap.
Qed.

Lemma sortByScore_perm l : sortByScore score l ≡ₚ l.
Proof.
  induction l as [|x l IH]; cbn [sortByScore]; [reflexivity|].
  rewrite insertByScore_perm, IH. reflexivity.
Qed.

Lemma insertByScore_sorted x l :
  StronglySorted ranksBefore l ->
  StronglySorted ranksBefore (insertByScore score x l).
Proof.
  induction 1 as [|y l Hl IH Hy]; cbn [insertByScore].
  - repeat constructor.
  - destruct (Z.ltb_spec (score x) (score y)) as [Hlt|Hge].
    + constructor; [exact IH|].
      rewrite insertByScore_perm. constructor; [lia|exact Hy].
    + constructor; [constructor; assumption|].
      constructor; [exact Hge|].
      eapply Forall_impl; [exact Hy|]. cbn. intros z Hz. lia.
Qed.

Lemma sortByScore_sorted l : StronglySorted ranksBefore (sortByScore score l).
Proof.
  induction l as [|x l IH]; cbn [sortByScore]; [constructor|].
  apply insertByScore_sorted, IH.
Qed.

Lemma sorted_split (l1 l2 : list A) :
  StronglySorted ranksBefore (l1 ++ l2) ->
  StronglySorted ranksBefore l1 /\
  (forall a b, a ∈ l1 -> b ∈ l2 -> score b <= score a).
Proof.
  induction l1 as [|x l1 IH]; cbn [app]; intros H.
  - split; [constructor|]. intros a b Ha. inversion Ha.
  - apply StronglySorted_inv in H as [H Hx].
    destruct (IH H) as [Hs Hab]. apply Forall_app in Hx as [Hx1 Hx2].
    split; [constructor; assumption|].
    intros a b Ha Hb. apply elem_of_cons in Ha as [->|Ha].
    + rewrite Forall_forall in Hx2. apply Hx2, Hb.
    + apply Hab; assumption.
Qed.

Lemma leaderboard_spec agents :
  let board := leaderboard score agents in
  let others := drop 6 (sortByScore score agents) in
  agents ≡ₚ board ++ others /\
  length board = Nat.min 6 (length agents) /\
  StronglySorted ranksBefore board /\
  (forall a b, a ∈ board -> b ∈ others -> score b <= score a).
Proof.
  intros board others. subst board others. unfold leaderboard.
  split; [rewrite take_drop; symmetry; apply sortByScore_perm|].
  split; [rewrite length_take, (Permutation_length (sortByScore_perm agents));
          reflexivity|].
  apply sorted_split. rewrite take_drop. apply sortByScore_sorted.
Qed.
End Leaderboard.

(** X29: the leaderboard lists min(6, roster size) agents of the roster
    in order of descending score, and every agent it leaves out has a
    score no higher than every agent it lists (the roster is a
    permutation of the listed and the left-out agents). *)
Theorem leaderboard_top_six :
  forall (A : Type) (score : A -> Z) (agents : list A),
    let board := Display.leaderboard score agents in
    let others := drop 6 (Display.sortByScore score agents) in
    agents ≡ₚ board ++ others /\
    length board = Nat.min 6 (length agents) /\
    StronglySorted (fun a b => score b <= score a) board /\
    (forall a b, a ∈ board -> b ∈ others -> score b <= score a).
Proof. intros A score agents. apply leaderboard_spec. Qed.

(** ** The match log and the chart keep the latest entries *)

Section Logs.
Import Display.
Context {A : Type}.

Lemma take_cons_take n (x : A) l :
  take (Datatypes.S n) (x :: take (Datatypes.S n) l) = take (Datatypes.S n) (x :: l).
Proof.
  cbn [take]. rewrite take_take. f_equal. f_equal. lia.
Qed.

Lemma hoverLog_fold (entries : list A) :
  fold_left (fun l e => hoverLogPush e l) entries [] = take 12 (rev entries).
Proof.
  induction entries as [|e entries IH] using rev_ind; [reflexivity|].
  rewrite fold_left_app, rev_app_distr. cbn [fold_left rev app].
  rewrite IH. unfold hoverLogPush. apply (take_cons_take 11).
Qed.

Lemma fishbowlLog_fold (entries : list A) :
  fold_left (fun l e => fishbowlLogPush e l) entries [] = take 20 (rev entries).
Proof.
  induction entries as [|e entries IH] using rev_ind; [reflexivity|].
  rewrite fold_left_app, rev_app_distr. cbn [fold_left rev app].
  rewrite IH. unfold fishbowlLogPush. cbn [take]. rewrite take_take.
  f_equal.
Qed.

Lemma chart_fold (points : list A) :
  fold_left (fun d p => chartPush p d) points []
  = drop (length points - 20) points.
Proof.
  induction points as [|p points IH] using rev_ind; [reflexivity|].
  rewrite fold_left_app. cbn [fold_left]. rewrite IH. unfold chartPush.
  rewrite length_drop, drop_drop, length_app. cbn [length].
  rewrite drop_app_le by lia. f_equal. f_equal. lia.
Qed.
End Logs.

(** X30: after any sequence of matches the match log of the hover
    component holds the latest 12 entries and the one of the fishbowl
    component the latest 20, newest first; the chart data of the fishbowl
    component holds the latest 20 points, oldest first. *)
Theorem logs_keep_latest :
  forall (A : Type) (entries : list A),
    fold_left (fun l e => Display.hoverLogPush e l) entries []
    = take 12 (rev entries) /\
    fold_left (fun l e => Display.fishbowlLogPush e l) entries []
    = take 20 (rev entries) /\
    fold_left (fun d p => Display.chartPush p d) entries []
    = drop (length entries - 20) entries.
Proof.
  intros A entries. split; [apply hoverLog_fold|].
  split; [apply fishbowlLog_fold|apply chart_fold].
Qed.
